(** * lpmtrie: a longest-prefix-match trie (Go), embedded and verified

    Shallow embedding of [lpmtrie.go].  Go's [int] values are machine
    integers modelled in [Z]; bytes are [Byte.byte]; a [*lpmTrieNode] is a
    value of the inductive type [lpmTrieNode] whose constructor [nilNode] is
    the nil pointer; an [interface{}] payload is an [option V] whose [None]
    is the nil interface.  A Go panic is the outcome [Panic]. *)

From Stdlib Require Import Strings.String.
From Stdlib Require Import ZArith List Bool Lia Sorted Setoid.
From Stdlib Require Import Strings.Byte.
From Equations Require Import Equations.
Import ListNotations.

Local Open Scope Z_scope.

Set Implicit Arguments.

(** ** Outcomes: a returned value or a panic *)

Inductive res (A : Type) : Type :=
| Ok (a : A)
| Panic.

Arguments Ok {A} a.
Arguments Panic {A}.

Definition bind {A B : Type} (m : res A) (k : A -> res B) : res B :=
  match m with
  | Ok a => k a
  | Panic => Panic
  end.

Notation "x <- m ;; k" := (bind m (fun x => k))
  (at level 61, m at next level, right associativity).
Notation "' p <- m ;; k" := (bind m (fun x => let p := x in k))
  (at level 61, p pattern, m at next level, right associativity).

(** ** Bytes, slices and the library primitives the code calls *)

Definition byte_val (b : byte) : Z := Z.of_N (Byte.to_N b).

(** [data[i]]: indexing a slice panics out of range. *)
Definition index (data : list byte) (i : Z) : res Z :=
  if (i <? 0) || (Z.of_nat (length data) <=? i) then Panic
  else match nth_error data (Z.to_nat i) with
       | Some b => Ok (byte_val b)
       | None => Panic
       end.

(** [data[i:j]]: re-slicing panics when the bounds are out of order or past
    the end of the slice (keys carry slices whose capacity is their
    length). *)
Definition slice (data : list byte) (i j : Z) : res (list byte) :=
  if (i <? 0) || (j <? i) || (Z.of_nat (length data) <? j) then Panic
  else Ok (firstn (Z.to_nat (j - i)) (skipn (Z.to_nat i) data)).

(** [binary.BigEndian.Uint32] and [Uint16]: big-endian decoding of the first
    four (two) bytes; a shorter slice panics. *)
Definition be_Uint32 (b : list byte) : res Z :=
  match b with
  | b0 :: b1 :: b2 :: b3 :: _ =>
      Ok (Z.lor (Z.lor (Z.lor (byte_val b3) (Z.shiftl (byte_val b2) 8))
                       (Z.shiftl (byte_val b1) 16))
                (Z.shiftl (byte_val b0) 24))
  | _ => Panic
  end.

Definition be_Uint16 (b : list byte) : res Z :=
  match b with
  | b0 :: b1 :: _ => Ok (Z.lor (byte_val b1) (Z.shiftl (byte_val b0) 8))
  | _ => Panic
  end.

(** [bits.Len]: the number of bits needed to write [x]; 0 for 0. *)
Definition bits_Len (x : Z) : Z := if x =? 0 then 0 else Z.log2 x + 1.

(** [bits.LeadingZeros32/16/8 x] is [w - bits.Len x]. *)
Definition LeadingZeros32 (x : Z) : Z := 32 - bits_Len x.
Definition LeadingZeros16 (x : Z) : Z := 16 - bits_Len x.
Definition LeadingZeros8 (x : Z) : Z := 8 - bits_Len x.

(** 64-bit signed wrap-around, for the [int64] entry counter. *)
Definition wrap64 (x : Z) : Z := (x + 2 ^ 63) mod 2 ^ 64 - 2 ^ 63.

Definition AddInt64 (x delta : Z) : Z := wrap64 (x + delta).

(** ** Keys *)

Record Key : Type := mkKey { PrefixLen : Z; Data : list byte }.

(** [extractBit]: Go's [/] and [%] truncate towards zero ([Z.quot],
    [Z.rem]); the result is a byte that is 0 or 1. *)
Definition extractBit (data : list byte) (idx : Z) : res Z :=
  b <- index data (Z.quot idx 8) ;;
  Ok (Z.land (Z.shiftr b (7 - Z.rem idx 8)) 1).

Definition min (a b : Z) : Z := if a <? b then a else b.

(** ** The chunked prefix comparison

    [longestPrefixMatch] reads [t.keySize], [node.PrefixLen], [node.Data]
    and the key.  Its three stages are the 32-bit loop, the 16-bit step and
    the 8-bit step; a stage either returns from the function or falls
    through with the running [prefixlen] and [i]. *)

Inductive flow : Type :=
| Return (r : Z)
| Fall (prefixlen i : Z).

Section Chunks.
Variable keySize : Z.
Variables (ndata kdata : list byte).
Variable limit : Z.

Equations? lpm_loop32 (prefixlen i : Z) : res flow
  by wf (Z.to_nat (keySize - i)) lt :=
  lpm_loop32 prefixlen i with Z_ge_dec keySize (i + 4) => {
    | left _ =>
        x <- slice ndata i (i + 4) ;;
        a <- be_Uint32 x ;;
        y <- slice kdata i (i + 4) ;;
        b <- be_Uint32 y ;;
        let diff := Z.lxor a b in
        let prefixlen := prefixlen + LeadingZeros32 diff in
        if prefixlen >=? limit then Ok (Return limit)
        else if negb (diff =? 0) then Ok (Return prefixlen)
        else lpm_loop32 prefixlen (i + 4);
    | right _ => Ok (Fall prefixlen i) }.
Proof. lia. Qed.

Definition lpm_step16 (prefixlen i : Z) : res flow :=
  if keySize >=? i + 2 then
    x <- slice ndata i (i + 2) ;;
    a <- be_Uint16 x ;;
    y <- slice kdata i (i + 2) ;;
    b <- be_Uint16 y ;;
    let diff := Z.lxor a b in
    let prefixlen := prefixlen + LeadingZeros16 diff in
    if prefixlen >=? limit then Ok (Return limit)
    else if negb (diff =? 0) then Ok (Return prefixlen)
    else Ok (Fall prefixlen (i + 2))
  else Ok (Fall prefixlen i).

Definition lpm_step8 (prefixlen i : Z) : res Z :=
  if keySize >=? i + 1 then
    a <- index ndata i ;;
    b <- index kdata i ;;
    let diff := Z.lxor a b in
    let prefixlen := prefixlen + LeadingZeros8 diff in
    if prefixlen >=? limit then Ok limit
    else Ok prefixlen
  else Ok prefixlen.

Definition lpm_chunks : res Z :=
  f <- lpm_loop32 0 0 ;;
  match f with
  | Return r => Ok r
  | Fall prefixlen i =>
      g <- lpm_step16 prefixlen i ;;
      match g with
      | Return r => Ok r
      | Fall prefixlen i => lpm_step8 prefixlen i
      end
  end.
End Chunks.

Definition longestPrefixMatch (keySize : Z) (node key : Key) : res Z :=
  let limit := min (PrefixLen node) (PrefixLen key) in
  lpm_chunks keySize (Data node) (Data key) limit.

(** ** The bit-by-bit reading of a buffer

    [bits_of data] lists the bits of [data], bit 0 being the most
    significant bit of byte 0. *)

Fixpoint bitsn (w : nat) (x : Z) : list bool :=
  match w with
  | O => []
  | S w' => Z.testbit x (Z.of_nat w') :: bitsn w' x
  end.

Definition bits_of (data : list byte) : list bool :=
  flat_map (fun b => bitsn 8 (byte_val b)) data.

(** Index of the first position at which two bit lists differ (their common
    length when they do not). *)
Fixpoint first_diff (l1 l2 : list bool) : Z :=
  match l1, l2 with
  | a :: l1', b :: l2' => if Bool.eqb a b then 1 + first_diff l1' l2' else 0
  | _, _ => 0
  end.

(** The reference the chunked routine is compared with: count the leading
    bits the two buffers share, one bit at a time, and cap at [limit]. *)
Definition lpm_bitwise (node key : Key) : Z :=
  Z.min (min (PrefixLen node) (PrefixLen key))
        (first_diff (bits_of (Data node)) (bits_of (Data key))).

Definition b4 (a b c d : byte) : list byte := [a; b; c; d].
(** Number of leading [false] entries. *)
Fixpoint leading_false (l : list bool) : Z :=
  match l with
  | false :: l' => 1 + leading_false l'
  | _ => 0
  end.

(** What the routine must return from a state whose unread parts are [ra]
    and [rb]. *)
Definition target (limit p : Z) (ra rb : list byte) : Z :=
  Z.min limit (p + first_diff (bits_of ra) (bits_of rb)).

(** The two buffers read up to byte [i], with [ra] and [rb] still unread. *)
Definition read_upto (nd kd : list byte) (i : Z) (ra rb : list byte) : Prop :=
  exists pa pb, nd = pa ++ ra /\ kd = pb ++ rb /\ i = Z.of_nat (length pa) /\
                length pa = length pb /\ length ra = length rb.

(** ** Nodes and tries

    A value of [lpmTrieNode] is a [*lpmTrieNode]: [nilNode] is the nil
    pointer and [Node key child0 child1 value im] a node with its embedded
    [Key], its two child pointers, the payload held in [value] and the
    flag held in [im].  Every pointer the code stores is either freshly
    allocated or moved out of a slot that the same store makes
    unreachable, so the nodes reachable from the root always form a tree
    and the pointer graph is this inductive value. *)

Section Trie.
Variable V : Type.

Inductive lpmTrieNode : Type :=
| nilNode
| Node (key : Key) (child0 child1 : lpmTrieNode) (value : option V) (im : bool).

Record lpmTrie : Type := mkTrie {
  root : lpmTrieNode;
  size : Z;
  maxPrefixLen : Z;
  keySize : Z
}.

Definition set_root (t : lpmTrie) (r : lpmTrieNode) : lpmTrie :=
  mkTrie r (size t) (maxPrefixLen t) (keySize t).

Definition set_size (t : lpmTrie) (s : Z) : lpmTrie :=
  mkTrie (root t) s (maxPrefixLen t) (keySize t).

Definition newLpmTrieNode (key : Key) (value : option V) : lpmTrieNode :=
  Node key nilNode nilNode value false.

Definition is_nil (n : lpmTrieNode) : bool :=
  match n with nilNode => true | Node _ _ _ _ _ => false end.

Definition loadValue (n : lpmTrieNode) : option V :=
  match n with nilNode => None | Node _ _ _ v _ => v end.

Definition isIm (n : lpmTrieNode) : bool :=
  match n with nilNode => false | Node _ _ _ _ im => im end.

(** [node.child[b]] for [b] the byte 0 or 1 that [extractBit] returns. *)
Definition child (n : lpmTrieNode) (b : Z) : lpmTrieNode :=
  match n with
  | nilNode => nilNode
  | Node _ c0 c1 _ _ => if b =? 0 then c0 else c1
  end.

(** A slot ([*unsafe.Pointer]) is addressed by the child indices leading
    to it from [&t.root]: [[]] is [&t.root] and [s ++ [b]] is
    [&n.child[b]] for the node [n] held in slot [s]. *)
Definition slot : Type := list Z.

Fixpoint loadPointer (r : lpmTrieNode) (s : slot) : lpmTrieNode :=
  match s with
  | [] => r
  | b :: s' => loadPointer (child r b) s'
  end.

(** The node [n] with [c] written into [n.child[b]]. *)
Definition set_child (n : lpmTrieNode) (b : Z) (c : lpmTrieNode)
  : lpmTrieNode :=
  match n with
  | nilNode => nilNode
  | Node k c0 c1 v im =>
      if b =? 0 then Node k c c1 v im else Node k c0 c v im
  end.

Fixpoint storePointer (r : lpmTrieNode) (s : slot) (x : lpmTrieNode)
  : lpmTrieNode :=
  match s with
  | [] => x
  | b :: s' => set_child r b (storePointer (child r b) s' x)
  end.

(** *** New, Size, key checks *)

Definition New (maxPrefixLen : Z) : lpmTrie + string :=
  if (maxPrefixLen <=? 0) || negb (Z.rem maxPrefixLen 8 =? 0) then
    inr "maxPrefixLen must be positive and be times of 8"%string
  else
    inl (mkTrie nilNode 0 maxPrefixLen (Z.quot maxPrefixLen 8)).

Definition Size (t : lpmTrie) : Z := size t.

Definition isValidKey (t : lpmTrie) (key : Key) : bool :=
  (0 <=? PrefixLen key) && (PrefixLen key <=? maxPrefixLen t)
  && (Z.of_nat (length (Data key)) =? keySize t).

Definition checkKey (t : lpmTrie) (key : Key) : res unit :=
  if negb (isValidKey t key) then Panic else Ok tt.

(** *** Lookup *)

Definition Lookup_found (found : lpmTrieNode) : option V * bool :=
  match found with
  | nilNode => (None, false)
  | Node _ _ _ v _ => (v, true)
  end.

Fixpoint Lookup_loop (t : lpmTrie) (key : Key) (node found : lpmTrieNode)
  : res (option V * bool) :=
  match node with
  | nilNode => Ok (Lookup_found found)
  | Node nk c0 c1 v im =>
      matchlen <- longestPrefixMatch (keySize t) nk key ;;
      if matchlen =? maxPrefixLen t then Ok (v, true)
      else if matchlen <? PrefixLen nk then Ok (Lookup_found found)
      else
        let found := if negb im then node else found in
        b <- extractBit (Data key) (PrefixLen nk) ;;
        Lookup_loop t key (if b =? 0 then c0 else c1) found
  end.

Definition Lookup (t : lpmTrie) (key : Key) : res (option V * bool) :=
  _ <- checkKey t key ;;
  Lookup_loop t key (root t) nilNode.

(** *** Update *)

(** The descent: returns the slot reached, the node it holds (the loop
    variable [node]) and [matchlen]. *)
Fixpoint Update_loop (t : lpmTrie) (key : Key) (s : slot)
         (node : lpmTrieNode) (matchlen : Z)
  : res (slot * lpmTrieNode * Z) :=
  match node with
  | nilNode => Ok (s, nilNode, matchlen)
  | Node nk c0 c1 _ _ =>
      matchlen <- longestPrefixMatch (keySize t) nk key ;;
      if negb (PrefixLen nk =? matchlen)
         || (PrefixLen nk =? PrefixLen key)
         || (PrefixLen nk =? maxPrefixLen t)
      then Ok (s, node, matchlen)
      else
        b <- extractBit (Data key) (PrefixLen nk) ;;
        Update_loop t key (s ++ [b]) (if b =? 0 then c0 else c1) matchlen
  end.

(** The code after the loop. *)
Definition Update_finish (t : lpmTrie) (key : Key) (val : option V)
           (r : slot * lpmTrieNode * Z) : res (lpmTrie * bool) :=
  let '(s, node, matchlen) := r in
  let newnode := newLpmTrieNode key val in
  match node with
  | nilNode => Ok (set_root t (storePointer (root t) s newnode), false)
  | Node nk c0 c1 _ im =>
      if PrefixLen nk =? matchlen then
        let newnode := Node key c0 c1 val false in
        let t := if negb im then set_size t (AddInt64 (size t) (-1)) else t in
        Ok (set_root t (storePointer (root t) s newnode), true)
      else
        let imkey := mkKey matchlen (Data key) in
        nextBit <- extractBit (Data key) matchlen ;;
        let imNode :=
          if negb (nextBit =? 0) then Node imkey node newnode None true
          else Node imkey newnode node None true in
        Ok (set_root t (storePointer (root t) s imNode), false)
  end.

Definition Update (t : lpmTrie) (key : Key) (val : option V)
  : res (lpmTrie * bool) :=
  _ <- checkKey t key ;;
  let t := set_size t (AddInt64 (size t) 1) in
  r <- Update_loop t key [] (root t) 0 ;;
  Update_finish t key val r.

(** *** Delete *)

(** The descent: returns [parent], [trim2], [trim], the node held in
    [trim] and [matchlen]. *)
Fixpoint Delete_loop (t : lpmTrie) (key : Key) (parent : lpmTrieNode)
         (trim2 trim : slot) (node : lpmTrieNode) (matchlen : Z)
  : res (lpmTrieNode * slot * slot * lpmTrieNode * Z) :=
  match node with
  | nilNode => Ok (parent, trim2, trim, nilNode, matchlen)
  | Node nk c0 c1 _ _ =>
      matchlen <- longestPrefixMatch (keySize t) nk key ;;
      if negb (PrefixLen nk =? matchlen) || (PrefixLen nk =? PrefixLen key)
      then Ok (parent, trim2, trim, node, matchlen)
      else
        b <- extractBit (Data key) (PrefixLen nk) ;;
        Delete_loop t key node trim (trim ++ [b])
                    (if b =? 0 then c0 else c1) matchlen
  end.

(** [node == loadPointer(&parent.child[0])]: [node] was loaded from
    [trim], a child slot of [parent], and the two child slots of a node
    never hold the same pointer; the comparison asks whether [trim] is
    the slot [&parent.child[0]]. *)
Definition is_child0 (trim : slot) : bool := last trim 0 =? 0.

(** The code after the loop. *)
Definition Delete_finish (t : lpmTrie) (key : Key)
           (r : lpmTrieNode * slot * slot * lpmTrieNode * Z)
  : lpmTrie * bool :=
  let '(parent, trim2, trim, node, matchlen) := r in
  match node with
  | nilNode => (t, false)
  | Node nk c0 c1 _ im =>
      if negb (PrefixLen nk =? PrefixLen key)
         || negb (PrefixLen nk =? matchlen)
         || im
      then (t, false)
      else
        let t := set_size t (AddInt64 (size t) (-1)) in
        if negb (is_nil c0) && negb (is_nil c1) then
          (set_root t (storePointer (root t) trim (Node nk c0 c1 None true)),
           true)
        else if negb (is_nil parent) && isIm parent
                && is_nil c0 && is_nil c1 then
          if is_child0 trim then
            (set_root t (storePointer (root t) trim2 (child parent 1)), true)
          else
            (set_root t (storePointer (root t) trim2 (child parent 0)), true)
        else if negb (is_nil c0) then
          (set_root t (storePointer (root t) trim c0), true)
        else if negb (is_nil c1) then
          (set_root t (storePointer (root t) trim c1), true)
        else
          (set_root t (storePointer (root t) trim nilNode), true)
  end.

Definition Delete (t : lpmTrie) (key : Key) : res (lpmTrie * bool) :=
  _ <- checkKey t key ;;
  r <- Delete_loop t key nilNode [] [] (root t) 0 ;;
  Ok (Delete_finish t key r).

(** *** Range

    The visitor is a Go closure: it may update state of its caller and
    returns whether to go on.  Its state is threaded explicitly. *)
Section Range.
Variable A : Type.
Variable fn : Key -> option V -> A -> A * bool.

Fixpoint traverse (r : lpmTrieNode) (a : A) : A * bool :=
  match r with
  | nilNode => (a, false)
  | Node k c0 c1 v im =>
      let '(a, terminated) := traverse c0 a in
      if terminated then (a, true)
      else if im then traverse c1 a
      else
        let '(a, continue) := fn k v a in
        if negb continue then (a, true) else traverse c1 a
  end.

Definition Range (t : lpmTrie) (a : A) : A := fst (traverse (root t) a).
End Range.

(** *** Sequences of writes *)

Inductive op : Type :=
| OpUpdate (key : Key) (val : option V)
| OpDelete (key : Key).

Definition op_key (o : op) : Key :=
  match o with OpUpdate k _ => k | OpDelete k => k end.

Definition apply_op (t : lpmTrie) (o : op) : res lpmTrie :=
  match o with
  | OpUpdate k v => r <- Update t k v ;; Ok (fst r)
  | OpDelete k => r <- Delete t k ;; Ok (fst r)
  end.

Fixpoint run_ops (t : lpmTrie) (ops : list op) : res lpmTrie :=
  match ops with
  | [] => Ok t
  | o :: ops' => t' <- apply_op t o ;; run_ops t' ops'
  end.
End Trie.

Arguments nilNode {V}.
Arguments OpUpdate {V} key val.
Arguments OpDelete {V} key.

(** ** Bits of a key, read one at a time *)

(** The bit [extractBit] returns where it does not panic. *)
Definition kbit (data : list byte) (i : Z) : Z :=
  Z.b2z (nth (Z.to_nat i) (bits_of data) false).

(** Two buffers agree on their first [n] bits. *)
Definition prefix_agree (a b : list byte) (n : Z) : Prop :=
  forall i, 0 <= i < n -> kbit a i = kbit b i.

(** A key as [checkKey] accepts it in a trie of width [ks] bytes and
    maximal prefix length [mpl]. *)
Definition key_ok (ks mpl : Z) (k : Key) : Prop :=
  0 <= PrefixLen k <= mpl /\ Z.of_nat (length (Data k)) = ks.

(** ** Invariants and the writes as relations on subtrees *)

Section TrieSpec.
Variable V : Type.

(** A trie as [New] builds it: whole bytes, and at least one. *)
Definition cfg_ok (t : lpmTrie V) : Prop :=
  0 < maxPrefixLen t /\ maxPrefixLen t = 8 * keySize t.

(** [P] holds of the key of every node reachable from [n]. *)
Fixpoint all_keys (P : Key -> Prop) (n : lpmTrieNode V) : Prop :=
  match n with
  | nilNode => True
  | Node k c0 c1 _ _ => P k /\ all_keys P c0 /\ all_keys P c1
  end.

(** Every reachable node carries a key that [checkKey] accepts. *)
Definition shape (t : lpmTrie V) (n : lpmTrieNode V) : Prop :=
  all_keys (key_ok (keySize t) (maxPrefixLen t)) n.

(** Every reachable intermediate node has two children. *)
Fixpoint im_two (n : lpmTrieNode V) : Prop :=
  match n with
  | nilNode => True
  | Node _ c0 c1 _ im =>
      (im = true -> c0 <> nilNode /\ c1 <> nilNode) /\ im_two c0 /\ im_two c1
  end.

(** The reachable nodes whose intermediate flag is false, in order
    (child 0, the node, child 1), with their payloads. *)
Fixpoint entries (n : lpmTrieNode V) : list (Key * option V) :=
  match n with
  | nilNode => []
  | Node k c0 c1 v im =>
      entries c0 ++ (if im then [] else [(k, v)]) ++ entries c1
  end.

Definition count_entries (n : lpmTrieNode V) : Z :=
  Z.of_nat (length (entries n)).

(** Along every path the prefix length grows strictly from a node to its
    child. *)
Definition prefixLen_of (n : lpmTrieNode V) : option Z :=
  match n with nilNode => None | Node k _ _ _ _ => Some (PrefixLen k) end.

Definition longer_than (p : Z) (n : lpmTrieNode V) : bool :=
  match prefixLen_of n with None => true | Some q => p <? q end.

Fixpoint increasing (n : lpmTrieNode V) : bool :=
  match n with
  | nilNode => true
  | Node k c0 c1 _ _ =>
      longer_than (PrefixLen k) c0 && longer_than (PrefixLen k) c1
      && increasing c0 && increasing c1
  end.

(** *** Update, case by case

    [Update_rel mpl key val n n' updated replaced]: run on the subtree held
    in a slot, [Update] leaves [n'] in that slot and returns [updated];
    [replaced] tells that an entry was overwritten (the counter is put
    back). *)
Inductive Update_rel (mpl : Z) (key : Key) (val : option V)
  : lpmTrieNode V -> lpmTrieNode V -> bool -> bool -> Prop :=
| UR_empty :
    Update_rel mpl key val nilNode (newLpmTrieNode key val) false false
| UR_replace nk c0 c1 v im :
    PrefixLen nk = lpm_bitwise nk key ->
    PrefixLen nk = PrefixLen key ->
    Update_rel mpl key val (Node nk c0 c1 v im) (Node key c0 c1 val false)
               true (negb im)
| UR_fork nk c0 c1 v im :
    PrefixLen nk <> lpm_bitwise nk key ->
    Update_rel mpl key val (Node nk c0 c1 v im)
      (let m := lpm_bitwise nk key in
       let imkey := mkKey m (Data key) in
       if negb (kbit (Data key) m =? 0)
       then Node imkey (Node nk c0 c1 v im) (newLpmTrieNode key val) None true
       else Node imkey (newLpmTrieNode key val) (Node nk c0 c1 v im) None true)
      false false
| UR_descend nk c0 c1 v im c' u r :
    PrefixLen nk = lpm_bitwise nk key ->
    PrefixLen nk <> PrefixLen key ->
    PrefixLen nk <> mpl ->
    Update_rel mpl key val
      (child (Node nk c0 c1 v im) (kbit (Data key) (PrefixLen nk))) c' u r ->
    Update_rel mpl key val (Node nk c0 c1 v im)
      (set_child (Node nk c0 c1 v im) (kbit (Data key) (PrefixLen nk)) c') u r.

(** *** Delete, case by case

    What [Delete] does to the slot holding [n]: nothing, a new occupant, or
    (for a leaf under an intermediate parent) the collapse of the parent,
    whose slot takes the sibling. *)
Inductive del_outcome : Type :=
| DUnchanged
| DReplaced (n' : lpmTrieNode V)
| DCollapse.

Definition sibling (parent : lpmTrieNode V) (b : Z) : lpmTrieNode V :=
  if b =? 0 then child parent 1 else child parent 0.

Definition lift_outcome (n : lpmTrieNode V) (b : Z) (o : del_outcome)
  : del_outcome :=
  match o with
  | DUnchanged => DUnchanged
  | DReplaced c' => DReplaced (set_child n b c')
  | DCollapse => DReplaced (sibling n b)
  end.

(** [Delete_rel key pim n o]: [pim] tells that [n] has a parent and that
    the parent is intermediate. *)
Inductive Delete_rel (key : Key)
  : bool -> lpmTrieNode V -> del_outcome -> Prop :=
| DR_empty pim : Delete_rel key pim nilNode DUnchanged
| DR_reject pim nk c0 c1 v im :
    PrefixLen nk <> lpm_bitwise nk key
    \/ (PrefixLen nk = PrefixLen key /\ im = true) ->
    Delete_rel key pim (Node nk c0 c1 v im) DUnchanged
| DR_mark pim nk c0 c1 v :
    PrefixLen nk = lpm_bitwise nk key -> PrefixLen nk = PrefixLen key ->
    c0 <> nilNode -> c1 <> nilNode ->
    Delete_rel key pim (Node nk c0 c1 v false)
               (DReplaced (Node nk c0 c1 None true))
| DR_collapse nk v :
    PrefixLen nk = lpm_bitwise nk key -> PrefixLen nk = PrefixLen key ->
    Delete_rel key true (Node nk nilNode nilNode v false) DCollapse
| DR_splice pim nk c0 c1 v :
    PrefixLen nk = lpm_bitwise nk key -> PrefixLen nk = PrefixLen key ->
    c0 = nilNode \/ c1 = nilNode ->
    pim = false \/ c0 <> nilNode \/ c1 <> nilNode ->
    Delete_rel key pim (Node nk c0 c1 v false)
               (DReplaced (if is_nil c0 then c1 else c0))
| DR_descend pim nk c0 c1 v im o :
    PrefixLen nk = lpm_bitwise nk key ->
    PrefixLen nk <> PrefixLen key ->
    Delete_rel key im
      (child (Node nk c0 c1 v im) (kbit (Data key) (PrefixLen nk))) o ->
    Delete_rel key pim (Node nk c0 c1 v im)
      (lift_outcome (Node nk c0 c1 v im) (kbit (Data key) (PrefixLen nk)) o).

(** The trie after [Delete] ran with the given slots and outcome. *)
Definition apply_outcome (t : lpmTrie V) (parent : lpmTrieNode V)
           (trim2 trim : slot) (o : del_outcome) : lpmTrie V * bool :=
  let t' := set_size t (AddInt64 (size t) (-1)) in
  match o with
  | DUnchanged => (t, false)
  | DReplaced x => (set_root t' (storePointer (root t) trim x), true)
  | DCollapse =>
      (set_root t' (storePointer (root t) trim2
                      (sibling parent (last trim 0))), true)
  end.
End TrieSpec.

(** What every trie reachable from [New] satisfies. *)
Definition Inv (V : Type) (t : lpmTrie V) : Prop :=
  cfg_ok t /\ shape t (root t) /\ im_two (root t)
  /\ size t = wrap64 (count_entries (root t)).

(** Every key of the sequence passes [checkKey]. *)
Definition valid_ops (V : Type) (t : lpmTrie V) (ops : list (op V)) : Prop :=
  Forall (fun o => isValidKey t (op_key o) = true) ops.

(** The test that [Delete] makes on what its descent returns: the node
    exists, its prefix length equals the key's and [matchlen], and it is not
    intermediate. *)
Definition Delete_accepts (V : Type) (key : Key)
           (r : lpmTrieNode V * slot * slot * lpmTrieNode V * Z) : bool :=
  let '(_, _, _, node, matchlen) := r in
  match node with
  | nilNode => false
  | Node nk _ _ _ im =>
      (PrefixLen nk =? PrefixLen key) && (PrefixLen nk =? matchlen) && negb im
  end.

Definition key4 (p : Z) (a b c d : byte) : Key := mkKey p (b4 a b c d).

(** A 32-bit trie as [New] returns it. *)
Definition empty32 (V : Type) : lpmTrie V := mkTrie nilNode 0 32 4.

(** Sample runs on a 32-bit trie. *)
Definition kA : Key := key4 32 xa0 x00 x00 x00.
Definition kB : Key := key4 32 x20 x00 x00 x00.
Definition k0 : Key := key4 0 x00 x00 x00 x00.

Definition ops_AB : list (op Z) := [OpUpdate kA (Some 1); OpUpdate kB (Some 2)].

Definition ops_ABA : list (op Z) :=
  [OpUpdate kA (Some 1); OpUpdate kB (Some 2); OpDelete kA; OpUpdate kA (Some 3)].

(** The trie after [ops_AB]: an intermediate root of prefix length 0 over
    the two entries. *)
Definition trie_AB : lpmTrie Z :=
  mkTrie (Node (mkKey 0 (Data kB))
               (Node kB nilNode nilNode (Some 2) false)
               (Node kA nilNode nilNode (Some 1) false)
               None true)
         2 32 4.

(** ** Range: what the visitor sees *)

Section Visit.
Variables (V A : Type).
Variable fn : Key -> option V -> A -> A * bool.

(** Call [fn] on the entries of [es] from left to right, stopping after the
    first call that returns [false]. *)
Fixpoint visit (es : list (Key * option V)) (a : A) : A * bool :=
  match es with
  | [] => (a, false)
  | (k, v) :: es' =>
      let '(a', continue) := fn k v a in
      if negb continue then (a', true) else visit es' a'
  end.

(** The entries of [es] on which [visit] calls [fn]. *)
Fixpoint visited (es : list (Key * option V)) (a : A) : list (Key * option V) :=
  match es with
  | [] => []
  | (k, v) :: es' =>
      (k, v) :: (let '(a', continue) := fn k v a in
                 if negb continue then [] else visited es' a')
  end.

(** The visitor instrumented to log each of its invocations. *)
Definition logged (k : Key) (v : option V) (al : A * list (Key * option V))
  : (A * list (Key * option V)) * bool :=
  let '(a', continue) := fn k v (fst al) in
  ((a', snd al ++ [(k, v)]), continue).
End Visit.

(** The invocations of the visitor during [Range], in order. *)
Definition Range_calls (V A : Type) (fn : Key -> option V -> A -> A * bool)
           (t : lpmTrie V) (a : A) : list (Key * option V) :=
  snd (Range (logged fn) t (a, [])).

(** *** Orders on keys *)

(** The significant bits of a key. *)
Definition key_bits (k : Key) : list bool :=
  firstn (Z.to_nat (PrefixLen k)) (bits_of (Data k)).

(** Lexicographic order on bit strings; a proper prefix comes first. *)
Fixpoint bits_le (l1 l2 : list bool) : bool :=
  match l1, l2 with
  | [], _ => true
  | _ :: _, [] => false
  | a :: l1', b :: l2' =>
      if Bool.eqb a b then bits_le l1' l2' else negb a
  end.

(** Ascending bitstring order of a sequence of keys, on their significant
    bits and on their whole buffers. *)
Definition ascending_bits (ks : list Key) : Prop :=
  Sorted (fun a b => bits_le (key_bits a) (key_bits b) = true) ks.

Definition ascending_data (ks : list Key) : Prop :=
  Sorted (fun a b => bits_le (bits_of (Data a)) (bits_of (Data b)) = true) ks.

(** The order of the in-order walk: [a] and [b] share their first [m] bits,
    after which [a], if it has a further significant bit, continues with 0
    and [b], if it has one, with 1.  A key thus comes after the keys that
    extend it with a 0 and before those that extend it with a 1. *)
Definition key_before (a b : Key) : Prop :=
  exists m, 0 <= m /\ m <= PrefixLen a /\ m <= PrefixLen b
            /\ prefix_agree (Data a) (Data b) m
            /\ (m < PrefixLen a -> kbit (Data a) m = 0)
            /\ (m < PrefixLen b -> kbit (Data b) m = 1)
            /\ (m < PrefixLen a \/ m < PrefixLen b).

(** [d] lies below the child [b] of a node with key [k]: it is longer,
    shares [k]'s prefix and continues with bit [b]. *)
Definition extends (k : Key) (b : Z) (d : Key) : Prop :=
  PrefixLen k < PrefixLen d
  /\ prefix_agree (Data k) (Data d) (PrefixLen k)
  /\ kbit (Data d) (PrefixLen k) = b.

(** The branching invariant of the trie. *)
Fixpoint branching (V : Type) (n : lpmTrieNode V) : Prop :=
  match n with
  | nilNode => True
  | Node k c0 c1 _ _ =>
      all_keys (extends k 0) c0 /\ all_keys (extends k 1) c1
      /\ branching c0 /\ branching c1
  end.

Definition k8 : Key := key4 8 x0a x00 x00 x00.
Definition k32 : Key := key4 32 x0a x00 x00 x01.

(** An entry above a longer one on its 0 side. *)
Definition ops_nested : list (op Z) := [OpUpdate k8 (Some 1); OpUpdate k32 (Some 2)].

Definition trie_nested : lpmTrie Z :=
  mkTrie (Node k8 (Node k32 nilNode nilNode (Some 2) false) nilNode (Some 1) false)
         2 32 4.

(** ** Longest prefix match, as a statement about the inserted keys *)

(** Two keys name the same prefix. *)
Definition key_equiv (a b : Key) : Prop :=
  PrefixLen a = PrefixLen b /\ prefix_agree (Data a) (Data b) (PrefixLen a).

(** The stored key [k] covers the query [q]: it is no longer than [q] and
    its first [PrefixLen k] bits are those of [q]. *)
Definition matches (k q : Key) : Prop :=
  PrefixLen k <= PrefixLen q /\ prefix_agree (Data k) (Data q) (PrefixLen k).

(** [k] is a proper prefix of [k']. *)
Definition proper_prefix (k k' : Key) : Prop :=
  PrefixLen k < PrefixLen k' /\ prefix_agree (Data k) (Data k') (PrefixLen k).

(** [(k, v)] is the last update of its key in [us]. *)
Definition current (V : Type) (us : list (Key * option V))
           (e : Key * option V) : Prop :=
  exists l1 l2, us = l1 ++ e :: l2
                /\ Forall (fun u => ~ key_equiv (fst u) (fst e)) l2.

(** Every key of the sequence that is a proper prefix of a key updated
    before it has itself been updated before: no prefix is inserted for the
    first time once a longer key that it covers is stored. *)
Fixpoint no_late_prefix_from (V : Type) (earlier : list Key)
         (us : list (Key * option V)) : Prop :=
  match us with
  | [] => True
  | u :: us' =>
      ((exists k', In k' earlier /\ key_equiv k' (fst u))
       \/ forall k', In k' earlier -> ~ proper_prefix (fst u) k')
      /\ no_late_prefix_from (fst u :: earlier) us'
  end.

Definition no_late_prefix (V : Type) (us : list (Key * option V)) : Prop :=
  no_late_prefix_from [] us.

Definition update_ops (V : Type) (us : list (Key * option V)) : list (op V) :=
  map (fun u => OpUpdate (fst u) (snd u)) us.

(** The key is stored below [n] already, or no key stored below [n]
    extends it. *)
Definition stored_or_new (V : Type) (key : Key) (n : lpmTrieNode V) : Prop :=
  (exists e, In e (entries n) /\ key_equiv (fst e) key)
  \/ forall e, In e (entries n) -> ~ proper_prefix key (fst e).

(** The trie [t] holds exactly the current updates of [us] and satisfies
    the invariants. *)
Definition tracks (V : Type) (us : list (Key * option V)) (t : lpmTrie V)
  : Prop :=
  Inv t /\ branching (root t)
  /\ forall e, In e (entries (root t)) <-> current us e.

(** Longest prefix match over the updates [us]: an inserted key qualifies
    when it is a bit-prefix of the query ([matches]); the answer is the
    current value of the qualifying key with the greatest prefix length,
    and [(nil, false)] when no inserted key qualifies. *)
Definition lpm_result (V : Type) (us : list (Key * option V)) (q : Key)
           (res : option V * bool) : Prop :=
  (exists k, current us (k, fst res) /\ snd res = true /\ matches k q
             /\ forall u, In u us -> matches (fst u) q ->
                          PrefixLen (fst u) <= PrefixLen k)
  \/ (res = (None, false) /\ forall u, In u us -> ~ matches (fst u) q).

(** A key inserted after a longer key that it is a prefix of. *)
Definition ops_slip : list (op Z) := [OpUpdate k32 (Some 1); OpUpdate k8 (Some 2)].

Definition trie_k32 : lpmTrie Z :=
  mkTrie (Node k32 nilNode nilNode (Some 1) false) 1 32 4.

Definition trie_slip : lpmTrie Z :=
  mkTrie (Node (mkKey 8 (Data k8))
               (Node k8 nilNode nilNode (Some 2) false)
               (Node k32 nilNode nilNode (Some 1) false)
               None true)
         2 32 4.

(** A run in which every [Update] finds its key stored or extended by no
    stored key. *)
Fixpoint safe_ops (V : Type) (t : lpmTrie V) (ops : list (op V)) : Prop :=
  match ops with
  | [] => True
  | o :: ops' =>
      match o with
      | OpUpdate k _ => stored_or_new k (root t)
      | OpDelete _ => True
      end
      /\ match apply_op t o with
         | Ok t' => safe_ops t' ops'
         | Panic => True
         end
  end.

(** ** Further invariants *)

(** A node whose prefix length is the maximal one has no children. *)
Fixpoint full_leaf (V : Type) (mpl : Z) (n : lpmTrieNode V) : Prop :=
  match n with
  | nilNode => True
  | Node k c0 c1 _ _ =>
      (PrefixLen k = mpl -> c0 = nilNode /\ c1 = nilNode)
      /\ full_leaf mpl c0 /\ full_leaf mpl c1
  end.

(** Every key of the run has the maximal prefix length. *)
Definition full_ops (V : Type) (t : lpmTrie V) (ops : list (op V)) : Prop :=
  Forall (fun o => PrefixLen (op_key o) = maxPrefixLen t) ops.

(** [Lookup]'s answer is the longest match among the entries [es]. *)
Definition lpm_among (V : Type) (es : list (Key * option V)) (q : Key)
           (res : option V * bool) : Prop :=
  (exists k v, In (k, v) es /\ matches k q /\ res = (v, true)
               /\ forall e, In e es -> matches (fst e) q ->
                            PrefixLen (fst e) <= PrefixLen k)
  \/ (res = (None, false) /\ forall e, In e es -> ~ matches (fst e) q).

(** A key with the prefix of [k] is among the entries [es]. *)
Definition stored (V : Type) (k : Key) (es : list (Key * option V)) : Prop :=
  exists e, In e es /\ key_equiv (fst e) k.


(** ** The bindings a run leaves *)

(** No write of [ops] names the prefix of [e]. *)
Definition untouched (V : Type) (ops : list (op V)) (e : Key * option V)
  : Prop :=
  Forall (fun o => ~ key_equiv (op_key o) (fst e)) ops.

(** [e] was bound by an [Update] of [ops] after which no write names its
    prefix. *)
Fixpoint live (V : Type) (ops : list (op V)) (e : Key * option V) : Prop :=
  match ops with
  | [] => False
  | o :: ops' =>
      (o = OpUpdate (fst e) (snd e) /\ untouched ops' e) \/ live ops' e
  end.


(** A run that leaves an intermediate node below the root: the entries
    160.0.0.0/32 and 128.0.0.0/32 fork at bit 2, in child 1 of the root. *)
Definition kC : Key := key4 32 x80 x00 x00 x00.

(** The prefix 10/2 of that fork. *)
Definition kP : Key := key4 2 x80 x00 x00 x00.

Definition ops_ABC : list (op Z) :=
  [OpUpdate kA (Some 1); OpUpdate kB (Some 2); OpUpdate kC (Some 3)].

Definition trie_ABC : lpmTrie Z :=
  mkTrie (Node (mkKey 0 (Data kB))
               (Node kB nilNode nilNode (Some 2) false)
               (Node (mkKey 2 (Data kC))
                     (Node kC nilNode nilNode (Some 3) false)
                     (Node kA nilNode nilNode (Some 1) false)
                     None true)
               None true)
         3 32 4.


(* ================================================================= *)
(** * Properties *)

Example lpm_t1 :
  lpm_chunks 4 (b4 x80 x00 x00 x00) (b4 x81 x00 x00 x00) 32 = Ok 7.
Proof. reflexivity. Qed.

Example lpm_t2 :
  lpm_chunks 4 (b4 x00 x00 x00 x00) (b4 x00 x80 x00 x00) 32 = Ok 8.
Proof. vm_compute. reflexivity. Qed.

(** ** Bit-level facts *)

Lemma byte_val_range b : 0 <= byte_val b < 256.
Proof. unfold byte_val. pose proof (Byte.to_N_bounded b). lia. Qed.

Lemma min_eq a b : min a b = Z.min a b.
Proof. unfold min. destruct (Z.ltb_spec a b); lia. Qed.

Lemma testbit_small x m j :
  0 <= x < 2 ^ m -> 0 <= m <= j -> Z.testbit x j = false.
Proof.
  intros Hx Hj.
  destruct (Z.eq_dec x 0) as [->|Hn]; [apply Z.bits_0|].
  apply Z.bits_above_log2; [lia|].
  assert (Z.log2 x < m) by (apply Z.log2_lt_pow2; lia). lia.
Qed.

Lemma testbit_top x w :
  0 <= w -> 0 <= x < 2 ^ (w + 1) ->
  (Z.testbit x w = true -> 2 ^ w <= x) /\
  (Z.testbit x w = false -> x < 2 ^ w).
Proof.
  intros Hw Hx. split; intros Hb.
  - destruct (Z_lt_ge_dec x (2 ^ w)) as [Hlt|]; [|lia].
    rewrite (testbit_small (m := w)) in Hb by lia. discriminate.
  - destruct (Z_lt_ge_dec x (2 ^ w)) as [|Hge]; [assumption|exfalso].
    assert (Hl : Z.log2 x = w).
    { apply Z.log2_unique; [lia|]. rewrite <- Z.add_1_r. lia. }
    assert (Z.testbit x (Z.log2 x) = true) by (apply Z.bit_log2; lia).
    congruence.
Qed.

Lemma first_diff_xor w x y :
  first_diff (bitsn w x) (bitsn w y) = leading_false (bitsn w (Z.lxor x y)).
Proof.
  induction w as [|w IH]; simpl; [reflexivity|].
  rewrite Z.lxor_spec, IH.
  destruct (Z.testbit x (Z.of_nat w)), (Z.testbit y (Z.of_nat w)); reflexivity.
Qed.

Lemma leading_false_len w d :
  0 <= d < 2 ^ Z.of_nat w ->
  leading_false (bitsn w d) = Z.of_nat w - bits_Len d.
Proof.
  induction w as [|w IH]; intros Hd.
  - simpl in *. assert (d = 0) by lia. subst. reflexivity.
  - cbn [bitsn leading_false].
    rewrite Nat2Z.inj_succ, <- Z.add_1_r in Hd.
    destruct (testbit_top (x := d) (w := Z.of_nat w)) as [Ht Hf]; [lia|lia|].
    destruct (Z.testbit d (Z.of_nat w)) eqn:E.
    + specialize (Ht eq_refl). unfold bits_Len.
      destruct (Z.eqb_spec d 0); [lia|].
      rewrite (Z.log2_unique d (Z.of_nat w)); lia.
    + specialize (Hf eq_refl). rewrite IH by lia. lia.
Qed.

Lemma bits_Len_range w d :
  0 <= d < 2 ^ Z.of_nat w -> 0 <= bits_Len d <= Z.of_nat w.
Proof.
  intros Hd. unfold bits_Len. destruct (Z.eqb_spec d 0); [lia|].
  assert (Z.log2 d < Z.of_nat w) by (apply Z.log2_lt_pow2; lia).
  pose proof (Z.log2_nonneg d). lia.
Qed.

Lemma bits_Len_zero d : 0 <= d -> (bits_Len d = 0 <-> d = 0).
Proof.
  intros Hd. unfold bits_Len. destruct (Z.eqb_spec d 0); [tauto|].
  pose proof (Z.log2_nonneg d). lia.
Qed.

Lemma bitsn_ext w x y :
  (forall j, 0 <= j < Z.of_nat w -> Z.testbit x j = Z.testbit y j) ->
  bitsn w x = bitsn w y.
Proof.
  induction w as [|w IH]; intros H; simpl; [reflexivity|].
  rewrite H by lia. f_equal. apply IH. intros j Hj. apply H. lia.
Qed.

Lemma bitsn_length w x : length (bitsn w x) = w.
Proof. induction w; simpl; congruence. Qed.

Lemma bitsn_lor_shiftl n k lo hi :
  0 <= lo < 2 ^ Z.of_nat k ->
  bitsn (n + k) (Z.lor lo (Z.shiftl hi (Z.of_nat k))) = bitsn n hi ++ bitsn k lo.
Proof.
  intros Hlo. induction n as [|n IH]; simpl.
  - apply bitsn_ext. intros j Hj.
    rewrite Z.lor_spec, Z.shiftl_spec_low by lia. apply orb_false_r.
  - rewrite IH. f_equal.
    rewrite Z.lor_spec, Z.shiftl_spec by lia.
    rewrite (testbit_small (x := lo) (m := Z.of_nat k)) by lia.
    simpl. f_equal. lia.
Qed.

Lemma lor_shiftl_range n k lo hi :
  0 <= n -> 0 <= k -> 0 <= lo < 2 ^ k -> 0 <= hi < 2 ^ n ->
  0 <= Z.lor lo (Z.shiftl hi k) < 2 ^ (n + k).
Proof.
  intros Hn Hk Hlo Hhi.
  assert (Hs : 0 <= Z.shiftl hi k) by (apply Z.shiftl_nonneg; lia).
  split; [apply Z.lor_nonneg; lia|].
  rewrite <- Z.lxor_lor, <- Z.add_nocarry_lxor.
  - rewrite Z.shiftl_mul_pow2, Z.pow_add_r by lia. nia.
  - apply Z.bits_inj'. intros j Hj. rewrite Z.land_spec, Z.bits_0.
    destruct (Z_lt_ge_dec j k).
    + rewrite Z.shiftl_spec_low by lia. apply andb_false_r.
    + rewrite (testbit_small (x := lo) (m := k)) by lia. reflexivity.
  - apply Z.bits_inj'. intros j Hj. rewrite Z.land_spec, Z.bits_0.
    destruct (Z_lt_ge_dec j k).
    + rewrite Z.shiftl_spec_low by lia. apply andb_false_r.
    + rewrite (testbit_small (x := lo) (m := k)) by lia. reflexivity.
Qed.

Lemma below_pow2 x w :
  0 <= w -> 0 <= x -> (forall j, w <= j -> Z.testbit x j = false) -> x < 2 ^ w.
Proof.
  intros Hw Hx H.
  destruct (Z_lt_ge_dec x (2 ^ w)) as [|Hge]; [assumption|exfalso].
  assert (0 < x) by (pose proof (Z.pow_pos_nonneg 2 w); lia).
  assert (w <= Z.log2 x) by (apply Z.log2_le_pow2; lia).
  assert (Z.testbit x (Z.log2 x) = true) by (apply Z.bit_log2; lia).
  rewrite H in * by lia. discriminate.
Qed.

Lemma lxor_range w x y :
  0 <= w -> 0 <= x < 2 ^ w -> 0 <= y < 2 ^ w -> 0 <= Z.lxor x y < 2 ^ w.
Proof.
  intros Hw Hx Hy. split; [apply Z.lxor_nonneg; lia|].
  apply below_pow2; [lia|apply Z.lxor_nonneg; lia|].
  intros j Hj. rewrite Z.lxor_spec.
  rewrite (testbit_small (x := x) (m := w)), (testbit_small (x := y) (m := w)) by lia.
  reflexivity.
Qed.

Lemma first_diff_range l1 l2 : 0 <= first_diff l1 l2 <= Z.of_nat (length l1).
Proof.
  revert l2. induction l1 as [|a l1 IH]; intros [|b l2]; cbn [first_diff length];
    try lia.
  destruct (Bool.eqb a b); [|lia]. specialize (IH l2). lia.
Qed.

Lemma first_diff_app a1 a2 b1 b2 :
  length a1 = length b1 ->
  first_diff (a1 ++ a2) (b1 ++ b2) =
  if first_diff a1 b1 =? Z.of_nat (length a1)
  then Z.of_nat (length a1) + first_diff a2 b2
  else first_diff a1 b1.
Proof.
  revert b1. induction a1 as [|a a1 IH]; intros [|b b1] Hl; try discriminate.
  - reflexivity.
  - cbn [app first_diff length]. injection Hl as Hl.
    destruct (Bool.eqb a b).
    + rewrite IH by assumption.
      pose proof (first_diff_range a1 b1).
      destruct (Z.eqb_spec (first_diff a1 b1) (Z.of_nat (length a1)));
        destruct (Z.eqb_spec (1 + first_diff a1 b1) (Z.of_nat (S (length a1))));
        lia.
    + destruct (Z.eqb_spec 0 (Z.of_nat (S (length a1)))); lia.
Qed.

Lemma bits_of_app a b : bits_of (a ++ b) = bits_of a ++ bits_of b.
Proof. unfold bits_of. apply flat_map_app. Qed.

Lemma bits_of_length a : length (bits_of a) = (8 * length a)%nat.
Proof.
  induction a as [|x a IH]; [reflexivity|].
  change (bits_of (x :: a)) with (bitsn 8 (byte_val x) ++ bits_of a).
  rewrite length_app, bitsn_length, IH. simpl. lia.
Qed.

Lemma chunk_step w x y ca cb ra rb limit p :
  0 <= x < 2 ^ Z.of_nat w -> 0 <= y < 2 ^ Z.of_nat w ->
  bitsn w x = bits_of ca -> bitsn w y = bits_of cb ->
  p <= limit ->
  let d := Z.lxor x y in
  let p' := p + (Z.of_nat w - bits_Len d) in
  (limit <= p' -> target limit p (ca ++ ra) (cb ++ rb) = limit) /\
  (p' < limit -> d <> 0 -> target limit p (ca ++ ra) (cb ++ rb) = p') /\
  (p' < limit -> d = 0 ->
   target limit p' ra rb = target limit p (ca ++ ra) (cb ++ rb)).
Proof.
  intros Hx Hy Ex Ey Hp d p'.
  assert (Hd : 0 <= d < 2 ^ Z.of_nat w) by (apply lxor_range; lia).
  assert (Hlz : first_diff (bits_of ca) (bits_of cb) = Z.of_nat w - bits_Len d).
  { rewrite <- Ex, <- Ey, first_diff_xor. apply leading_false_len, Hd. }
  assert (Hla : length (bits_of ca) = w) by (rewrite <- Ex; apply bitsn_length).
  assert (Hlb : length (bits_of cb) = w) by (rewrite <- Ey; apply bitsn_length).
  pose proof (bits_Len_range w Hd) as Hr.
  pose proof (bits_Len_zero (d := d)) as Hz.
  pose proof (first_diff_range (bits_of ra) (bits_of rb)) as Hrr.
  unfold target. rewrite !bits_of_app, first_diff_app by congruence.
  rewrite Hlz, Hla. subst p'.
  destruct (Z.eqb_spec (Z.of_nat w - bits_Len d) (Z.of_nat w)); repeat split; lia.
Qed.

Lemma be_Uint32_bits b0 b1 b2 b3 rest :
  exists v, be_Uint32 (b0 :: b1 :: b2 :: b3 :: rest) = Ok v /\
            0 <= v < 2 ^ Z.of_nat 32 /\
            bitsn 32 v = bits_of [b0; b1; b2; b3].
Proof.
  eexists. split; [reflexivity|].
  pose proof (byte_val_range b0). pose proof (byte_val_range b1).
  pose proof (byte_val_range b2). pose proof (byte_val_range b3).
  assert (H16 : 0 <= Z.lor (byte_val b3) (Z.shiftl (byte_val b2) 8) < 2 ^ 16).
  { apply (lor_shiftl_range (n := 8) (k := 8)); lia. }
  assert (H24 : 0 <= Z.lor (Z.lor (byte_val b3) (Z.shiftl (byte_val b2) 8))
                          (Z.shiftl (byte_val b1) 16) < 2 ^ 24).
  { apply (lor_shiftl_range (n := 8) (k := 16)); lia. }
  split.
  - apply (lor_shiftl_range (n := 8) (k := 24)); lia.
  - change 24 with (Z.of_nat 24). change 16 with (Z.of_nat 16).
    change 8 with (Z.of_nat 8).
    rewrite (bitsn_lor_shiftl 8 24) by (simpl Z.of_nat; lia).
    rewrite (bitsn_lor_shiftl 8 16) by (simpl Z.of_nat; lia).
    rewrite (bitsn_lor_shiftl 8 8) by (simpl Z.of_nat; lia).
    unfold bits_of. cbn [flat_map]. rewrite app_nil_r. reflexivity.
Qed.

Lemma be_Uint16_bits b0 b1 rest :
  exists v, be_Uint16 (b0 :: b1 :: rest) = Ok v /\
            0 <= v < 2 ^ Z.of_nat 16 /\
            bitsn 16 v = bits_of [b0; b1].
Proof.
  eexists. split; [reflexivity|].
  pose proof (byte_val_range b0). pose proof (byte_val_range b1).
  split.
  - apply (lor_shiftl_range (n := 8) (k := 8)); lia.
  - change 8 with (Z.of_nat 8).
    rewrite (bitsn_lor_shiftl 8 8) by (simpl Z.of_nat; lia).
    unfold bits_of. cbn [flat_map]. rewrite app_nil_r. reflexivity.
Qed.

Lemma slice_app pa c r :
  slice (pa ++ c ++ r) (Z.of_nat (length pa))
        (Z.of_nat (length pa) + Z.of_nat (length c)) = Ok c.
Proof.
  unfold slice. rewrite !length_app.
  destruct (Z.ltb_spec (Z.of_nat (length pa)) 0); [lia|].
  destruct (Z.ltb_spec (Z.of_nat (length pa) + Z.of_nat (length c))
                       (Z.of_nat (length pa))); [lia|].
  destruct (Z.ltb_spec (Z.of_nat (length pa + (length c + length r)))
                       (Z.of_nat (length pa) + Z.of_nat (length c))); [lia|].
  cbn [orb]. f_equal.
  replace (Z.to_nat (Z.of_nat (length pa) + Z.of_nat (length c) - Z.of_nat (length pa)))
    with (length c) by lia.
  rewrite Nat2Z.id, skipn_app, skipn_all, Nat.sub_diag. cbn [skipn app].
  rewrite firstn_app, firstn_all, Nat.sub_diag. cbn [firstn]. apply app_nil_r.
Qed.

Lemma index_app pa b r :
  index (pa ++ b :: r) (Z.of_nat (length pa)) = Ok (byte_val b).
Proof.
  unfold index. rewrite length_app. cbn [length].
  destruct (Z.ltb_spec (Z.of_nat (length pa)) 0); [lia|].
  destruct (Z.leb_spec (Z.of_nat (length pa + S (length r)))
                       (Z.of_nat (length pa))); [lia|].
  cbn [orb]. rewrite Nat2Z.id, nth_error_app2, Nat.sub_diag by lia. reflexivity.
Qed.

(** ** The chunked routine against the bit-by-bit reference *)

Section ChunksCorrect.
Variables (nd kd : list byte) (limit ks : Z).
Hypothesis Hks : ks = Z.of_nat (length nd).

Lemma read_upto_length i ra rb :
  read_upto nd kd i ra rb -> ks = i + Z.of_nat (length ra).
Proof.
  intros (pa & pb & -> & _ & -> & _ & _). subst ks.
  rewrite length_app. lia.
Qed.

Lemma read_upto_next i c1 c2 ra rb :
  length c1 = length c2 ->
  read_upto nd kd i (c1 ++ ra) (c2 ++ rb) ->
  read_upto nd kd (i + Z.of_nat (length c1)) ra rb /\
  slice nd i (i + Z.of_nat (length c1)) = Ok c1 /\
  slice kd i (i + Z.of_nat (length c1)) = Ok c2.
Proof.
  intros Hc (pa & pb & Ea & Eb & -> & Hl & Hr).
  rewrite !length_app in Hr.
  split; [|split].
  - exists (pa ++ c1), (pb ++ c2). rewrite <- !app_assoc, !length_app.
    repeat split; try assumption; lia.
  - rewrite Ea. apply slice_app.
  - rewrite Eb, Hc, Hl. apply slice_app.
Qed.

Lemma lpm_loop32_spec n : forall ra rb p i,
  (length ra <= n)%nat -> read_upto nd kd i ra rb -> p <= limit ->
  exists f, lpm_loop32 ks nd kd limit p i = Ok f /\
    match f with
    | Return r => r = target limit p ra rb
    | Fall p' i' =>
        exists ra' rb', read_upto nd kd i' ra' rb' /\ (length ra' < 4)%nat /\
                        p' <= limit /\
                        target limit p' ra' rb' = target limit p ra rb
    end.
Proof.
  induction n as [|n IH]; intros ra rb p i Hn Hs Hp;
    pose proof (read_upto_length Hs) as Hk;
    rewrite lpm_loop32_equation_1;
    destruct (Z_ge_dec ks (i + 4)) as [Hge|Hlt]; cbn [lpm_loop32_unfold_clause_1].
  - lia.
  - eexists. split; [reflexivity|]. exists ra, rb. repeat split; auto; lia.
  - assert (Hrb : length ra = length rb) by (destruct Hs as (? & ? & ?); tauto).
    destruct ra as [|a0 [|a1 [|a2 [|a3 ra]]]]; cbn [length] in *; try lia.
    destruct rb as [|c0 [|c1 [|c2 [|c3 rb]]]]; cbn [length] in *; try lia.
    destruct (read_upto_next [a0; a1; a2; a3] [c0; c1; c2; c3] ra rb eq_refl Hs)
      as (Hs' & Sa & Sb).
    cbn [length Z.of_nat Pos.of_succ_nat Pos.succ] in Hs', Sa, Sb.
    rewrite Sa. cbn [bind].
    destruct (be_Uint32_bits a0 a1 a2 a3 []) as (x & -> & Hx & Bx). cbn [bind].
    rewrite Sb. cbn [bind].
    destruct (be_Uint32_bits c0 c1 c2 c3 []) as (y & -> & Hy & By). cbn [bind].
    destruct (@chunk_step 32 x y [a0; a1; a2; a3] [c0; c1; c2; c3]
                ra rb limit p Hx Hy Bx By Hp) as (T1 & T2 & T3).
    cbn zeta in *. unfold LeadingZeros32.
    change (Z.of_nat 32) with 32 in *.
    destruct (Z.geb_spec (p + (32 - bits_Len (Z.lxor x y))) limit).
    + eexists. split; [reflexivity|]. symmetry. apply T1. lia.
    + destruct (Z.eqb_spec (Z.lxor x y) 0) as [E0|N0]; cbn [negb].
      * destruct (IH ra rb (p + (32 - bits_Len (Z.lxor x y))) (i + 4))
          as (f & Ef & Hf); [lia|assumption|lia|].
        exists f. split; [assumption|].
        destruct f as [r|p' i'].
        -- rewrite Hf. apply T3; assumption.
        -- destruct Hf as (ra' & rb' & ? & ? & ? & Ht).
           exists ra', rb'. repeat split; try assumption.
           rewrite Ht. apply T3; assumption.
      * eexists. split; [reflexivity|]. symmetry. apply T2; assumption.
  - eexists. split; [reflexivity|]. exists ra, rb. repeat split; auto; lia.
Qed.

Lemma lpm_step16_spec ra rb p i :
  (length ra < 4)%nat -> read_upto nd kd i ra rb -> p <= limit ->
  exists f, lpm_step16 ks nd kd limit p i = Ok f /\
    match f with
    | Return r => r = target limit p ra rb
    | Fall p' i' =>
        exists ra' rb', read_upto nd kd i' ra' rb' /\ (length ra' < 2)%nat /\
                        p' <= limit /\
                        target limit p' ra' rb' = target limit p ra rb
    end.
Proof.
  intros Hn Hs Hp. pose proof (read_upto_length Hs) as Hk.
  unfold lpm_step16. destruct (Z.geb_spec ks (i + 2)) as [Hge|Hlt].
  - assert (Hrb : length ra = length rb) by (destruct Hs as (? & ? & ?); tauto).
    destruct ra as [|a0 [|a1 ra]]; cbn [length] in *; try lia.
    destruct rb as [|c0 [|c1 rb]]; cbn [length] in *; try lia.
    destruct (read_upto_next [a0; a1] [c0; c1] ra rb eq_refl Hs)
      as (Hs' & Sa & Sb).
    cbn [length Z.of_nat Pos.of_succ_nat Pos.succ] in Hs', Sa, Sb.
    rewrite Sa. cbn [bind].
    destruct (be_Uint16_bits a0 a1 []) as (x & -> & Hx & Bx). cbn [bind].
    rewrite Sb. cbn [bind].
    destruct (be_Uint16_bits c0 c1 []) as (y & -> & Hy & By). cbn [bind].
    destruct (@chunk_step 16 x y [a0; a1] [c0; c1]
                ra rb limit p Hx Hy Bx By Hp) as (T1 & T2 & T3).
    cbn zeta in *. unfold LeadingZeros16.
    change (Z.of_nat 16) with 16 in *.
    destruct (Z.geb_spec (p + (16 - bits_Len (Z.lxor x y))) limit).
    + eexists. split; [reflexivity|]. symmetry. apply T1. lia.
    + destruct (Z.eqb_spec (Z.lxor x y) 0) as [E0|N0]; cbn [negb].
      * eexists. split; [reflexivity|]. exists ra, rb.
        repeat split; try assumption; try lia. apply T3; assumption.
      * eexists. split; [reflexivity|]. symmetry. apply T2; assumption.
  - eexists. split; [reflexivity|]. exists ra, rb. repeat split; auto; lia.
Qed.

Lemma lpm_step8_spec ra rb p i :
  (length ra < 2)%nat -> read_upto nd kd i ra rb -> p <= limit ->
  lpm_step8 ks nd kd limit p i = Ok (target limit p ra rb).
Proof.
  intros Hn Hs Hp. pose proof (read_upto_length Hs) as Hk.
  assert (Hrb : length ra = length rb) by (destruct Hs as (? & ? & ?); tauto).
  unfold lpm_step8. destruct (Z.geb_spec ks (i + 1)) as [Hge|Hlt].
  - destruct ra as [|a0 ra]; cbn [length] in *; try lia.
    destruct rb as [|c0 rb]; cbn [length] in *; try lia.
    destruct ra; cbn [length] in *; try lia.
    destruct rb; cbn [length] in *; try lia.
    destruct Hs as (pa & pb & Ea & Eb & -> & Hl & _).
    rewrite Ea, index_app. cbn [bind]. rewrite Eb, Hl, index_app. cbn [bind].
    pose proof (byte_val_range a0) as Hx. pose proof (byte_val_range c0) as Hy.
    destruct (@chunk_step 8 (byte_val a0) (byte_val c0) [a0] [c0] [] []
                limit p)
      as (T1 & T2 & T3); try assumption;
      try (unfold bits_of; cbn [flat_map]; rewrite app_nil_r; reflexivity).
    cbn zeta in *. unfold LeadingZeros8. change (Z.of_nat 8) with 8 in *.
    cbn [app] in *.
    destruct (Z.geb_spec (p + (8 - bits_Len (Z.lxor (byte_val a0) (byte_val c0)))) limit).
    + f_equal. symmetry. apply T1. lia.
    + f_equal. symmetry.
      destruct (Z.eq_dec (Z.lxor (byte_val a0) (byte_val c0)) 0) as [E0|N0].
      * rewrite <- T3 by assumption. unfold target.
        change (first_diff (bits_of []) (bits_of [])) with 0. lia.
      * apply T2; assumption.
  - destruct ra; cbn [length] in *; [|lia].
    destruct rb; cbn [length] in *; [|lia].
    unfold target. change (first_diff (bits_of []) (bits_of [])) with 0.
    f_equal. lia.
Qed.

Lemma lpm_chunks_spec :
  length nd = length kd -> 0 <= limit ->
  lpm_chunks ks nd kd limit = Ok (Z.min limit (first_diff (bits_of nd) (bits_of kd))).
Proof.
  intros Hl Hlim. unfold lpm_chunks.
  change (Z.min limit (first_diff (bits_of nd) (bits_of kd)))
    with (target limit 0 nd kd).
  assert (Hs : read_upto nd kd 0 nd kd) by (exists [], []; repeat split; auto).
  destruct (lpm_loop32_spec (n := length nd) (ra := nd) (rb := kd) (p := 0) (i := 0))
    as (f & -> & Hf); [lia|assumption|assumption|].
  cbn [bind]. destruct f as [r|p i]; [subst r; reflexivity|].
  destruct Hf as (ra & rb & Hs1 & Hn1 & Hp1 & <-).
  destruct (lpm_step16_spec Hn1 Hs1 Hp1) as (g & -> & Hg).
  cbn [bind]. destruct g as [r|p' i']; [subst r; reflexivity|].
  destruct Hg as (ra' & rb' & Hs2 & Hn2 & Hp2 & <-).
  apply lpm_step8_spec; assumption.
Qed.
End ChunksCorrect.

(** ** [extractBit] and [longestPrefixMatch] in terms of single bits *)

Lemma land_shiftr_1 v s : 0 <= s -> Z.land (Z.shiftr v s) 1 = Z.b2z (Z.testbit v s).
Proof.
  intros Hs. change 1 with (Z.ones 1). rewrite Z.land_ones by lia.
  change (2 ^ 1) with 2. rewrite <- Z.bit0_mod, Z.shiftr_spec by lia.
  reflexivity.
Qed.

Lemma extractBit_spec data : forall i,
  0 <= i < 8 * Z.of_nat (length data) -> extractBit data i = Ok (kbit data i).
Proof.
  induction data as [|x data IH]; intros i Hi; cbn [length] in Hi; [lia|].
  unfold extractBit, kbit.
  change (bits_of (x :: data)) with (bitsn 8 (byte_val x) ++ bits_of data).
  rewrite Z.quot_div_nonneg, Z.rem_mod_nonneg by lia.
  destruct (Z_lt_ge_dec i 8) as [Hlt|Hge].
  - rewrite Z.div_small, Z.mod_small by lia.
    change (index (x :: data) 0) with (Ok (byte_val x)). cbn [bind].
    rewrite land_shiftr_1 by lia. do 2 f_equal.
    rewrite app_nth1 by (rewrite bitsn_length; lia).
    assert (Hc : i = 0 \/ i = 1 \/ i = 2 \/ i = 3 \/ i = 4 \/ i = 5 \/ i = 6 \/ i = 7)
      by lia.
    destruct Hc as [->|[->|[->|[->|[->|[->|[->| ->]]]]]]]; reflexivity.
  - specialize (IH (i - 8) ltac:(lia)). unfold extractBit, kbit in IH.
    rewrite Z.quot_div_nonneg, Z.rem_mod_nonneg in IH by lia.
    replace (i / 8) with ((i - 8) / 8 + 1)
      by (replace i with ((i - 8) + 1 * 8) at 2 by lia;
          rewrite Z.div_add by lia; reflexivity).
    replace (i mod 8) with ((i - 8) mod 8)
      by (replace i with ((i - 8) + 1 * 8) at 2 by lia;
          rewrite Z.mod_add by lia; reflexivity).
    assert (Hq : 0 <= (i - 8) / 8 < Z.of_nat (length data)).
    { split; [apply Z.div_pos; lia|apply Z.div_lt_upper_bound; lia]. }
    rewrite app_nth2 by (rewrite bitsn_length; lia).
    rewrite bitsn_length.
    replace (Z.to_nat i - 8)%nat with (Z.to_nat (i - 8)) by lia.
    rewrite <- IH. f_equal.
    unfold index. cbn [length].
    destruct (Z.ltb_spec ((i - 8) / 8 + 1) 0); [lia|].
    destruct (Z.leb_spec (Z.of_nat (S (length data))) ((i - 8) / 8 + 1)); [lia|].
    destruct (Z.ltb_spec ((i - 8) / 8) 0); [lia|].
    destruct (Z.leb_spec (Z.of_nat (length data)) ((i - 8) / 8)); [lia|].
    cbn [orb].
    replace (Z.to_nat ((i - 8) / 8 + 1)) with (S (Z.to_nat ((i - 8) / 8))) by lia.
    reflexivity.
Qed.

Lemma kbit_01 data i : kbit data i = 0 \/ kbit data i = 1.
Proof. unfold kbit. destruct (nth _ _ _); auto. Qed.

Lemma first_diff_agree l1 : forall l2 i,
  0 <= i < first_diff l1 l2 ->
  nth (Z.to_nat i) l1 false = nth (Z.to_nat i) l2 false.
Proof.
  induction l1 as [|a l1 IH]; intros [|b l2] i Hi; cbn [first_diff] in Hi; try lia.
  destruct (Bool.eqb a b) eqn:E; [|lia]. apply eqb_prop in E. subst b.
  destruct (Z.to_nat i) as [|n] eqn:En; [reflexivity|]. cbn [nth].
  replace n with (Z.to_nat (i - 1)) by lia. apply IH. lia.
Qed.

Lemma first_diff_differ l1 : forall l2,
  length l1 = length l2 ->
  first_diff l1 l2 < Z.of_nat (length l1) ->
  nth (Z.to_nat (first_diff l1 l2)) l1 false
  <> nth (Z.to_nat (first_diff l1 l2)) l2 false.
Proof.
  induction l1 as [|a l1 IH]; intros [|b l2] Hl Hlt; try discriminate.
  cbn [first_diff length] in *. injection Hl as Hl.
  destruct (Bool.eqb a b) eqn:E.
  - pose proof (first_diff_range l1 l2).
    replace (Z.to_nat (1 + first_diff l1 l2))
      with (S (Z.to_nat (first_diff l1 l2))) by lia.
    cbn [nth]. apply IH; [assumption|lia].
  - cbn. intros ->. rewrite eqb_reflx in E. discriminate.
Qed.

Section KeyFacts.
Variables (ks mpl : Z).
Hypothesis Hmpl : mpl = 8 * ks.
Variables (a b : Key).
Hypothesis Ha : key_ok ks mpl a.
Hypothesis Hb : key_ok ks mpl b.

Lemma lpm_ok : longestPrefixMatch ks a b = Ok (lpm_bitwise a b).
Proof.
  destruct Ha as [Ha1 Ha2], Hb as [Hb1 Hb2].
  unfold longestPrefixMatch, lpm_bitwise.
  apply lpm_chunks_spec; [lia|lia|]. rewrite min_eq. lia.
Qed.

Lemma lpm_bitwise_range :
  0 <= lpm_bitwise a b /\ lpm_bitwise a b <= PrefixLen a
  /\ lpm_bitwise a b <= PrefixLen b.
Proof.
  destruct Ha as [Ha1 Ha2], Hb as [Hb1 Hb2].
  unfold lpm_bitwise. rewrite min_eq.
  pose proof (first_diff_range (bits_of (Data a)) (bits_of (Data b))). lia.
Qed.

Lemma lpm_bitwise_agree : prefix_agree (Data a) (Data b) (lpm_bitwise a b).
Proof.
  intros i Hi. unfold kbit. f_equal. apply first_diff_agree.
  unfold lpm_bitwise in Hi. lia.
Qed.

Lemma lpm_bitwise_differ :
  lpm_bitwise a b < PrefixLen a -> lpm_bitwise a b < PrefixLen b ->
  kbit (Data a) (lpm_bitwise a b) <> kbit (Data b) (lpm_bitwise a b).
Proof.
  destruct Ha as [Ha1 Ha2], Hb as [Hb1 Hb2].
  unfold lpm_bitwise. rewrite min_eq. intros H1 H2.
  assert (E : Z.min (Z.min (PrefixLen a) (PrefixLen b))
                    (first_diff (bits_of (Data a)) (bits_of (Data b)))
              = first_diff (bits_of (Data a)) (bits_of (Data b))) by lia.
  rewrite E in *. unfold kbit. intros Hk.
  apply (first_diff_differ (bits_of (Data a)) (bits_of (Data b))).
  - rewrite !bits_of_length. lia.
  - rewrite bits_of_length. lia.
  - destruct (nth _ (bits_of (Data a)) false), (nth _ (bits_of (Data b)) false);
      simpl in Hk; congruence.
Qed.

Lemma lpm_bitwise_max n :
  0 <= n -> n <= PrefixLen a -> n <= PrefixLen b ->
  prefix_agree (Data a) (Data b) n -> n <= lpm_bitwise a b.
Proof.
  intros Hn Hna Hnb Hag.
  destruct (Z_le_gt_dec n (lpm_bitwise a b)) as [|Hgt]; [assumption|exfalso].
  pose proof lpm_bitwise_range as (R0 & R1 & R2).
  apply lpm_bitwise_differ; try lia. apply Hag. lia.
Qed.
End KeyFacts.

(** C5: for keys whose buffers have [keySize] bytes and whose prefix
    lengths lie in [0, maxPrefixLen], the chunked [longestPrefixMatch]
    (32-bit loop, 16-bit step, 8-bit step) does not panic and returns the
    minimum of [limit] and the index of the first bit at which the two
    buffers differ, that is, the result of the bit-by-bit reference. *)
Theorem longestPrefixMatch_bitwise keySize maxPrefixLen node key :
  Z.of_nat (length (Data node)) = keySize ->
  Z.of_nat (length (Data key)) = keySize ->
  0 <= PrefixLen node <= maxPrefixLen ->
  0 <= PrefixLen key <= maxPrefixLen ->
  longestPrefixMatch keySize node key = Ok (lpm_bitwise node key).
Proof.
  intros Hn Hk Hpn Hpk.
  unfold longestPrefixMatch, lpm_bitwise.
  apply lpm_chunks_spec; [lia|lia|]. rewrite min_eq. lia.
Qed.

Lemma longestPrefixMatch_bitwise_witness :
  longestPrefixMatch 7 (mkKey 56 [x0a; x01; x02; x03; x04; x05; xf0])
                       (mkKey 50 [x0a; x01; x02; x03; x04; x05; xf8])
  = Ok (lpm_bitwise (mkKey 56 [x0a; x01; x02; x03; x04; x05; xf0])
                    (mkKey 50 [x0a; x01; x02; x03; x04; x05; xf8])).
Proof.
  apply (@longestPrefixMatch_bitwise 7 56); [reflexivity|reflexivity|simpl; lia|simpl; lia].
Defined.

(** ** Slots *)

Section SlotFacts.
Variable V : Type.
Implicit Types (r n x : lpmTrieNode V) (s : slot).

Lemma load_app s : forall r b,
  loadPointer r (s ++ [b]) = child (loadPointer r s) b.
Proof. induction s as [|a s IH]; intros r b; [reflexivity|]. simpl. apply IH. Qed.

Lemma store_app s : forall r b x,
  storePointer r (s ++ [b]) x
  = storePointer r s (set_child (loadPointer r s) b x).
Proof.
  induction s as [|a s IH]; intros r b x; [reflexivity|].
  simpl. rewrite IH. reflexivity.
Qed.

Lemma child_Node k (c0 c1 : lpmTrieNode V) v im b :
  child (Node k c0 c1 v im) b = if b =? 0 then c0 else c1.
Proof. reflexivity. Qed.
End SlotFacts.

(** ** The loops against the case-by-case relations *)

Section LoopFacts.
Variable V : Type.
Variable t : lpmTrie V.
Hypothesis Hcfg : cfg_ok t.
Variable key : Key.
Hypothesis Hkey : key_ok (keySize t) (maxPrefixLen t) key.

Lemma lpm_node nk :
  key_ok (keySize t) (maxPrefixLen t) nk ->
  longestPrefixMatch (keySize t) nk key = Ok (lpm_bitwise nk key).
Proof. intros Hn. exact (lpm_ok Hn Hkey). Qed.

Lemma extractBit_key i :
  0 <= i < maxPrefixLen t -> extractBit (Data key) i = Ok (kbit (Data key) i).
Proof.
  intros Hi. apply extractBit_spec.
  destruct Hcfg as [_ Hm]. destruct Hkey as [_ Hl]. lia.
Qed.

Lemma Update_loop_rel val (n : lpmTrieNode V) : forall s m0,
  shape t n -> loadPointer (root t) s = n ->
  exists n' u r,
    Update_rel (maxPrefixLen t) key val n n' u r /\
    (x <- Update_loop t key s n m0 ;; Update_finish t key val x)
    = Ok (set_root (if r then set_size t (AddInt64 (size t) (-1)) else t)
                   (storePointer (root t) s n'), u).
Proof.
  induction n as [|nk c0 IH0 c1 IH1 v im]; intros s m0 Hsh Hld.
  - exists (newLpmTrieNode key val), false, false. split; [constructor|reflexivity].
  - destruct Hsh as (Hnk & Hs0 & Hs1).
    pose proof (lpm_bitwise_range Hnk Hkey) as (R0 & R1 & R2).
    destruct Hnk as [Hnk1 Hnk2] eqn:En. destruct Hkey as [Hk1 Hk2] eqn:Ek.
    cbn [Update_loop]. rewrite lpm_node by assumption. cbn [bind].
    set (m := lpm_bitwise nk key) in *.
    destruct (Z.eqb_spec (PrefixLen nk) m) as [Em|Nm]; cbn [negb orb].
    + destruct (Z.eqb_spec (PrefixLen nk) (PrefixLen key)) as [Ep|Np]; cbn [orb].
      * exists (Node key c0 c1 val false), true, (negb im).
        split; [constructor; assumption|].
        cbn [bind Update_finish]. rewrite (proj2 (Z.eqb_eq _ _) Em).
        destruct im; reflexivity.
      * destruct (Z.eqb_spec (PrefixLen nk) (maxPrefixLen t)) as [Ex|Nx].
        -- lia.
        -- rewrite extractBit_key by lia. cbn [bind].
           set (b := kbit (Data key) (PrefixLen nk)).
           assert (Hc : shape t (if b =? 0 then c0 else c1))
             by (destruct (b =? 0); assumption).
           assert (Hl : loadPointer (root t) (s ++ [b]) = if b =? 0 then c0 else c1)
             by (rewrite load_app, Hld; reflexivity).
           assert (IH : exists n' u r,
                      Update_rel (maxPrefixLen t) key val
                                 (if b =? 0 then c0 else c1) n' u r /\
                      (x <- Update_loop t key (s ++ [b])
                              (if b =? 0 then c0 else c1) m ;;
                       Update_finish t key val x)
                      = Ok (set_root (if r then set_size t (AddInt64 (size t) (-1))
                                      else t)
                                     (storePointer (root t) (s ++ [b]) n'), u)).
           { destruct (b =? 0); [apply IH0|apply IH1]; assumption. }
           destruct IH as (n' & u & r & Hrel & Heq).
           exists (set_child (Node nk c0 c1 v im) b n'), u, r. split.
           ++ apply UR_descend; assumption.
           ++ rewrite Heq, store_app, Hld. reflexivity.
    + eexists _, false, false. split; [apply UR_fork; assumption|].
      cbn [bind Update_finish].
      rewrite (proj2 (Z.eqb_neq _ _) Nm).
      rewrite extractBit_key by (fold m; lia). cbn [bind].
      fold m. destruct (kbit (Data key) m =? 0); reflexivity.
Qed.

Lemma Delete_loop_rel (n : lpmTrieNode V) : forall parent trim2 trim m0,
  shape t n -> loadPointer (root t) trim = n ->
  exists o,
    Delete_rel key (isIm parent) n o /\
    (x <- Delete_loop t key parent trim2 trim n m0 ;; Ok (Delete_finish t key x))
    = Ok (apply_outcome t parent trim2 trim o).
Proof.
  induction n as [|nk c0 IH0 c1 IH1 v im]; intros parent trim2 trim m0 Hsh Hld.
  - exists (DUnchanged V). split; [constructor|reflexivity].
  - destruct Hsh as (Hnk & Hs0 & Hs1).
    pose proof (lpm_bitwise_range Hnk Hkey) as (R0 & R1 & R2).
    destruct Hnk as [Hnk1 Hnk2] eqn:En. destruct Hkey as [Hk1 Hk2] eqn:Ek.
    cbn [Delete_loop]. rewrite lpm_node by assumption. cbn [bind].
    set (m := lpm_bitwise nk key) in *.
    destruct (Z.eqb_spec (PrefixLen nk) m) as [Em|Nm]; cbn [negb orb].
    + destruct (Z.eqb_spec (PrefixLen nk) (PrefixLen key)) as [Ep|Np].
      * cbn [bind Delete_finish].
        rewrite (proj2 (Z.eqb_eq _ _) Em), (proj2 (Z.eqb_eq _ _) Ep).
        cbn [negb orb].
        destruct im.
        { exists (DUnchanged V). split; [|reflexivity].
          apply DR_reject. right. split; [assumption|reflexivity]. }
        destruct c0 as [|k0 a0 b0 v0 i0], c1 as [|k1 a1 b1 v1 i1];
          cbn [is_nil negb andb].
        -- destruct parent as [|pk p0 p1 pv [|]]; cbn [is_nil negb andb isIm].
           ++ exists (DReplaced (if is_nil (@nilNode V) then nilNode else nilNode)).
              split; [apply DR_splice; auto|reflexivity].
           ++ exists (DCollapse V). split; [apply DR_collapse; assumption|].
              unfold apply_outcome, sibling, is_child0.
              destruct (last trim 0 =? 0); reflexivity.
           ++ exists (DReplaced (if is_nil (@nilNode V) then nilNode else nilNode)).
              split; [apply DR_splice; auto|reflexivity].
        -- eexists (DReplaced (if is_nil (@nilNode V) then _ else nilNode)).
           split; [apply DR_splice; auto; right; right; discriminate|].
           rewrite !andb_false_r. reflexivity.
        -- eexists (DReplaced (if is_nil (Node k0 a0 b0 v0 i0) then nilNode else _)).
           split; [apply DR_splice; auto; right; left; discriminate|].
           rewrite !andb_false_r. reflexivity.
        -- eexists. split; [apply DR_mark; auto; discriminate|reflexivity].
      * cbn [orb]. rewrite extractBit_key by lia. cbn [bind].
        set (b := kbit (Data key) (PrefixLen nk)).
        assert (Hl : loadPointer (root t) (trim ++ [b]) = if b =? 0 then c0 else c1)
          by (rewrite load_app, Hld; reflexivity).
        assert (IH : exists o,
                   Delete_rel key im (if b =? 0 then c0 else c1) o /\
                   (x <- Delete_loop t key (Node nk c0 c1 v im) trim (trim ++ [b])
                           (if b =? 0 then c0 else c1) m ;;
                    Ok (Delete_finish t key x))
                   = Ok (apply_outcome t (Node nk c0 c1 v im) trim (trim ++ [b]) o)).
        { destruct (b =? 0);
            [apply (IH0 (Node nk c0 c1 v im))|apply (IH1 (Node nk c0 c1 v im))];
            assumption. }
        destruct IH as (o & Hrel & Heq).
        exists (lift_outcome (Node nk c0 c1 v im) b o). split.
        -- apply DR_descend; assumption.
        -- rewrite Heq. f_equal. destruct o as [|x|]; cbn [lift_outcome apply_outcome].
           ++ reflexivity.
           ++ rewrite store_app, Hld. reflexivity.
           ++ rewrite last_last. reflexivity.
    + exists (DUnchanged V). split; [apply DR_reject; left; assumption|].
      cbn [bind Delete_finish]. rewrite (proj2 (Z.eqb_neq _ _) Nm).
      rewrite orb_true_r. reflexivity.
Qed.
End LoopFacts.

(** ** The operations as a whole *)

Section OpFacts.
Variable V : Type.
Implicit Types (t : lpmTrie V) (n : lpmTrieNode V).

Lemma isValidKey_ok t key :
  isValidKey t key = true <-> key_ok (keySize t) (maxPrefixLen t) key.
Proof.
  unfold isValidKey, key_ok. rewrite !andb_true_iff, !Z.leb_le, Z.eqb_eq. tauto.
Qed.

Lemma Update_spec t key val :
  cfg_ok t -> isValidKey t key = true -> shape t (root t) ->
  exists n' u r,
    Update_rel (maxPrefixLen t) key val (root t) n' u r /\
    Update t key val
    = Ok (mkTrie n' (if r : bool then AddInt64 (AddInt64 (size t) 1) (-1)
                     else AddInt64 (size t) 1)
                 (maxPrefixLen t) (keySize t), u).
Proof.
  intros Hcfg Hv Hsh. unfold Update, checkKey. rewrite Hv. cbn [negb bind].
  apply isValidKey_ok in Hv.
  set (t1 := set_size t (AddInt64 (size t) 1)).
  destruct (@Update_loop_rel V t1 Hcfg key Hv val (root t) [] 0 Hsh eq_refl)
    as (n' & u & r & Hrel & Heq).
  exists n', u, r. split; [exact Hrel|].
  cbn zeta. change (root t1) with (root t). rewrite Heq.
  destruct r; reflexivity.
Qed.

Lemma Delete_rel_top key n o :
  Delete_rel key false n o -> o <> DCollapse V.
Proof.
  intros H. remember false as pim eqn:E. destruct H; try discriminate.
  destruct o; discriminate.
Qed.

Lemma Delete_spec t key :
  cfg_ok t -> isValidKey t key = true -> shape t (root t) ->
  exists o,
    Delete_rel key false (root t) o /\
    Delete t key
    = Ok (match o with
          | DReplaced x =>
              (mkTrie x (AddInt64 (size t) (-1)) (maxPrefixLen t) (keySize t),
               true)
          | _ => (t, false)
          end).
Proof.
  intros Hcfg Hv Hsh. unfold Delete, checkKey. rewrite Hv. cbn [negb bind].
  apply isValidKey_ok in Hv.
  destruct (@Delete_loop_rel V t Hcfg key Hv (root t) nilNode [] [] 0 Hsh eq_refl)
    as (o & Hrel & Heq).
  exists o. split; [exact Hrel|]. rewrite Heq.
  pose proof (Delete_rel_top Hrel) as Hn.
  destruct o; [reflexivity|reflexivity|congruence].
Qed.

(** *** Keys of the nodes *)

Lemma all_keys_impl (P Q : Key -> Prop) n :
  (forall k, P k -> Q k) -> all_keys P n -> all_keys Q n.
Proof.
  intros H. induction n as [|k c0 IH0 c1 IH1 v im]; cbn [all_keys]; [trivial|].
  intros (Hk & H0 & H1). auto.
Qed.

Lemma all_keys_and (P Q : Key -> Prop) n :
  all_keys P n -> all_keys Q n -> all_keys (fun k => P k /\ Q k) n.
Proof.
  induction n as [|k c0 IH0 c1 IH1 v im]; cbn [all_keys]; [trivial|].
  intros (Hk & H0 & H1) (Hk' & H0' & H1'). auto.
Qed.

Lemma all_keys_child (P : Key -> Prop) n b :
  all_keys P n -> all_keys P (child n b).
Proof.
  destruct n as [|k c0 c1 v im]; cbn [child all_keys]; [trivial|].
  intros (Hk & H0 & H1). destruct (b =? 0); assumption.
Qed.

Lemma all_keys_set_child (P : Key -> Prop) n b c :
  all_keys P n -> all_keys P c -> all_keys P (set_child n b c).
Proof.
  destruct n as [|k c0 c1 v im]; cbn [set_child all_keys]; [trivial|].
  intros (Hk & H0 & H1) Hc. destruct (b =? 0); cbn [all_keys]; auto.
Qed.

Lemma Update_rel_all_keys (P : Key -> Prop) mpl key val n n' u r :
  P key ->
  (forall nk, P nk -> P (mkKey (lpm_bitwise nk key) (Data key))) ->
  Update_rel mpl key val n n' u r ->
  all_keys P n -> all_keys P n'.
Proof.
  intros Hk Hf Hrel. induction Hrel; intros Hn.
  - cbn. auto.
  - destruct Hn as (_ & Hc0 & Hc1). cbn. auto.
  - pose proof Hn as (Hnk & _ & _). cbn zeta.
    destruct (negb _); cbn [all_keys newLpmTrieNode]; auto 10.
  - apply all_keys_set_child; [assumption|].
    apply IHHrel, all_keys_child, Hn.
Qed.

Lemma Delete_rel_all_keys (P : Key -> Prop) key pim n o :
  Delete_rel key pim n o -> all_keys P n ->
  match o with DReplaced n' => all_keys P n' | _ => True end.
Proof.
  intros Hrel. induction Hrel; intros Hn; try exact I.
  - destruct Hn as (Hk & Hc0 & Hc1). cbn. auto.
  - destruct Hn as (Hk & Hc0 & Hc1). destruct (is_nil c0); assumption.
  - specialize (IHHrel (all_keys_child _ _ _ Hn)).
    destruct o; cbn [lift_outcome]; [exact I| |].
    + apply all_keys_set_child; assumption.
    + unfold sibling. destruct (_ =? 0); apply all_keys_child, Hn.
Qed.

Lemma imkey_ok ks mpl nk key :
  key_ok ks mpl key -> key_ok ks mpl nk ->
  key_ok ks mpl (mkKey (lpm_bitwise nk key) (Data key)).
Proof.
  intros Hk Hn. pose proof (lpm_bitwise_range Hn Hk) as (R0 & R1 & R2).
  destruct Hk as [Hk1 Hk2], Hn as [Hn1 Hn2]. split; cbn; [lia|assumption].
Qed.

(** *** Intermediate nodes keep two children *)

Lemma im_two_child n b : im_two n -> im_two (child n b).
Proof.
  destruct n as [|k c0 c1 v im]; cbn [child im_two]; [trivial|].
  intros (_ & H0 & H1). destruct (b =? 0); assumption.
Qed.

Lemma Update_rel_not_nil mpl key val n n' u r :
  Update_rel mpl key val n n' u r -> n' <> nilNode.
Proof.
  intros Hrel. destruct Hrel; cbn; try discriminate.
  - destruct (negb _); discriminate.
  - destruct (_ =? 0); discriminate.
Qed.

Lemma Update_rel_im_two mpl key val n n' u r :
  Update_rel mpl key val n n' u r -> im_two n -> im_two n'.
Proof.
  intros Hrel. induction Hrel; intros Hn.
  - cbn. repeat split; discriminate.
  - destruct Hn as (_ & Hc0 & Hc1). cbn. repeat split; auto; discriminate.
  - pose proof Hn as (Him & Hc0 & Hc1).
    cbn zeta. destruct (negb _); cbn [im_two newLpmTrieNode];
      repeat split; auto; try discriminate; apply Him; assumption.
  - pose proof (Update_rel_not_nil Hrel) as Hnn.
    specialize (IHHrel (im_two_child _ _ Hn)).
    destruct Hn as (Him & Hc0 & Hc1). cbn [set_child child] in *.
    destruct (_ =? 0); cbn [im_two]; repeat split; auto; apply Him; assumption.
Qed.

Lemma Delete_rel_collapse key pim n :
  Delete_rel key pim n (DCollapse V) ->
  pim = true /\ exists nk v, n = Node nk nilNode nilNode v false.
Proof.
  intros H. remember (DCollapse V) as o eqn:E. destruct H; try discriminate.
  - split; [reflexivity|]. eauto.
  - destruct o; discriminate.
Qed.

Lemma Delete_rel_im_two key pim n o :
  Delete_rel key pim n o -> im_two n ->
  match o with
  | DReplaced n' => im_two n' /\ (pim = true -> n' <> nilNode)
  | _ => True
  end.
Proof.
  intros Hrel. induction Hrel; intros Hn; try exact I.
  - destruct Hn as (_ & Hc0 & Hc1). cbn. repeat split; auto; discriminate.
  - destruct Hn as (_ & Hc0 & Hc1). split.
    + destruct (is_nil c0); assumption.
    + intros ->. destruct c0, c1; cbn; try discriminate.
      match goal with
      | Hp : true = false \/ _ |- _ => destruct Hp as [?|[?|?]]; congruence
      end.
  - specialize (IHHrel (im_two_child _ _ Hn)).
    destruct Hn as (Him & Hc0 & Hc1).
    destruct o as [|x|]; cbn [lift_outcome]; [exact I| |].
    + destruct IHHrel as (Hx & Hxn). split.
      * cbn [set_child]. destruct (_ =? 0); cbn [im_two]; repeat split; auto;
          try (apply Him; assumption); apply Hxn; assumption.
      * intros _. cbn [set_child]. destruct (_ =? 0); discriminate.
    + assert (Ei : im = true) by (apply (Delete_rel_collapse Hrel)).
      destruct (Him Ei) as (N0 & N1).
      unfold sibling. cbn [child]. destruct (_ =? 0); cbn; auto.
Qed.

(** *** Entries and the counter *)

Lemma wrap64_add x d : wrap64 (wrap64 x + d) = wrap64 (x + d).
Proof.
  unfold wrap64. f_equal.
  replace ((x + 2 ^ 63) mod 2 ^ 64 - 2 ^ 63 + d + 2 ^ 63)
    with ((x + 2 ^ 63) mod 2 ^ 64 + d) by lia.
  rewrite Zplus_mod_idemp_l. f_equal. lia.
Qed.

Lemma AddInt64_wrap x d : AddInt64 (wrap64 x) d = wrap64 (x + d).
Proof. apply wrap64_add. Qed.

Lemma wrap64_small x : - 2 ^ 63 <= x < 2 ^ 63 -> wrap64 x = x.
Proof. intros H. unfold wrap64. rewrite Z.mod_small; lia. Qed.

Lemma Update_rel_count mpl key val n n' u r :
  Update_rel mpl key val n n' u r ->
  count_entries n' = count_entries n + (if r then 0 else 1).
Proof.
  unfold count_entries. intros Hrel. induction Hrel.
  - reflexivity.
  - cbn [entries]. rewrite !length_app. destruct im; cbn [negb length]; lia.
  - cbn zeta. destruct (negb _); cbn [entries newLpmTrieNode];
      rewrite ?length_app; cbn [length app]; rewrite ?length_app; cbn [length]; lia.
  - cbn [child set_child] in *. destruct (_ =? 0); cbn [entries];
      rewrite !length_app; lia.
Qed.

Lemma Delete_rel_count key pim n o :
  Delete_rel key pim n o ->
  match o with
  | DReplaced n' => count_entries n' = count_entries n - 1
  | _ => True
  end.
Proof.
  unfold count_entries. intros Hrel. induction Hrel; try exact I.
  - cbn [entries]. rewrite !length_app. cbn [length]. lia.
  - destruct c0, c1; cbn [is_nil entries]; rewrite ?length_app; cbn [length];
      rewrite ?length_app; cbn [length]; try lia.
    match goal with Hp : _ = nilNode \/ _ = nilNode |- _ =>
      destruct Hp; discriminate end.
  - destruct o as [|x|]; cbn [lift_outcome]; [exact I| |].
    + cbn [child set_child] in *. destruct (_ =? 0); cbn [entries];
        rewrite !length_app; lia.
    + destruct (Delete_rel_collapse Hrel) as (-> & nk' & v' & E).
      unfold sibling. cbn [child] in *.
      destruct (_ =? 0); subst; cbn [entries Z.eqb]; rewrite !length_app;
        cbn [length app]; lia.
Qed.

(** *** The invariant along a run *)

Lemma New_ok mpl t :
  New V mpl = inl t -> Inv t /\ maxPrefixLen t = mpl /\ root t = nilNode.
Proof.
  unfold New. destruct (Z.leb_spec mpl 0); cbn [orb]; [discriminate|].
  destruct (Z.eqb_spec (Z.rem mpl 8) 0) as [E|]; cbn [negb]; [|discriminate].
  intros [= <-]. split; [|split; reflexivity].
  repeat split; cbn [maxPrefixLen keySize root size im_two shape all_keys];
    try lia; try reflexivity.
  pose proof (Z.quot_rem' mpl 8). lia.
Qed.

Lemma Update_inv t key val :
  Inv t -> isValidKey t key = true ->
  exists t' u, Update t key val = Ok (t', u) /\ Inv t'
               /\ maxPrefixLen t' = maxPrefixLen t /\ keySize t' = keySize t.
Proof.
  intros (Hcfg & Hsh & Him & Hsz) Hv.
  destruct (@Update_spec t key val Hcfg Hv Hsh) as (n' & u & r & Hrel & Heq).
  eexists _, u. split; [exact Heq|]. cbn. split; [|auto].
  apply isValidKey_ok in Hv.
  repeat split; cbn; try apply Hcfg.
  - apply (@Update_rel_all_keys (key_ok (keySize t) (maxPrefixLen t))
             (maxPrefixLen t) key val (root t) n' u r Hv);
      [|exact Hrel|exact Hsh].
    intros nk Hnk. apply imkey_ok; assumption.
  - exact (Update_rel_im_two Hrel Him).
  - rewrite (Update_rel_count Hrel), Hsz.
    destruct r; rewrite !AddInt64_wrap; f_equal; lia.
Qed.

Lemma Delete_inv t key :
  Inv t -> isValidKey t key = true ->
  exists t' d, Delete t key = Ok (t', d) /\ Inv t'
               /\ maxPrefixLen t' = maxPrefixLen t /\ keySize t' = keySize t.
Proof.
  intros Hinv Hv. pose proof Hinv as (Hcfg & Hsh & Him & Hsz).
  destruct (@Delete_spec t key Hcfg Hv Hsh) as (o & Hrel & Heq).
  rewrite Heq.
  pose proof (@Delete_rel_all_keys (key_ok (keySize t) (maxPrefixLen t)) _ _ _ _ Hrel Hsh) as Ha.
  pose proof (Delete_rel_im_two Hrel Him) as Hb.
  pose proof (Delete_rel_count Hrel) as Hc.
  destruct o as [|x|]; eexists _, _; (split; [reflexivity|]); [auto| |auto].
  split; [|cbn; auto]. repeat split; cbn; try apply Hcfg.
  - exact Ha.
  - apply Hb.
  - rewrite Hc, Hsz, AddInt64_wrap. f_equal; lia.
Qed.

Lemma run_ops_inv ops : forall t,
  Inv t -> valid_ops t ops ->
  exists t', run_ops t ops = Ok t' /\ Inv t'
             /\ maxPrefixLen t' = maxPrefixLen t /\ keySize t' = keySize t.
Proof.
  induction ops as [|o ops IH]; intros t Hinv Hv.
  - exists t. cbn. auto.
  - inversion Hv as [|? ? Ho Hrest]; subst.
    assert (Hstep : exists t1, apply_op t o = Ok t1 /\ Inv t1
                     /\ maxPrefixLen t1 = maxPrefixLen t /\ keySize t1 = keySize t).
    { destruct o as [k v|k]; cbn [apply_op op_key] in *.
      - destruct (@Update_inv t k v Hinv Ho) as (t1 & u & -> & H1 & H2).
        exists t1. cbn. auto.
      - destruct (@Delete_inv t k Hinv Ho) as (t1 & d & -> & H1 & H2).
        exists t1. cbn. auto. }
    destruct Hstep as (t1 & E1 & Hinv1 & Em & Ek).
    destruct (IH t1 Hinv1) as (t' & E' & Hinv' & Em' & Ek').
    { unfold valid_ops in *. eapply Forall_impl; [|exact Hrest].
      intros a Ha. unfold isValidKey in *. rewrite Em, Ek. exact Ha. }
    exists t'. cbn [run_ops]. rewrite E1. cbn [bind].
    split; [exact E'|]. split; [exact Hinv'|]. split; congruence.
Qed.
End OpFacts.

(** ** Claims on the counter, the branch nodes, [New], [Delete] and [Update] *)

Section Claims1.
Variable V : Type.

(** C4: after every finite sequence of Update and Delete calls with valid
    keys on a freshly constructed trie, no call panics and [Size()] is the
    number of reachable nodes whose intermediate flag is false: as an
    [int64], and as a number whenever that number fits an [int64]. *)
Theorem Size_counts_entries mpl (t0 : lpmTrie V) ops :
  New V mpl = inl t0 -> valid_ops t0 ops ->
  exists t, run_ops t0 ops = Ok t
            /\ Size t = wrap64 (count_entries (root t))
            /\ (count_entries (root t) < 2 ^ 63 ->
                Size t = count_entries (root t)).
Proof.
  intros Hnew Hv. destruct (@New_ok V mpl t0 Hnew) as (Hinv & _).
  destruct (@run_ops_inv V ops t0 Hinv Hv) as (t & Hrun & (_ & _ & _ & Hsz) & _).
  exists t. split; [exact Hrun|]. split; [exact Hsz|].
  intros Hlt. unfold Size. rewrite Hsz. apply wrap64_small.
  unfold count_entries in *. lia.
Qed.

(** C10: in every trie reachable from an empty trie by Update and Delete
    calls with valid keys, every reachable intermediate node has both child
    slots non-empty. *)
Theorem intermediate_nodes_have_two_children mpl (t0 : lpmTrie V) ops :
  New V mpl = inl t0 -> valid_ops t0 ops ->
  exists t, run_ops t0 ops = Ok t /\ im_two (root t).
Proof.
  intros Hnew Hv. destruct (@New_ok V mpl t0 Hnew) as (Hinv & _).
  destruct (@run_ops_inv V ops t0 Hinv Hv) as (t & Hrun & (_ & _ & Him & _) & _).
  exists t. split; assumption.
Qed.

(** C9: [New] returns an error value exactly when [maxPrefixLen <= 0] or
    [maxPrefixLen] is not a multiple of 8; otherwise it returns a trie with
    [keySize = maxPrefixLen / 8] that is empty: [Size()] is 0, [Lookup] of
    any valid key is not found, and [Range] never calls its visitor (the
    visitor's state comes back unchanged, whatever the visitor). *)
Theorem New_spec mpl :
  ((exists msg, New V mpl = inr msg) <-> (mpl <= 0 \/ ~ (8 | mpl)))
  /\ (forall t, New V mpl = inl t ->
        maxPrefixLen t = mpl /\ keySize t = Z.quot mpl 8 /\ root t = nilNode
        /\ Size t = 0
        /\ (forall key, isValidKey t key = true ->
                        Lookup t key = Ok (None, false))
        /\ (forall A (fn : Key -> option V -> A -> A * bool) a,
               traverse fn (root t) a = (a, false) /\ Range fn t a = a)).
Proof.
  unfold New. split.
  - rewrite <- (Z.rem_divide mpl 8) by lia.
    destruct (Z.leb_spec mpl 0); destruct (Z.eqb_spec (Z.rem mpl 8) 0);
      cbn [orb negb]; split; intros H'; try (eexists; reflexivity);
      try (destruct H' as (? & ?); discriminate); try lia; tauto.
  - intros t.
    destruct ((mpl <=? 0) || negb (Z.rem mpl 8 =? 0)); [discriminate|].
    intros [= <-]. cbn. repeat split.
    intros key Hk. unfold Lookup, checkKey. rewrite Hk. reflexivity.
Qed.

End Claims1.

Lemma New_spec_witness :
  New Z 32 = inl (empty32 Z)
  /\ Lookup (empty32 Z) (key4 32 x0a x00 x00 x01) = Ok (None, false).
Proof.
  split; [reflexivity|].
  destruct (proj2 (@New_spec Z 32) (empty32 Z) eq_refl) as (_ & _ & _ & _ & H & _).
  apply H. reflexivity.
Defined.

Lemma Size_counts_entries_witness :
  exists t, run_ops (empty32 Z) ops_ABA = Ok t
            /\ Size t = wrap64 (count_entries (root t))
            /\ (count_entries (root t) < 2 ^ 63 ->
                Size t = count_entries (root t)).
Proof.
  apply (@Size_counts_entries Z 32 (empty32 Z) ops_ABA);
    [reflexivity|unfold valid_ops; repeat constructor].
Defined.

Lemma intermediate_nodes_have_two_children_witness :
  exists t, run_ops (empty32 Z) ops_ABA = Ok t /\ im_two (root t).
Proof.
  apply (@intermediate_nodes_have_two_children Z 32 (empty32 Z) ops_ABA);
    [reflexivity|unfold valid_ops; repeat constructor].
Defined.

Example run_ops_AB : run_ops (empty32 Z) ops_AB = Ok trie_AB.
Proof. vm_compute. reflexivity. Qed.

Section Claims2.
Variable V : Type.
Implicit Types (t : lpmTrie V).

Lemma Update_loop_load t key r (n : lpmTrieNode V) : forall s0 m0 s n' m,
  Update_loop t key s0 n m0 = Ok (s, n', m) ->
  loadPointer r s0 = n -> loadPointer r s = n'.
Proof.
  induction n as [|nk c0 IH0 c1 IH1 v im]; intros s0 m0 s n' m Hl Hld.
  - cbn in Hl. injection Hl as <- <- <-. exact Hld.
  - cbn [Update_loop] in Hl.
    destruct (longestPrefixMatch (keySize t) nk key) as [ml|]; [|discriminate].
    cbn [bind] in Hl.
    destruct (negb (PrefixLen nk =? ml) || (PrefixLen nk =? PrefixLen key)
              || (PrefixLen nk =? maxPrefixLen t)).
    + injection Hl as <- <- <-. exact Hld.
    + destruct (extractBit (Data key) (PrefixLen nk)) as [b|]; [|discriminate].
      cbn [bind] in Hl.
      assert (Hc : loadPointer r (s0 ++ [b]) = if b =? 0 then c0 else c1)
        by (rewrite load_app, Hld; reflexivity).
      destruct (b =? 0); [exact (IH0 _ _ _ _ _ Hl Hc)|exact (IH1 _ _ _ _ _ Hl Hc)].
Qed.

(** C6: for every trie state and valid key, [Delete] returns [true]
    exactly when the node at which its descent stops exists, has a prefix
    length equal to both the key's and the computed match length, and is
    not intermediate; when it returns [false] the whole trie (structure,
    node fields and counter) is unchanged.  The descent itself does not
    panic on a trie whose nodes carry valid keys. *)
Theorem Delete_rejects t key :
  isValidKey t key = true ->
  (forall r, Delete_loop t key nilNode [] [] (root t) 0 = Ok r ->
     exists t', Delete t key = Ok (t', Delete_accepts key r)
                /\ (Delete_accepts key r = false -> t' = t))
  /\ (cfg_ok t -> shape t (root t) ->
      exists r, Delete_loop t key nilNode [] [] (root t) 0 = Ok r).
Proof.
  intros Hv. split.
  - intros r Hr. unfold Delete, checkKey. rewrite Hv, Hr. cbn [negb bind].
    destruct r as ((((parent & trim2) & trim) & node) & m).
    unfold Delete_finish, Delete_accepts.
    destruct node as [|nk c0 c1 v im].
    { exists t. split; auto. }
    destruct (PrefixLen nk =? PrefixLen key), (PrefixLen nk =? m), im;
      cbn [negb orb andb]; try (exists t; split; [reflexivity|auto]).
    repeat match goal with
           | |- context [if ?c then _ else _] => destruct c
           end;
      eexists; (split; [reflexivity|discriminate]).
  - intros Hcfg Hsh. apply isValidKey_ok in Hv.
    destruct (@Delete_loop_rel V t Hcfg key Hv (root t) nilNode [] [] 0 Hsh eq_refl)
      as (o & _ & Heq).
    destruct (Delete_loop t key nilNode [] [] (root t) 0) as [r|];
      [exists r; reflexivity|discriminate].
Qed.

Lemma load_nil (s : slot) : loadPointer (@nilNode V) s = nilNode.
Proof. induction s as [|b s IH]; [reflexivity|exact IH]. Qed.

(** A store into a slot that holds a node is read back from that slot. *)
Lemma load_store_same (s : slot) : forall (r x : lpmTrieNode V),
  loadPointer r s <> nilNode -> loadPointer (storePointer r s x) s = x.
Proof.
  induction s as [|b s IH]; intros r x Hne; [reflexivity|].
  destruct r as [|k c0 c1 v im]; [rewrite load_nil in Hne; contradiction|].
  cbn [loadPointer storePointer child set_child] in *.
  destruct (b =? 0) eqn:Eb; cbn [child]; rewrite Eb; apply IH; exact Hne.
Qed.

(** A store into a slot leaves the slots off its path as they were. *)
Lemma load_store_off (p : slot) : forall (r x : lpmTrieNode V) b r1 b' r2,
  (b =? 0) <> (b' =? 0) ->
  loadPointer (storePointer r (p ++ b :: r1) x) (p ++ b' :: r2)
  = loadPointer r (p ++ b' :: r2).
Proof.
  induction p as [|a p IH]; intros r x b r1 b' r2 Hd;
    (destruct r as [|k c0 c1 v im]; [cbn; rewrite !load_nil; reflexivity|]);
    cbn [app loadPointer storePointer child set_child].
  - destruct (b =? 0); cbn [child]; destruct (b' =? 0); try reflexivity;
      exfalso; apply Hd; reflexivity.
  - destruct (a =? 0) eqn:Ea; cbn [child]; rewrite Ea; apply IH; exact Hd.
Qed.

(** A store into a slot leaves the nodes above it their key, payload and
    flag. *)
Lemma load_store_above (p : slot) : forall (r x : lpmTrieNode V) b r1,
  loadPointer r (p ++ b :: r1) <> nilNode ->
  exists k c0 c1 d0 d1 v im,
    loadPointer r p = Node k c0 c1 v im
    /\ loadPointer (storePointer r (p ++ b :: r1) x) p = Node k d0 d1 v im.
Proof.
  induction p as [|a p IH]; intros r x b r1 Hne;
    (destruct r as [|k c0 c1 v im]; [rewrite load_nil in Hne; contradiction|]);
    cbn [app loadPointer storePointer child set_child] in *.
  - destruct (b =? 0); eauto 10.
  - destruct (a =? 0) eqn:Ea; cbn [child]; rewrite Ea; apply IH; exact Hne.
Qed.

(** C7: whenever [Update]'s descent stops at an existing node whose prefix
    length equals the match length, [Update] returns [true] and the new
    node, with the key and value of the call and the two children of the
    node it replaces, is what the slot holds afterwards; the child slots
    below it hold what they held, the slots off the path to it are
    untouched and the nodes above it keep their key, payload and flag.
    This is so also when the replaced node is intermediate; the counter
    increment is undone exactly when the replaced node was not
    intermediate.  There is a reachable trie with an intermediate node
    below the root and a key that [Lookup] does not find and for which
    [Update] stops at that node and returns [true]. *)
Theorem Update_replaces :
  (forall t key val s nk c0 c1 v im m,
     isValidKey t key = true ->
     Update_loop (set_size t (AddInt64 (size t) 1)) key [] (root t) 0
     = Ok (s, Node nk c0 c1 v im, m) ->
     PrefixLen nk = m ->
     loadPointer (root t) s = Node nk c0 c1 v im
     /\ exists t',
         Update t key val = Ok (t', true)
         /\ t' = mkTrie (storePointer (root t) s (Node key c0 c1 val false))
                        (if im then AddInt64 (size t) 1
                         else AddInt64 (AddInt64 (size t) 1) (-1))
                        (maxPrefixLen t) (keySize t)
         /\ loadPointer (root t') s = Node key c0 c1 val false
         /\ (forall b, loadPointer (root t') (s ++ [b])
                       = loadPointer (root t) (s ++ [b]))
         /\ (forall p b r1 b' r2,
               s = p ++ b :: r1 -> (b =? 0) <> (b' =? 0) ->
               loadPointer (root t') (p ++ b' :: r2)
               = loadPointer (root t) (p ++ b' :: r2))
         /\ (forall p b r1,
               s = p ++ b :: r1 ->
               exists k x0 x1 y0 y1 w i,
                 loadPointer (root t) p = Node k x0 x1 w i
                 /\ loadPointer (root t') p = Node k y0 y1 w i))
  /\ (exists ops t key val t' s nk c0 c1 v m,
        run_ops (mkTrie nilNode 0 32 4) ops = Ok t
        /\ Update_loop (set_size t (AddInt64 (size t) 1)) key [] (root t) 0
           = Ok (s, Node nk c0 c1 v true, m)
        /\ PrefixLen nk = m /\ s <> []
        /\ Lookup t key = Ok (None, false)
        /\ Update t key val = Ok (t', true)
        /\ loadPointer (root t') s = Node key c0 c1 val false
        /\ Size t' = Size t + 1).
Proof.
  split.
  - intros t key val s nk c0 c1 v im m Hv Hl Hm.
    pose proof (@Update_loop_load _ key (root t) (root t) [] 0 s _ m Hl eq_refl)
      as Hld.
    assert (Hne : loadPointer (root t) s <> nilNode)
      by (rewrite Hld; discriminate).
    split; [exact Hld|]. eexists. split; [|split; [reflexivity|]].
    + unfold Update, checkKey. rewrite Hv. cbn [negb bind]. cbn zeta.
      change (root (set_size t (AddInt64 (size t) 1))) with (root t).
      rewrite Hl. cbn [bind Update_finish].
      rewrite (proj2 (Z.eqb_eq _ _) Hm). destruct im; reflexivity.
    + cbn [root]. split; [exact (@load_store_same s (root t) _ Hne)|]. split; [|split].
      * intros b. rewrite !load_app, (@load_store_same s (root t) _ Hne), Hld.
        reflexivity.
      * intros p b r1 b' r2 -> Hd. apply load_store_off, Hd.
      * intros p b r1 ->. apply load_store_above, Hne.
  - exists [OpUpdate kA None; OpUpdate kB None; OpUpdate kC None].
    eexists. exists kP, None. eexists. exists [1].
    do 5 eexists.
    split; [vm_compute; reflexivity|].
    split; [vm_compute; reflexivity|].
    split; [reflexivity|]. split; [discriminate|].
    split; [vm_compute; reflexivity|].
    split; [vm_compute; reflexivity|].
    split; vm_compute; reflexivity.
Qed.
End Claims2.

Lemma Delete_rejects_witness :
  exists t', Delete trie_AB (key4 32 xc0 x00 x00 x00)
             = Ok (t', Delete_accepts (key4 32 xc0 x00 x00 x00)
                         (root trie_AB, [], [1],
                          Node kA nilNode nilNode (Some 1) false, 1))
             /\ (Delete_accepts (key4 32 xc0 x00 x00 x00)
                   (root trie_AB, [], [1],
                    Node kA nilNode nilNode (Some 1) false, 1) = false ->
                 t' = trie_AB).
Proof.
  apply (proj1 (@Delete_rejects Z trie_AB (key4 32 xc0 x00 x00 x00) eq_refl)).
  vm_compute. reflexivity.
Defined.

Example run_ops_ABC : run_ops (empty32 Z) ops_ABC = Ok trie_ABC.
Proof. vm_compute. reflexivity. Qed.

Lemma Update_replaces_witness :
  loadPointer (root trie_ABC) [1]
  = Node (mkKey 2 (Data kC)) (Node kC nilNode nilNode (Some 3) false)
         (Node kA nilNode nilNode (Some 1) false) None true
  /\ exists t',
      Update trie_ABC kP (Some 7) = Ok (t', true)
      /\ t' = mkTrie (storePointer (root trie_ABC) [1]
                        (Node kP (Node kC nilNode nilNode (Some 3) false)
                              (Node kA nilNode nilNode (Some 1) false)
                              (Some 7) false))
                     (AddInt64 (size trie_ABC) 1)
                     (maxPrefixLen trie_ABC) (keySize trie_ABC)
      /\ loadPointer (root t') [1]
         = Node kP (Node kC nilNode nilNode (Some 3) false)
                (Node kA nilNode nilNode (Some 1) false) (Some 7) false
      /\ (forall b, loadPointer (root t') ([1] ++ [b])
                    = loadPointer (root trie_ABC) ([1] ++ [b]))
      /\ (forall p b r1 b' r2,
            [1] = p ++ b :: r1 -> (b =? 0) <> (b' =? 0) ->
            loadPointer (root t') (p ++ b' :: r2)
            = loadPointer (root trie_ABC) (p ++ b' :: r2))
      /\ (forall p b r1,
            [1] = p ++ b :: r1 ->
            exists k x0 x1 y0 y1 w i,
              loadPointer (root trie_ABC) p = Node k x0 x1 w i
              /\ loadPointer (root t') p = Node k y0 y1 w i).
Proof.
  apply (proj1 (@Update_replaces Z) trie_ABC kP (Some 7) [1]
               (mkKey 2 (Data kC))
               (Node kC nilNode nilNode (Some 3) false)
               (Node kA nilNode nilNode (Some 1) false)
               None true 2).
  - reflexivity.
  - vm_compute. reflexivity.
  - reflexivity.
Defined.

(** ** Range *)

Section RangeFacts.
Variables (V A : Type).
Variable fn : Key -> option V -> A -> A * bool.

Lemma visit_app l1 : forall l2 a,
  visit fn (l1 ++ l2) a
  = let '(a1, stop) := visit fn l1 a in
    if stop then (a1, true) else visit fn l2 a1.
Proof.
  induction l1 as [|[k v] l1 IH]; intros l2 a; [reflexivity|].
  cbn [app visit]. destruct (fn k v a) as [a' c]. destruct c; cbn [negb].
  - apply IH.
  - reflexivity.
Qed.

Lemma traverse_visit (r : lpmTrieNode V) : forall a,
  traverse fn r a = visit fn (entries r) a.
Proof.
  induction r as [|k c0 IH0 c1 IH1 v im]; intros a; [reflexivity|].
  cbn [traverse entries]. rewrite visit_app, IH0.
  destruct (visit fn (entries c0) a) as [a1 stop]. destruct stop; [reflexivity|].
  destruct im; cbn [app]; [apply IH1|].
  cbn [visit]. destruct (fn k v a1) as [a2 c]. destruct c; cbn [negb];
    [apply IH1|reflexivity].
Qed.

Lemma visit_logged es : forall a log,
  visit (logged fn) es (a, log)
  = ((fst (visit fn es a), log ++ visited fn es a), snd (visit fn es a)).
Proof.
  induction es as [|[k v] es IH]; intros a log.
  - cbn. rewrite app_nil_r. reflexivity.
  - cbn [visit visited]. unfold logged at 1. cbn [fst snd].
    destruct (fn k v a) as [a' c]. destruct c; cbn [negb].
    + rewrite IH, <- app_assoc. reflexivity.
    + reflexivity.
Qed.
End RangeFacts.

Section OrderFacts.
Variable V : Type.

Lemma prefix_agree_sym a b n : prefix_agree a b n -> prefix_agree b a n.
Proof. intros H i Hi. symmetry. apply H, Hi. Qed.

Lemma prefix_agree_trans a b c n m p :
  prefix_agree a b n -> prefix_agree b c m -> p <= n -> p <= m ->
  prefix_agree a c p.
Proof. intros H1 H2 Hn Hm i Hi. rewrite H1, H2 by lia. reflexivity. Qed.

Lemma prefix_agree_le a b n m : prefix_agree a b n -> m <= n -> prefix_agree a b m.
Proof. intros H Hm i Hi. apply H. lia. Qed.

Lemma prefix_agree_refl a n : prefix_agree a a n.
Proof. intros i Hi. reflexivity. Qed.

Lemma all_keys_entries (P : Key -> Prop) (n : lpmTrieNode V) :
  all_keys P n -> forall e, In e (entries n) -> P (fst e).
Proof.
  induction n as [|k c0 IH0 c1 IH1 v im]; cbn [all_keys entries]; [intros _ e []|].
  intros (Hk & H0 & H1) e He. rewrite !in_app_iff in He.
  destruct He as [He|[He|He]]; auto.
  destruct im; [destruct He|]. destruct He as [<-|[]]. exact Hk.
Qed.

Lemma StronglySorted_app (T : Type) (R : T -> T -> Prop) l1 : forall l2,
  StronglySorted R l1 -> StronglySorted R l2 ->
  (forall x y, In x l1 -> In y l2 -> R x y) ->
  StronglySorted R (l1 ++ l2).
Proof.
  induction l1 as [|x l1 IH]; intros l2 H1 H2 Hc; [exact H2|].
  inversion H1 as [|? ? Hs Hf]; subst. cbn [app]. constructor.
  - apply IH; [assumption|assumption|]. intros a b Ha Hb. apply Hc; [right|]; assumption.
  - rewrite Forall_app. split; [assumption|].
    rewrite Forall_forall. intros y Hy. apply Hc; [left; reflexivity|assumption].
Qed.

Lemma key_before_asym a b : key_before a b -> ~ key_before b a.
Proof.
  intros (m & Hm0 & Hma & Hmb & Hag & Ha0 & Hb1 & Hd)
         (m' & Hm0' & Hmb' & Hma' & Hag' & Hb0 & Ha1 & Hd').
  destruct (Z.lt_trichotomy m m') as [Hlt|[->|Hgt]].
  - specialize (Hag' m ltac:(lia)). rewrite Ha0, Hb1 in Hag' by lia. discriminate.
  - destruct Hd as [Hd|Hd].
    + rewrite Ha0 in Ha1 by assumption. specialize (Ha1 Hd). discriminate.
    + rewrite Hb1 in Hb0 by assumption. specialize (Hb0 Hd). discriminate.
  - specialize (Hag m' ltac:(lia)). rewrite Ha1, Hb0 in Hag by lia. discriminate.
Qed.

Lemma extends_before k d0 d1 :
  0 <= PrefixLen k -> extends k 0 d0 -> extends k 1 d1 -> key_before d0 d1.
Proof.
  intros Hk (L0 & A0 & B0) (L1 & A1 & B1). exists (PrefixLen k).
  split; [assumption|]. split; [lia|]. split; [lia|]. split.
  - eapply prefix_agree_trans; [apply prefix_agree_sym; exact A0|exact A1| |]; lia.
  - split; [auto|]. split; [auto|]. left. assumption.
Qed.

Lemma branching_sorted (n : lpmTrieNode V) :
  all_keys (fun k => 0 <= PrefixLen k) n -> branching n ->
  StronglySorted key_before (map fst (entries n)).
Proof.
  induction n as [|k c0 IH0 c1 IH1 v im]; cbn [all_keys branching entries];
    [constructor|].
  intros (Hk & Hp0 & Hp1) (E0 & E1 & B0 & B1).
  pose proof (@all_keys_entries _ _ E0) as F0.
  pose proof (@all_keys_entries _ _ E1) as F1.
  rewrite !map_app. apply StronglySorted_app; [auto| |].
  - apply StronglySorted_app; [|auto|].
    + destruct im; cbn; repeat constructor.
    + intros x y Hx Hy. rewrite in_map_iff in Hy. destruct Hy as (e & <- & He).
      destruct im; [destruct Hx|]. destruct Hx as [<-|[]]. cbn [fst].
      destruct (F1 e He) as (L1 & A1 & B1').
      exists (PrefixLen k).
      split; [assumption|]. split; [lia|]. split; [lia|]. split; [exact A1|].
      split; [lia|]. split; [auto|]. right. assumption.
  - intros x y Hx Hy. rewrite in_map_iff in Hx. destruct Hx as (e & <- & He).
    rewrite in_app_iff in Hy. destruct Hy as [Hy|Hy].
    + destruct im; [destruct Hy|]. destruct Hy as [<-|[]]. cbn [fst].
      destruct (F0 e He) as (L0 & A0 & B0').
      exists (PrefixLen k).
      split; [assumption|]. split; [lia|]. split; [lia|].
      split; [apply prefix_agree_sym; exact A0|].
      split; [auto|]. split; [lia|]. left. assumption.
    + rewrite in_map_iff in Hy. destruct Hy as (e' & <- & He').
      exact (extends_before Hk (F0 e He) (F1 e' He')).
Qed.
End OrderFacts.

Example run_ops_nested : run_ops (empty32 Z) ops_nested = Ok trie_nested.
Proof. vm_compute. reflexivity. Qed.

(** C8, as stated, fails: after [Update(10.0.0.0/8)] and
    [Update(10.0.0.1/32)] the longer entry sits in child 0 of the shorter
    one, and [Range] yields 10.0.0.1/32 before 10.0.0.0/8: the yielded keys
    ascend neither on their significant bits nor on their whole buffers. *)
Lemma Range_not_ascending :
  run_ops (empty32 Z) ops_nested = Ok trie_nested
  /\ map fst (Range_calls (fun _ _ (a : unit) => (a, true)) trie_nested tt)
     = [k32; k8]
  /\ ~ ascending_bits
       (map fst (Range_calls (fun _ _ (a : unit) => (a, true)) trie_nested tt))
  /\ ~ ascending_data
       (map fst (Range_calls (fun _ _ (a : unit) => (a, true)) trie_nested tt)).
Proof.
  split; [vm_compute; reflexivity|]. split; [reflexivity|].
  change (map fst (Range_calls (fun _ _ (a : unit) => (a, true)) trie_nested tt))
    with [k32; k8].
  split; intros H; inversion H as [|? ? _ Hd]; subst;
    inversion Hd as [|? ? Hle]; subst; vm_compute in Hle; discriminate.
Qed.

(** C8, amended: [Range] walks the trie in order (child 0, the node,
    child 1) and calls the visitor on the nodes that are not intermediate,
    in that order, up to and including the first call that returns false;
    no call follows it.  In a trie that satisfies the branching invariant
    the entries come in the order of the walk, in which a key follows the
    keys that extend it with a 0 bit and precedes those that extend it with
    a 1 bit. *)
Theorem Range_in_order (V : Type) :
  (forall A (fn : Key -> option V -> A -> A * bool) (t : lpmTrie V) a,
      traverse fn (root t) a = visit fn (entries (root t)) a
      /\ Range_calls fn t a = visited fn (entries (root t)) a)
  /\ (forall t : lpmTrie V,
        shape t (root t) -> branching (root t) ->
        StronglySorted key_before (map fst (entries (root t)))).
Proof.
  split.
  - intros A fn t a. split; [apply traverse_visit|].
    unfold Range_calls, Range. rewrite traverse_visit, visit_logged. reflexivity.
  - intros t Hsh Hb. apply branching_sorted; [|exact Hb].
    apply (@all_keys_impl V (key_ok (keySize t) (maxPrefixLen t))); [|exact Hsh].
    intros k (Hk & _). lia.
Qed.

Lemma Range_in_order_witness :
  StronglySorted key_before (map fst (entries (root trie_nested))).
Proof.
  apply (proj2 (@Range_in_order Z) trie_nested).
  - unfold trie_nested, k8, k32, key4, b4. cbn. repeat split; cbn; lia.
  - unfold trie_nested, k8, k32, key4, b4. cbn.
    repeat split; cbn; try lia; try reflexivity.
    intros i Hi.
    assert (Hc : i = 0 \/ i = 1 \/ i = 2 \/ i = 3 \/ i = 4 \/ i = 5 \/ i = 6 \/ i = 7)
      by (cbn in Hi; lia).
    destruct Hc as [->|[->|[->|[->|[->|[->|[->| ->]]]]]]]; reflexivity.
Defined.

(** ** Matching keys *)

Section MatchFacts.
Variables (ks mpl : Z).
Hypothesis Hmpl : mpl = 8 * ks.

Lemma key_equiv_sym a b : key_equiv a b -> key_equiv b a.
Proof.
  intros (Hp & Ha). split; [congruence|]. rewrite <- Hp.
  apply prefix_agree_sym, Ha.
Qed.

Lemma key_equiv_trans a b c : key_equiv a b -> key_equiv b c -> key_equiv a c.
Proof.
  intros (Hp & Ha) (Hq & Hb). split; [congruence|].
  eapply prefix_agree_trans; [exact Ha|exact Hb| |]; lia.
Qed.

Lemma matches_equiv a b q : key_equiv a b -> matches a q -> matches b q.
Proof.
  intros (Hp & Ha) (Hl & Hm). split; [lia|]. rewrite <- Hp.
  eapply prefix_agree_trans; [apply prefix_agree_sym; exact Ha|exact Hm| |]; lia.
Qed.

Lemma matches_lpm nk q :
  key_ok ks mpl nk -> key_ok ks mpl q ->
  (matches nk q <-> lpm_bitwise nk q = PrefixLen nk).
Proof.
  intros Hn Hq. pose proof (lpm_bitwise_range Hn Hq) as (R0 & R1 & R2).
  split.
  - intros (Hl & Ha).
    pose proof (@lpm_bitwise_max ks mpl Hmpl nk q Hn Hq (PrefixLen nk)) as Hx.
    destruct Hn as [Hn1 _]. specialize (Hx ltac:(lia) ltac:(lia) Hl Ha). lia.
  - intros E. split; [lia|]. rewrite <- E. apply lpm_bitwise_agree.
Qed.

Lemma extends_matches nk b d q :
  0 <= PrefixLen nk -> extends nk b d -> matches d q ->
  matches nk q /\ kbit (Data q) (PrefixLen nk) = b.
Proof.
  intros Hn (Hl & Ha & Hb) (Hdq & Hm). split; [split; [lia|]|].
  - eapply prefix_agree_trans; [exact Ha|exact Hm| |]; lia.
  - rewrite <- Hb. symmetry. apply Hm. lia.
Qed.

Lemma extends_not_equiv nk b d key :
  0 <= PrefixLen nk -> extends nk b d -> key_equiv d key ->
  PrefixLen nk < PrefixLen key /\ prefix_agree (Data nk) (Data key) (PrefixLen nk)
  /\ kbit (Data key) (PrefixLen nk) = b.
Proof.
  intros Hn (Hl & Ha & Hb) (Hp & He). split; [lia|]. split.
  - eapply prefix_agree_trans; [exact Ha|exact He| |]; lia.
  - rewrite <- Hb. symmetry. apply He. lia.
Qed.

(** Two keys below the same child of [nk] share one more bit than [nk]. *)
Lemma extends_lpm nk b ck key :
  key_ok ks mpl nk -> key_ok ks mpl ck -> key_ok ks mpl key ->
  extends nk b ck -> extends nk b key ->
  PrefixLen nk < lpm_bitwise ck key.
Proof.
  intros Hn Hc Hk (Lc & Ac & Bc) (Lk & Ak & Bk).
  assert (Hx : PrefixLen nk + 1 <= lpm_bitwise ck key).
  { destruct Hn as [Hn1 _].
    apply (@lpm_bitwise_max ks mpl Hmpl ck key Hc Hk); try lia.
    intros i Hi. destruct (Z.eq_dec i (PrefixLen nk)) as [->|Hne].
    - congruence.
    - rewrite <- Ac, <- Ak by lia. reflexivity. }
  lia.
Qed.
End MatchFacts.

(** ** Lookup on a trie that satisfies the invariants *)

Section LookupFacts.
Variable V : Type.
Variable t : lpmTrie V.
Hypothesis Hcfg : cfg_ok t.
Variable q : Key.
Hypothesis Hq : key_ok (keySize t) (maxPrefixLen t) q.

Lemma entries_Node_iff k (c0 c1 : lpmTrieNode V) v im b e :
  b = 0 \/ b = 1 ->
  In e (entries (Node k c0 c1 v im)) <->
  In e (entries (if b =? 0 then c0 else c1))
  \/ (im = false /\ e = (k, v))
  \/ In e (entries (if b =? 0 then c1 else c0)).
Proof.
  intros Hb. cbn [entries]. rewrite !in_app_iff.
  assert (Hm : In e (if im then [] else [(k, v)]) <-> im = false /\ e = (k, v)).
  { destruct im; cbn; split; try tauto; try (intros (? & ?); discriminate).
    - intros [<-|[]]. auto.
    - intros (_ & ->). auto. }
  rewrite Hm. destruct Hb as [-> | ->]; cbn; tauto.
Qed.

Lemma Lookup_loop_spec (n : lpmTrieNode V) :
  shape t n -> branching n -> im_two n ->
  forall found,
  exists res, Lookup_loop t q n found = Ok res /\
    ((exists k v, In (k, v) (entries n) /\ matches k q /\ res = (v, true)
                  /\ forall e, In e (entries n) -> matches (fst e) q ->
                               PrefixLen (fst e) <= PrefixLen k)
     \/ (res = Lookup_found found
         /\ forall e, In e (entries n) -> ~ matches (fst e) q)).
Proof.
  destruct Hcfg as [Hpos Hmpl].
  induction n as [|nk c0 IH0 c1 IH1 v im]; intros Hsh Hbr Him found.
  - eexists. split; [reflexivity|]. right. split; [reflexivity|]. intros e [].
  - pose proof Hsh as (Hnk & Hs0 & Hs1).
    pose proof Hbr as (E0 & E1 & B0 & B1).
    pose proof Him as (I & I0 & I1).
    pose proof (lpm_bitwise_range Hnk Hq) as (R0 & R1 & R2).
    pose proof (matches_lpm Hmpl Hnk Hq) as Hml.
    pose proof (@all_keys_entries V _ _ E0) as F0.
    pose proof (@all_keys_entries V _ _ E1) as F1.
    pose proof (@all_keys_entries V _ _ Hsh) as Fs.
    assert (Hn0 : 0 <= PrefixLen nk <= maxPrefixLen t) by apply Hnk.
    cbn [Lookup_loop]. rewrite (lpm_node t Hq Hnk). cbn [bind].
    set (m := lpm_bitwise nk q) in *.
    destruct (Z.eqb_spec m (maxPrefixLen t)) as [Emax|Nmax].
    { (* full-length match *)
      assert (Ei : im = false).
      { destruct im; [|reflexivity]. exfalso.
        destruct (I eq_refl) as (N0 & _).
        destruct c0 as [|k0 a0 b0 v0 i0]; [congruence|].
        destruct E0 as ((L0 & _) & _). destruct Hs0 as ((Hk0 & _) & _). lia. }
      subst im. eexists. split; [reflexivity|]. left. exists nk, v.
      split; [cbn [entries]; rewrite !in_app_iff; cbn; auto|].
      split; [apply Hml; lia|]. split; [reflexivity|].
      intros e He _. destruct (Fs e He) as (Hk & _). lia. }
    destruct (Z.ltb_spec m (PrefixLen nk)) as [Hlt|Hge].
    { (* the query leaves the node's prefix *)
      eexists. split; [reflexivity|]. right. split; [reflexivity|].
      intros e He Hm.
      apply (entries_Node_iff nk c0 c1 v im e (or_introl eq_refl)) in He.
      cbn [Z.eqb] in He. destruct He as [He|[(_ & ->)|He]].
      - destruct (extends_matches (proj1 Hn0) (F0 e He) Hm) as (Hx & _).
        apply Hml in Hx. lia.
      - apply Hml in Hm. lia.
      - destruct (extends_matches (proj1 Hn0) (F1 e He) Hm) as (Hx & _).
        apply Hml in Hx. lia. }
    assert (Em : m = PrefixLen nk) by lia.
    assert (Hmn : matches nk q) by (apply Hml; exact Em).
    rewrite (extractBit_key Hcfg Hq) by lia. cbn [bind].
    set (b := kbit (Data q) (PrefixLen nk)).
    pose proof (kbit_01 (Data q) (PrefixLen nk)) as Hb01. fold b in Hb01.
    set (cb := if b =? 0 then c0 else c1).
    set (co := if b =? 0 then c1 else c0).
    assert (Hcb : shape t cb /\ branching cb /\ im_two cb
                  /\ all_keys (extends nk b) cb).
    { subst cb. destruct Hb01 as [-> | ->]; cbn; auto. }
    destruct Hcb as (Scb & Bcb & Icb & Ecb).
    assert (Hco : forall e, In e (entries co) -> ~ matches (fst e) q).
    { intros e He Hm. subst co.
      destruct Hb01 as [Hb | Hb]; rewrite Hb in He; cbn in He.
      - destruct (extends_matches (proj1 Hn0) (F1 e He) Hm) as (_ & Hx).
        fold b in Hx. lia.
      - destruct (extends_matches (proj1 Hn0) (F0 e He) Hm) as (_ & Hx).
        fold b in Hx. lia. }
    pose proof (@all_keys_entries V _ _ Ecb) as Fcb.
    assert (IH : forall fd, exists res, Lookup_loop t q cb fd = Ok res /\
      ((exists k v0, In (k, v0) (entries cb) /\ matches k q /\ res = (v0, true)
                    /\ forall e, In e (entries cb) -> matches (fst e) q ->
                                 PrefixLen (fst e) <= PrefixLen k)
       \/ (res = Lookup_found fd
           /\ forall e, In e (entries cb) -> ~ matches (fst e) q))).
    { subst cb. destruct (b =? 0); [apply IH0|apply IH1]; assumption. }
    destruct (IH (if negb im then Node nk c0 c1 v im else found))
      as (res & Eres & Hres).
    exists res. split; [exact Eres|].
    destruct Hres as [(k & v0 & Hin & Hmk & -> & Hmax)|(-> & Hnone)].
    + left. exists k, v0.
      split; [apply (entries_Node_iff nk c0 c1 v im (k, v0) Hb01); left; exact Hin|].
      split; [exact Hmk|]. split; [reflexivity|].
      intros e He Hm. apply (entries_Node_iff nk c0 c1 v im e Hb01) in He.
      destruct He as [He|[(_ & ->)|He]].
      * apply Hmax; assumption.
      * cbn [fst]. destruct (Fcb _ Hin) as (Hx & _). cbn [fst] in Hx. lia.
      * exfalso. exact (Hco e He Hm).
    + destruct im; cbn [negb].
      * right. split; [reflexivity|].
        intros e He Hm. apply (entries_Node_iff nk c0 c1 v true e Hb01) in He.
        destruct He as [He|[(Hf & _)|He]]; [exact (Hnone e He Hm)|discriminate|].
        exact (Hco e He Hm).
      * left. exists nk, v.
        split; [apply (entries_Node_iff nk c0 c1 v false (nk, v) Hb01); auto|].
        split; [exact Hmn|]. split; [reflexivity|].
        intros e He Hm. apply (entries_Node_iff nk c0 c1 v false e Hb01) in He.
        destruct He as [He|[(_ & ->)|He]].
        -- exfalso. exact (Hnone e He Hm).
        -- cbn [fst]. lia.
        -- exfalso. exact (Hco e He Hm).
Qed.
End LookupFacts.

(** ** Update on a trie that satisfies the invariants *)

Section UpdateFacts.
Variable V : Type.
Variables (ks mpl : Z).
Hypothesis Hmpl : mpl = 8 * ks.
Variable key : Key.
Variable val : option V.
Hypothesis Hkey : key_ok ks mpl key.
Implicit Types (n : lpmTrieNode V).

Lemma branching_root_prefix nk (c0 c1 : lpmTrieNode V) v im :
  branching (Node nk c0 c1 v im) ->
  all_keys (fun d => PrefixLen nk <= PrefixLen d
                     /\ prefix_agree (Data nk) (Data d) (PrefixLen nk))
           (Node nk c0 c1 v im).
Proof.
  intros (E0 & E1 & _ & _). cbn [all_keys].
  split; [split; [lia|apply prefix_agree_refl]|]. split.
  - apply (@all_keys_impl V (extends nk 0) _ c0); [|exact E0].
    intros d (L & A & _); split; [lia|exact A].
  - apply (@all_keys_impl V (extends nk 1) _ c1); [|exact E1].
    intros d (L & A & _); split; [lia|exact A].
Qed.

Lemma entries_nonempty n :
  im_two n -> n <> nilNode -> exists e, In e (entries n).
Proof.
  induction n as [|k c0 IH0 c1 IH1 v im]; intros Him Hn; [congruence|].
  destruct Him as (I & I0 & _). destruct im.
  - destruct (I eq_refl) as (N0 & _). destruct (IH0 I0 N0) as (e & He).
    exists e. cbn [entries]. rewrite in_app_iff. auto.
  - exists (k, v). cbn [entries]. rewrite !in_app_iff. cbn. auto.
Qed.

(** [Update] does not fork above a subtree that holds the key. *)
Lemma equiv_no_fork nk (c0 c1 : lpmTrieNode V) v im e :
  all_keys (key_ok ks mpl) (Node nk c0 c1 v im) ->
  branching (Node nk c0 c1 v im) ->
  In e (entries (Node nk c0 c1 v im)) -> key_equiv (fst e) key ->
  PrefixLen nk <> lpm_bitwise nk key -> False.
Proof.
  intros Hsh Hbr He (Hp & Ha) Hne. pose proof Hsh as (Hnk & _).
  pose proof (lpm_bitwise_range Hnk Hkey) as (R0 & R1 & R2).
  pose proof (@all_keys_entries V _ _ (branching_root_prefix Hbr) e He) as (L & A).
  pose proof (@lpm_bitwise_max ks mpl Hmpl nk key Hnk Hkey (PrefixLen nk)) as Hx.
  destruct Hnk as [Hn1 _].
  assert (PrefixLen nk <= lpm_bitwise nk key); [|lia].
  apply Hx; try lia.
  eapply prefix_agree_trans; [exact A|exact Ha| |]; lia.
Qed.

(** Where the key is stored or no stored key extends it, the fork point
    lies inside the new key. *)
Lemma fork_inside nk (c0 c1 : lpmTrieNode V) v im :
  all_keys (key_ok ks mpl) (Node nk c0 c1 v im) ->
  branching (Node nk c0 c1 v im) -> im_two (Node nk c0 c1 v im) ->
  stored_or_new key (Node nk c0 c1 v im) ->
  PrefixLen nk <> lpm_bitwise nk key ->
  lpm_bitwise nk key < PrefixLen key.
Proof.
  intros Hsh Hbr Him Hnp Hne. pose proof Hsh as (Hnk & _).
  pose proof (lpm_bitwise_range Hnk Hkey) as (R0 & R1 & R2).
  destruct (Z_lt_ge_dec (lpm_bitwise nk key) (PrefixLen key)) as [|Hge];
    [assumption|exfalso].
  destruct Hnp as [(e & He & Hq)|Hnp].
  { eapply equiv_no_fork; eassumption. }
  destruct (entries_nonempty Him) as (e & He); [discriminate|].
  pose proof (@all_keys_entries V _ _ (branching_root_prefix Hbr) e He) as (L & A).
  apply (Hnp e He). split; [lia|].
  assert (Em : lpm_bitwise nk key = PrefixLen key) by lia.
  eapply prefix_agree_trans;
    [apply prefix_agree_sym, (lpm_bitwise_agree nk key)|exact A| |]; lia.
Qed.

Lemma extends_equiv nk b d :
  PrefixLen nk = lpm_bitwise nk key -> PrefixLen nk = PrefixLen key ->
  extends nk b d -> extends key b d.
Proof.
  intros Em Ep (L & A & B). split; [lia|]. rewrite <- Ep. split; [|exact B].
  eapply prefix_agree_trans;
    [apply prefix_agree_sym, (lpm_bitwise_agree nk key)|exact A| |]; lia.
Qed.

Lemma Update_rel_branching n n' u r :
  Update_rel mpl key val n n' u r ->
  all_keys (key_ok ks mpl) n -> branching n -> im_two n ->
  stored_or_new key n ->
  branching n'.
Proof.
  intros Hrel. induction Hrel as [|nk c0 c1 v im Em Ep|nk c0 c1 v im Hne
                                  |nk c0 c1 v im c' u r Em Np Nx Hrel IH];
    intros Hsh Hbr Him Hnp.
  - cbn. auto.
  - destruct Hbr as (E0 & E1 & B0 & B1). cbn [branching].
    split; [|split; [|auto]].
    + apply (@all_keys_impl V (extends nk 0) _ c0); [|exact E0].
      intros d. apply extends_equiv; assumption.
    + apply (@all_keys_impl V (extends nk 1) _ c1); [|exact E1].
      intros d. apply extends_equiv; assumption.
  - pose proof Hsh as (Hnk & _).
    pose proof (lpm_bitwise_range Hnk Hkey) as (R0 & R1 & R2).
    pose proof (fork_inside Hsh Hbr Him Hnp Hne) as Hin.
    pose proof (@lpm_bitwise_differ ks mpl Hmpl nk key Hnk Hkey
                  ltac:(lia) ltac:(lia)) as Hdf.
    pose proof (kbit_01 (Data nk) (lpm_bitwise nk key)) as Hn01.
    pose proof (kbit_01 (Data key) (lpm_bitwise nk key)) as Hk01.
    cbn zeta. set (m := lpm_bitwise nk key) in *.
    assert (Hold : forall b, kbit (Data nk) m = b ->
                   all_keys (extends (mkKey m (Data key)) b) (Node nk c0 c1 v im)).
    { intros b Hb.
      apply (@all_keys_impl V _ _ (Node nk c0 c1 v im)) with (2 := branching_root_prefix Hbr).
      intros d (L & A). split; [cbn; lia|]. cbn [PrefixLen Data]. split.
      - eapply prefix_agree_trans;
          [apply prefix_agree_sym, (lpm_bitwise_agree nk key)|exact A| |];
          fold m; lia.
      - rewrite <- Hb. symmetry. apply A. lia. }
    assert (Hnew : extends (mkKey m (Data key)) (kbit (Data key) m) key).
    { split; [cbn; lia|]. split; [apply prefix_agree_refl|reflexivity]. }
    assert (Bn : branching (newLpmTrieNode key val)) by (cbn; auto).
    destruct (Z.eqb_spec (kbit (Data key) m) 0) as [E0|N0]; cbn [negb branching].
    + rewrite E0 in Hnew.
      split; [cbn; auto|]. split; [apply Hold; lia|]. split; [exact Bn|exact Hbr].
    + assert (E1 : kbit (Data key) m = 1) by lia. rewrite E1 in Hnew.
      split; [apply Hold; lia|]. split; [cbn; auto|]. split; [exact Hbr|exact Bn].
  - pose proof Hsh as (Hnk & Hs0 & Hs1).
    pose proof Hbr as (E0 & E1 & B0 & B1).
    pose proof Him as (_ & I0 & I1).
    pose proof (lpm_bitwise_range Hnk Hkey) as (R0 & R1 & R2).
    set (b := kbit (Data key) (PrefixLen nk)) in *.
    pose proof (kbit_01 (Data key) (PrefixLen nk)) as Hb01. fold b in Hb01.
    assert (Hkb : extends nk b key).
    { split; [lia|]. split; [|reflexivity].
      intros i Hi. apply lpm_bitwise_agree. lia. }
    assert (Hall : forall c, all_keys (key_ok ks mpl) c ->
                     all_keys (extends nk b) c ->
                     Update_rel mpl key val c c' u r ->
                     all_keys (extends nk b) c').
    { intros c Hc1 Hc2 Hr.
      apply (@all_keys_impl V (fun d => key_ok ks mpl d /\ extends nk b d) _ c');
        [tauto|].
      apply (@Update_rel_all_keys V _ mpl key val c c' u r); [auto| |exact Hr|].
      - intros ck (Hck & Hek). split; [apply imkey_ok; assumption|].
        split; [cbn; exact (extends_lpm Hmpl Hnk Hck Hkey Hek Hkb)|].
        cbn [PrefixLen Data]. destruct Hkb as (_ & A & B). auto.
      - apply all_keys_and; assumption. }
    cbn [child set_child] in *.
    destruct Hb01 as [Hb | Hb]; rewrite Hb in *; cbn [Z.eqb] in *; cbn [branching].
    + split; [apply (Hall c0); assumption|]. split; [assumption|].
      split; [|assumption]. apply IH; try assumption.
      destruct Hnp as [(e & He & Hq)|Hnp]; [left|right].
      * exists e. split; [|exact Hq].
        apply (entries_Node_iff nk c0 c1 v im e (or_introl eq_refl)) in He.
        cbn [Z.eqb] in He. destruct He as [He|[(_ & ->)|He]]; [exact He| |].
        -- destruct Hq as (Hp & _). cbn [fst] in Hp. lia.
        -- destruct (extends_not_equiv (proj1 (proj1 Hnk))
                       (@all_keys_entries V _ _ E1 e He) Hq) as (_ & _ & Hy).
           fold b in Hy. lia.
      * intros e He. apply Hnp. cbn [entries]. rewrite in_app_iff. auto.
    + split; [assumption|]. split; [apply (Hall c1); assumption|].
      split; [assumption|]. apply IH; try assumption.
      destruct Hnp as [(e & He & Hq)|Hnp]; [left|right].
      * exists e. split; [|exact Hq].
        apply (entries_Node_iff nk c0 c1 v im e (or_intror eq_refl)) in He.
        cbn [Z.eqb] in He. destruct He as [He|[(_ & ->)|He]]; [exact He| |].
        -- destruct Hq as (Hp & _). cbn [fst] in Hp. lia.
        -- destruct (extends_not_equiv (proj1 (proj1 Hnk))
                       (@all_keys_entries V _ _ E0 e He) Hq) as (_ & _ & Hy).
           fold b in Hy. lia.
      * intros e He. apply Hnp. cbn [entries]. rewrite !in_app_iff. auto.
Qed.
Lemma Update_rel_entries n n' u r :
  Update_rel mpl key val n n' u r ->
  all_keys (key_ok ks mpl) n -> branching n ->
  forall e, In e (entries n') <->
            e = (key, val) \/ (In e (entries n) /\ ~ key_equiv (fst e) key).
Proof.
  intros Hrel. induction Hrel as [|nk c0 c1 v im Em Ep|nk c0 c1 v im Hne
                                  |nk c0 c1 v im c' u r Em Np Nx Hrel IH];
    intros Hsh Hbr e.
  - cbn. intuition congruence.
  - pose proof Hsh as (Hnk & _). pose proof Hbr as (E0 & E1 & _ & _).
    pose proof (@all_keys_entries V _ _ E0) as F0.
    pose proof (@all_keys_entries V _ _ E1) as F1.
    assert (Hn0 : 0 <= PrefixLen nk) by apply Hnk.
    assert (Hq : key_equiv nk key).
    { split; [exact Ep|]. intros i Hi. apply lpm_bitwise_agree. lia. }
    rewrite (entries_Node_iff key c0 c1 val false e (or_introl eq_refl)).
    rewrite (entries_Node_iff nk c0 c1 v im e (or_introl eq_refl)).
    cbn [Z.eqb]. split.
    + intros [He|[(_ & ->)|He]]; [right|left; reflexivity|right].
      * split; [auto|]. intros Hx.
        destruct (extends_not_equiv Hn0 (F0 e He) Hx). lia.
      * split; [auto|]. intros Hx.
        destruct (extends_not_equiv Hn0 (F1 e He) Hx). lia.
    + intros [->|([He|[(_ & ->)|He]] & Hx)]; auto.
      exfalso. exact (Hx Hq).
  - pose proof Hsh as (Hnk & _).
    pose proof (lpm_bitwise_range Hnk Hkey) as (R0 & R1 & R2).
    pose proof (@all_keys_entries V _ _ (branching_root_prefix Hbr)) as Fr.
    assert (Hfork : forall x, In e (entries (Node nk c0 c1 v im)) ->
                    key_equiv (fst e) key -> x).
    { intros x He Hq. exfalso. eapply equiv_no_fork; eassumption. }
    cbn zeta. remember (Node nk c0 c1 v im) as nd eqn:End.
    assert (Hnew : forall x, In x (entries (newLpmTrieNode key val))
                             <-> x = (key, val)).
    { intros x. cbn. intuition congruence. }
    destruct (negb _); cbn [entries]; rewrite !in_app_iff, Hnew; cbn [In]; split.
    + intros [He|[[]| ->]]; [right|left; reflexivity].
      split; [exact He|]. intros Hx. exact (Hfork _ He Hx).
    + intros [->|(He & _)]; auto.
    + intros [ ->|[[]|He]]; [left; reflexivity|right].
      split; [exact He|]. intros Hx. exact (Hfork _ He Hx).
    + intros [->|(He & _)]; auto.
  - pose proof Hsh as (Hnk & Hs0 & Hs1).
    pose proof Hbr as (E0 & E1 & B0 & B1).
    pose proof (@all_keys_entries V _ _ E0) as F0.
    pose proof (@all_keys_entries V _ _ E1) as F1.
    assert (Hn0 : 0 <= PrefixLen nk) by apply Hnk.
    set (b := kbit (Data key) (PrefixLen nk)) in *.
    pose proof (kbit_01 (Data key) (PrefixLen nk)) as Hb01. fold b in Hb01.
    assert (Hown : ~ key_equiv nk key) by (intros (Hp & _); lia).
    cbn [child set_child] in *.
    destruct Hb01 as [Hb | Hb]; rewrite Hb in *; cbn [Z.eqb] in *.
    + rewrite (entries_Node_iff nk c' c1 v im e (or_introl eq_refl)).
      rewrite (entries_Node_iff nk c0 c1 v im e (or_introl eq_refl)).
      cbn [Z.eqb]. rewrite (IH Hs0 B0 e). split.
      * intros [[->|(He & Hx)]|[(Hi & ->)|He]].
        -- left. reflexivity.
        -- right. split; [left; exact He|exact Hx].
        -- right. split; [right; left; split; auto|exact Hown].
        -- right. split; [right; right; exact He|]. intros Hx.
           destruct (extends_not_equiv Hn0 (F1 e He) Hx) as (_ & _ & Hy).
           fold b in Hy. lia.
      * intros [->|([He|[(Hi & ->)|He]] & Hx)].
        -- left. left. reflexivity.
        -- left. right. split; assumption.
        -- right. left. auto.
        -- right. right. exact He.
    + rewrite (entries_Node_iff nk c0 c' v im e (or_intror eq_refl)).
      rewrite (entries_Node_iff nk c0 c1 v im e (or_intror eq_refl)).
      cbn [Z.eqb]. rewrite (IH Hs1 B1 e). split.
      * intros [[->|(He & Hx)]|[(Hi & ->)|He]].
        -- left. reflexivity.
        -- right. split; [left; exact He|exact Hx].
        -- right. split; [right; left; split; auto|exact Hown].
        -- right. split; [right; right; exact He|]. intros Hx.
           destruct (extends_not_equiv Hn0 (F0 e He) Hx) as (_ & _ & Hy).
           fold b in Hy. lia.
      * intros [->|([He|[(Hi & ->)|He]] & Hx)].
        -- left. left. reflexivity.
        -- left. right. split; assumption.
        -- right. left. auto.
        -- right. right. exact He.
Qed.
End UpdateFacts.


(** ** Sequences of updates *)

Section SeqFacts.
Variable V : Type.
Implicit Types (us : list (Key * option V)) (t : lpmTrie V).

Lemma run_ops_app (l1 : list (op V)) : forall t l2,
  run_ops t (l1 ++ l2) = (t' <- run_ops t l1 ;; run_ops t' l2).
Proof.
  induction l1 as [|o l1 IH]; intros t l2; [reflexivity|].
  cbn [app run_ops]. destruct (apply_op t o) as [t1|]; [|reflexivity].
  cbn [bind]. apply IH.
Qed.

Lemma prefix_agree_dec a b n : prefix_agree a b n \/ ~ prefix_agree a b n.
Proof.
  destruct (Z_lt_ge_dec n 0) as [Hneg|Hpos].
  - left. intros i Hi. lia.
  - apply (natlike_ind (fun n => prefix_agree a b n \/ ~ prefix_agree a b n));
      [| |lia].
    + left. intros i Hi. lia.
    + intros x Hx [IH|IH]; unfold Z.succ.
      * destruct (Z.eq_dec (kbit a x) (kbit b x)) as [E|N].
        -- left. intros i Hi. destruct (Z.eq_dec i x) as [->|]; [exact E|].
           apply IH. lia.
        -- right. intros H. apply N, H. lia.
      * right. intros H. apply IH. intros i Hi. apply H. lia.
Qed.

Lemma key_equiv_dec a b : key_equiv a b \/ ~ key_equiv a b.
Proof.
  destruct (Z.eq_dec (PrefixLen a) (PrefixLen b)) as [E|N].
  - destruct (prefix_agree_dec (Data a) (Data b) (PrefixLen a)) as [H|H].
    + left. split; assumption.
    + right. intros (_ & Hx). exact (H Hx).
  - right. intros (Hx & _). exact (N Hx).
Qed.

Lemma key_equiv_refl a : key_equiv a a.
Proof. split; [reflexivity|apply prefix_agree_refl]. Qed.

Lemma current_nil e : ~ current (@nil (Key * option V)) e.
Proof. intros (l1 & l2 & H & _). destruct l1; discriminate. Qed.

Lemma current_snoc us u e :
  current (us ++ [u]) e <->
  e = u \/ (current us e /\ ~ key_equiv (fst u) (fst e)).
Proof.
  split.
  - intros (l1 & l2 & Heq & Hf).
    destruct l2 as [|x l2'] using rev_ind.
    + apply app_inj_tail in Heq. destruct Heq as (_ & <-). left. reflexivity.
    + clear IHl2'. rewrite app_comm_cons, app_assoc in Heq.
      apply app_inj_tail in Heq. destruct Heq as (-> & ->).
      apply Forall_app in Hf. destruct Hf as (Hf & Hx).
      right. split; [exists l1, l2'; auto|]. inversion Hx; assumption.
  - intros [->|((l1 & l2 & -> & Hf) & Hn)].
    + exists us, []. split; [reflexivity|constructor].
    + exists l1, (l2 ++ [u]). split; [rewrite <- app_assoc; reflexivity|].
      apply Forall_app. split; [exact Hf|]. constructor; [exact Hn|constructor].
Qed.

Lemma current_In us e : current us e -> In e us.
Proof. intros (l1 & l2 & -> & _). apply in_elt. Qed.

Lemma current_rep us : forall u,
  In u us -> exists e, current us e /\ key_equiv (fst u) (fst e).
Proof.
  induction us as [|x us IH] using rev_ind; intros u Hu; [destruct Hu|].
  apply in_app_iff in Hu. destruct Hu as [Hu|[<-|[]]].
  - destruct (IH u Hu) as (e & He & Hq).
    destruct (key_equiv_dec (fst x) (fst e)) as [Hx|Hx].
    + exists x. split; [apply current_snoc; left; reflexivity|].
      eapply key_equiv_trans; [exact Hq|apply key_equiv_sym, Hx].
    + exists e. split; [apply current_snoc; right; split; assumption|exact Hq].
  - exists x. split; [apply current_snoc; left; reflexivity|apply key_equiv_refl].
Qed.

Lemma no_late_prefix_snoc us : forall earlier u,
  no_late_prefix_from earlier (us ++ [u]) ->
  no_late_prefix_from earlier us
  /\ ((exists k', (In k' (map fst us) \/ In k' earlier) /\ key_equiv k' (fst u))
      \/ forall k', In k' (map fst us) \/ In k' earlier ->
                    ~ proper_prefix (fst u) k').
Proof.
  induction us as [|x us IH]; intros earlier u H.
  - cbn in H. destruct H as (Hf & _). split; [exact I|].
    destruct Hf as [(k' & Hk & Hq)|Hf]; [left|right].
    + exists k'. auto.
    + intros k' [[]|Hk]. apply Hf, Hk.
  - cbn [app no_late_prefix_from] in H. destruct H as (Hx & Hr).
    destruct (IH _ _ Hr) as (H1 & H2). split; [split; assumption|].
    destruct H2 as [(k' & Hk & Hq)|H2]; [left|right].
    + exists k'. split; [|exact Hq]. cbn [map In] in *. tauto.
    + intros k' Hk. apply H2. cbn [map In] in *. tauto.
Qed.

Lemma tracks_Update us t k v :
  tracks us t -> isValidKey t k = true ->
  ((exists u', In u' us /\ key_equiv (fst u') k)
   \/ forall u', In u' us -> ~ proper_prefix k (fst u')) ->
  exists t' u, Update t k v = Ok (t', u) /\ tracks (us ++ [(k, v)]) t'
               /\ maxPrefixLen t' = maxPrefixLen t /\ keySize t' = keySize t.
Proof.
  intros (Hinv & Hbr & Hent) Hv Hnp.
  pose proof Hinv as (Hcfg & Hsh & Him & Hsz).
  destruct (Update_spec k v Hcfg Hv Hsh) as (n' & u & r & Hrel & Heq).
  destruct (Update_inv k v Hinv Hv) as (t' & u' & Heq' & Hinv' & Hm & Hk).
  rewrite Heq in Heq'. injection Heq' as <- <-.
  eexists _, u. split; [exact Heq|]. split; [|split; [exact Hm|exact Hk]].
  apply isValidKey_ok in Hv. destruct Hcfg as (_ & Hmpl).
  split; [exact Hinv'|]. cbn [root]. split.
  - apply (Update_rel_branching Hmpl Hv Hrel Hsh Hbr Him).
    destruct Hnp as [(u' & Hu' & Hq)|Hnp]; [left|right].
    + destruct (current_rep us u' Hu') as (e & He & Hqe).
      exists e. split; [apply Hent, He|].
      eapply key_equiv_trans; [apply key_equiv_sym, Hqe|exact Hq].
    + intros e He. apply Hnp, current_In, Hent, He.
  - intros e. rewrite (Update_rel_entries Hmpl Hv Hrel Hsh Hbr e), current_snoc.
    rewrite Hent. cbn [fst]. split.
    + intros [->|(Hc & Hn)]; [left; reflexivity|right].
      split; [exact Hc|]. intros Hx. apply Hn, key_equiv_sym, Hx.
    + intros [->|(Hc & Hn)]; [left; reflexivity|right].
      split; [exact Hc|]. intros Hx. apply Hn, key_equiv_sym, Hx.
Qed.

Lemma run_updates_tracks t0 :
  tracks [] t0 -> forall us,
  Forall (fun u => isValidKey t0 (fst u) = true) us ->
  no_late_prefix us ->
  exists t, run_ops t0 (update_ops us) = Ok t /\ tracks us t
            /\ maxPrefixLen t = maxPrefixLen t0 /\ keySize t = keySize t0.
Proof.
  intros H0 us. induction us as [|[k v] us IH] using rev_ind; intros Hv Hnp.
  - exists t0. cbn. auto.
  - apply Forall_app in Hv. destruct Hv as (Hv & Hk).
    inversion Hk as [|? ? Hk1 _]; subst. cbn [fst] in Hk1.
    destruct (no_late_prefix_snoc _ _ _ Hnp) as (Hnp1 & Hnp2).
    destruct (IH Hv Hnp1) as (t1 & Hrun & Htr & Hm & Hs).
    assert (Hk2 : isValidKey t1 k = true)
      by (unfold isValidKey in *; rewrite Hm, Hs; exact Hk1).
    destruct (@tracks_Update us t1 k v Htr Hk2) as (t' & u & Hup & Htr' & Hm' & Hs').
    { cbn [fst] in Hnp2. destruct Hnp2 as [(k' & [Hk'|[]] & Hq)|Hnp2]; [left|right].
      - apply in_map_iff in Hk'. destruct Hk' as (u' & <- & Hu'). eauto.
      - intros u' Hu'. apply Hnp2. left. apply in_map, Hu'. }
    exists t'. unfold update_ops. rewrite map_app, run_ops_app.
    fold (update_ops us). rewrite Hrun. cbn [bind map run_ops apply_op fst snd].
    rewrite Hup. cbn [bind fst].
    split; [reflexivity|]. split; [exact Htr'|]. split; congruence.
Qed.
End SeqFacts.

(** ** Claims on Lookup and on the structure *)

Section Claims3.
Variable V : Type.

(** Longest prefix match on the sequences of Update calls with valid keys
    in which a key that is a proper prefix of a key updated before it has
    itself been updated before: no call panics, and for every valid query
    [Lookup] returns the current value of the inserted key with the
    greatest prefix length among the inserted keys that are bit-prefixes of
    the query; it returns [(nil, false)] if no inserted key qualifies. *)
Theorem Lookup_longest_prefix mpl (t0 : lpmTrie V) us q :
  New V mpl = inl t0 ->
  Forall (fun u => isValidKey t0 (fst u) = true) us ->
  no_late_prefix us ->
  isValidKey t0 q = true ->
  exists t res, run_ops t0 (update_ops us) = Ok t
                /\ Lookup t q = Ok res
                /\ lpm_result us q res.
Proof.
  intros Hnew Hv Hnp Hq.
  destruct (@New_ok V mpl t0 Hnew) as (Hinv0 & _ & Hr0).
  assert (H0 : tracks [] t0).
  { split; [exact Hinv0|]. rewrite Hr0. split; [exact I|].
    intros e. split; [intros []|]. intros H. exact (current_nil H). }
  destruct (run_updates_tracks H0 Hv Hnp) as (t & Hrun & Htr & Hm & Hs).
  destruct Htr as (Hinv & Hbr & Hent).
  pose proof Hinv as (Hcfg & Hsh & Him & _).
  assert (Hq' : isValidKey t q = true)
    by (unfold isValidKey in *; rewrite Hm, Hs; exact Hq).
  pose proof (proj1 (isValidKey_ok t q) Hq') as Hqk.
  destruct (Lookup_loop_spec Hcfg Hqk (root t) Hsh Hbr Him nilNode)
    as (res & Eres & Hres).
  exists t, res. split; [exact Hrun|]. split.
  { unfold Lookup, checkKey. rewrite Hq'. exact Eres. }
  assert (Hrep : forall u, In u us -> matches (fst u) q ->
                 exists e, In e (entries (root t)) /\ matches (fst e) q
                           /\ PrefixLen (fst e) = PrefixLen (fst u)).
  { intros u Hu Hmu. destruct (current_rep us u Hu) as (e & He & Heq).
    exists e. split; [apply Hent, He|].
    split; [exact (matches_equiv Heq Hmu)|]. destruct Heq as (Hp & _). lia. }
  destruct Hres as [(k & v & Hin & Hmk & -> & Hmax)|(-> & Hnone)].
  - left. exists k. cbn [fst snd].
    split; [apply Hent, Hin|]. split; [reflexivity|]. split; [exact Hmk|].
    intros u Hu Hmu. destruct (Hrep u Hu Hmu) as (e & He & Hme & Hpe).
    rewrite <- Hpe. exact (Hmax e He Hme).
  - right. split; [reflexivity|].
    intros u Hu Hmu. destruct (Hrep u Hu Hmu) as (e & He & Hme & _).
    exact (Hnone e He Hme).
Qed.
End Claims3.

Lemma Lookup_longest_prefix_witness :
  exists t res,
    run_ops (empty32 Z)
            (update_ops [(k8, Some 1); (k32, Some 2); (k8, Some 3)]) = Ok t
    /\ Lookup t k32 = Ok res
    /\ lpm_result [(k8, Some 1); (k32, Some 2); (k8, Some 3)] k32 res.
Proof.
  apply (@Lookup_longest_prefix Z 32 (empty32 Z)).
  - reflexivity.
  - repeat constructor.
  - cbn. split; [right; intros k' []|].
    split; [right; intros k' [<-|[]] (H & _); cbn in H; lia|].
    split; [left; exists k8|exact I].
    split; [right; left; reflexivity|].
    split; [reflexivity|intros i Hi; reflexivity].
  - reflexivity.
Defined.

Example run_ops_slip : run_ops (empty32 Z) ops_slip = Ok trie_slip.
Proof. vm_compute. reflexivity. Qed.

(** C1 on the code: after [Update(10.0.0.1/32, 1)] and
    [Update(10.0.0.0/8, 2)] both keys are bit-prefixes of the query
    10.0.0.1/32 and the /32 key is the longest, so longest prefix match
    answers [(1, true)]; [Lookup] answers [(2, true)], the value of the
    /8 key, which is not the longest match. *)
Theorem prefix_insert_breaks_lookup :
  run_ops (empty32 Z) (update_ops [(k32, Some 1); (k8, Some 2)]) = Ok trie_slip
  /\ isValidKey trie_slip k32 = true
  /\ Lookup trie_slip k32 = Ok (Some 2, true)
  /\ lpm_result [(k32, Some 1); (k8, Some 2)] k32 (Some 1, true)
  /\ ~ lpm_result [(k32, Some 1); (k8, Some 2)] k32 (Some 2, true).
Proof.
  split; [vm_compute; reflexivity|]. split; [reflexivity|].
  split; [vm_compute; reflexivity|].
  assert (Hm : matches k32 k32) by (split; [lia|intros i Hi; reflexivity]).
  split.
  - left. exists k32. cbn [fst snd]. split.
    { exists [], [(k8, Some 2)]. split; [reflexivity|].
      constructor; [|constructor]. intros (H & _). cbn in H. lia. }
    split; [reflexivity|]. split; [exact Hm|].
    intros u [<-|[<-|[]]] _; cbn; lia.
  - intros [(k & Hc & _ & _ & Hmax)|(H & _)]; [|discriminate].
    cbn [fst] in Hc. apply current_In in Hc.
    destruct Hc as [Hc|[Hc|[]]]; [discriminate|]. injection Hc as <-.
    specialize (Hmax (k32, Some 1) (or_introl eq_refl) Hm). cbn in Hmax. lia.
Qed.

(** C2 on the code: inserting 10.0.0.0/8 after 10.0.0.1/32 makes the root
    an intermediate node of prefix length 8 whose child 0 is the new entry,
    of prefix length 8 as well: the prefix length does not grow from
    that parent to its child, and the lookup of 10.0.0.1/32 now answers
    with the /8 entry. *)
Theorem prefix_insert_breaks_increasing :
  run_ops (empty32 Z) ops_slip = Ok trie_slip
  /\ increasing (root trie_slip) = false
  /\ Lookup trie_slip k32 = Ok (Some 2, true).
Proof. repeat split; vm_compute; reflexivity. Qed.

(** C3 on the code: 10.0.0.0/8 is a valid key that is not present in the
    trie reached by inserting 10.0.0.1/32; after [Update] of it, [Delete]
    of the same key is rejected, [Size()] stays at 2 instead of returning
    to 1, and the lookup of 10.0.0.1/32 has changed from 1 to 2. *)
Theorem prefix_insert_not_undone :
  run_ops (empty32 Z) [OpUpdate k32 (Some 1)] = Ok trie_k32
  /\ isValidKey trie_k32 k8 = true
  /\ Lookup trie_k32 k8 = Ok (None, false)
  /\ Update trie_k32 k8 (Some 2) = Ok (trie_slip, false)
  /\ Delete trie_slip k8 = Ok (trie_slip, false)
  /\ Size trie_k32 = 1 /\ Size trie_slip = 2
  /\ Lookup trie_k32 k32 = Ok (Some 1, true)
  /\ Lookup trie_slip k32 = Ok (Some 2, true).
Proof. repeat split; vm_compute; reflexivity. Qed.

(** ** Where the prefix length does grow along every path

    Apart from the insertion of a new prefix above a stored longer key,
    the writes keep the branching invariant, and with it the growth of the
    prefix length from parent to child. *)

Section IncreasingFacts.
Variable V : Type.
Implicit Types (n : lpmTrieNode V) (t : lpmTrie V).

Lemma extends_longer k b n :
  all_keys (extends k b) n -> longer_than (PrefixLen k) n = true.
Proof.
  destruct n as [|k' c0 c1 v im]; [reflexivity|].
  intros ((L & _) & _). unfold longer_than. cbn. apply Z.ltb_lt, L.
Qed.

Lemma branching_increasing n : branching n -> increasing n = true.
Proof.
  induction n as [|k c0 IH0 c1 IH1 v im]; [reflexivity|].
  intros (E0 & E1 & B0 & B1). cbn [increasing].
  rewrite (@extends_longer k 0 c0 E0), (@extends_longer k 1 c1 E1), IH0, IH1
    by assumption.
  reflexivity.
Qed.

Lemma branching_child n b : branching n -> branching (child n b).
Proof.
  destruct n as [|k c0 c1 v im]; cbn [child branching]; [trivial|].
  intros (_ & _ & B0 & B1). destruct (b =? 0); assumption.
Qed.

Lemma Delete_rel_branching key pim n o :
  Delete_rel key pim n o -> branching n ->
  match o with DReplaced n' => branching n' | _ => True end.
Proof.
  intros Hrel. induction Hrel as [| | | | pim nk c0 c1 v Em Ep Hc Hp
                                  | pim nk c0 c1 v im o Em Np Hrel IH];
    intros Hbr; try exact I.
  - exact Hbr.
  - destruct Hbr as (_ & _ & B0 & B1). destruct (is_nil c0); assumption.
  - specialize (IH (@branching_child _ _ Hbr)).
    pose proof Hbr as (E0 & E1 & B0 & B1).
    set (b := kbit (Data key) (PrefixLen nk)) in *.
    destruct o as [|x|]; cbn [lift_outcome]; [exact I| |].
    + pose proof (kbit_01 (Data key) (PrefixLen nk)) as Hb01. fold b in Hb01.
      cbn [child set_child] in *.
      destruct Hb01 as [Hb | Hb]; rewrite Hb in *; cbn [Z.eqb] in *;
        cbn [branching].
      * split; [|auto].
        exact (@Delete_rel_all_keys V (extends nk 0) key im c0 _ Hrel E0).
      * split; [assumption|]. split; [|auto].
        exact (@Delete_rel_all_keys V (extends nk 1) key im c1 _ Hrel E1).
    + unfold sibling. cbn [child]. destruct (b =? 0); cbn [Z.eqb]; assumption.
Qed.

Lemma safe_ops_branching ops : forall t,
  Inv t -> branching (root t) -> valid_ops t ops -> safe_ops t ops ->
  exists t', run_ops t ops = Ok t' /\ Inv t' /\ branching (root t').
Proof.
  induction ops as [|o ops IH]; intros t Hinv Hbr Hv Hs.
  - exists t. cbn. auto.
  - inversion Hv as [|? ? Ho Hrest]; subst.
    pose proof Hinv as (Hcfg & Hsh & Him & _).
    cbn [safe_ops] in Hs. destruct Hs as (Hs1 & Hs2).
    assert (Hstep : exists t1, apply_op t o = Ok t1 /\ Inv t1
                     /\ branching (root t1)
                     /\ maxPrefixLen t1 = maxPrefixLen t
                     /\ keySize t1 = keySize t).
    { destruct o as [k v|k]; cbn [apply_op op_key] in *.
      - destruct (Update_spec k v Hcfg Ho Hsh) as (n' & u & r & Hrel & Heq).
        destruct (Update_inv k v Hinv Ho) as (t1 & u' & Heq' & Hinv1 & Hm & Hk).
        rewrite Heq in Heq'. injection Heq' as <- <-.
        rewrite Heq. eexists. split; [reflexivity|]. cbn [fst].
        split; [exact Hinv1|]. split; [|split; reflexivity].
        apply isValidKey_ok in Ho. destruct Hcfg as (_ & Hmpl).
        exact (Update_rel_branching Hmpl Ho Hrel Hsh Hbr Him Hs1).
      - destruct (@Delete_spec V t k Hcfg Ho Hsh) as (o & Hrel & Heq).
        destruct (Delete_inv k Hinv Ho) as (t1 & d & Heq' & Hinv1 & Hm & Hk).
        rewrite Heq in Heq'. rewrite Heq.
        pose proof (Delete_rel_branching Hrel Hbr) as Hb.
        destruct o as [|x|]; injection Heq' as <- _; eexists;
          (split; [reflexivity|]); cbn [fst]; auto. }
    destruct Hstep as (t1 & E1 & Hinv1 & Hbr1 & Em & Ek).
    rewrite E1 in Hs2.
    destruct (IH t1 Hinv1 Hbr1) as (t' & E' & Hinv' & Hbr'); [|exact Hs2|].
    { unfold valid_ops in *. eapply Forall_impl; [|exact Hrest].
      intros a Ha. unfold isValidKey in *. rewrite Em, Ek. exact Ha. }
    exists t'. cbn [run_ops]. rewrite E1. cbn [bind]. auto.
Qed.

(** On every run from a fresh trie in which each [Update] finds its key
    stored or extended by no stored key, the prefix length grows strictly
    from every node to its children. *)
Lemma safe_ops_increasing mpl (t0 : lpmTrie V) ops :
  New V mpl = inl t0 -> valid_ops t0 ops -> safe_ops t0 ops ->
  exists t, run_ops t0 ops = Ok t /\ increasing (root t) = true.
Proof.
  intros Hnew Hv Hs. destruct (@New_ok V mpl t0 Hnew) as (Hinv & _ & Hr).
  destruct (@safe_ops_branching ops t0 Hinv) as (t & Hrun & _ & Hbr);
    [rewrite Hr; exact I|exact Hv|exact Hs|].
  exists t. split; [exact Hrun|apply branching_increasing, Hbr].
Qed.
End IncreasingFacts.

(** ** Delete on a node, by cases *)

Lemma Delete_rel_Node_inv (V : Type) key pim nk (c0 c1 : lpmTrieNode V) v im o :
  Delete_rel key pim (Node nk c0 c1 v im) o ->
  (PrefixLen nk <> lpm_bitwise nk key /\ o = DUnchanged V)
  \/ (PrefixLen nk = lpm_bitwise nk key /\ PrefixLen nk = PrefixLen key /\
      ((im = true /\ o = DUnchanged V)
       \/ (im = false /\ c0 <> nilNode /\ c1 <> nilNode
           /\ o = DReplaced (Node nk c0 c1 None true))
       \/ (im = false /\ pim = true /\ c0 = nilNode /\ c1 = nilNode
           /\ o = DCollapse V)
       \/ (im = false /\ (c0 = nilNode \/ c1 = nilNode)
           /\ (pim = false \/ c0 <> nilNode \/ c1 <> nilNode)
           /\ o = DReplaced (if is_nil c0 then c1 else c0))))
  \/ (PrefixLen nk = lpm_bitwise nk key /\ PrefixLen nk <> PrefixLen key /\
      exists o',
        Delete_rel key im
          (child (Node nk c0 c1 v im) (kbit (Data key) (PrefixLen nk))) o'
        /\ o = lift_outcome (Node nk c0 c1 v im)
                            (kbit (Data key) (PrefixLen nk)) o').
Proof.
  intros Hd. inversion Hd; subst.
  - destruct (Z.eq_dec (PrefixLen nk) (lpm_bitwise nk key)) as [E|N].
    + match goal with H : _ \/ _ |- _ => destruct H as [H|(H1 & H2)] end;
        [congruence|]. right. left. auto.
    + left. auto.
  - right. left. split; [assumption|]. split; [assumption|].
    right. left. auto.
  - right. left. split; [assumption|]. split; [assumption|].
    right. right. left. auto.
  - right. left. split; [assumption|]. split; [assumption|].
    right. right. right. auto.
  - right. right. split; [assumption|]. split; [assumption|]. eauto.
Qed.

(** ** Where Update and Delete are inverse

    For a key that is not stored and that no stored key extends, [Delete]
    after [Update] gives back the very trie [Update] started from. *)

Section InverseFacts.
Variable V : Type.
Variables (ks mpl : Z).
Hypothesis Hmpl : mpl = 8 * ks.
Variable key : Key.
Variable val : option V.
Hypothesis Hkey : key_ok ks mpl key.
Implicit Types (n : lpmTrieNode V).

Lemma lpm_bitwise_self : lpm_bitwise key key = PrefixLen key.
Proof.
  pose proof (lpm_bitwise_range Hkey Hkey) as (R0 & R1 & _).
  pose proof (@lpm_bitwise_max ks mpl Hmpl key key Hkey Hkey (PrefixLen key)) as Hx.
  destruct Hkey as [Hk _].
  specialize (Hx ltac:(lia) ltac:(lia) ltac:(lia)
                 (@prefix_agree_refl (Data key) (PrefixLen key))). lia.
Qed.

Lemma lpm_bitwise_imkey m :
  0 <= m <= PrefixLen key -> lpm_bitwise (mkKey m (Data key)) key = m.
Proof.
  intros Hm.
  assert (Hik : key_ok ks mpl (mkKey m (Data key))).
  { destruct Hkey as [Hk1 Hk2]. split; cbn; [lia|assumption]. }
  pose proof (lpm_bitwise_range Hik Hkey) as (R0 & R1 & _).
  pose proof (@lpm_bitwise_max ks mpl Hmpl _ key Hik Hkey m) as Hx.
  cbn [PrefixLen Data] in *.
  specialize (Hx ltac:(lia) ltac:(lia) ltac:(lia)
                 (@prefix_agree_refl (Data key) m)). lia.
Qed.

Lemma Delete_rel_newnode pim o :
  Delete_rel key pim (newLpmTrieNode key val) o ->
  o = if pim then DCollapse V else DReplaced nilNode.
Proof.
  intros Hd. pose proof lpm_bitwise_self as Hs.
  apply Delete_rel_Node_inv in Hd.
  destruct Hd as [(H & _)|[(_ & _ & Hc)|(_ & H & _)]]; try congruence.
  destruct Hc as [(H & _)|[(_ & H & _)|[(_ & -> & _ & _ & ->)|(_ & _ & Hp & ->)]]];
    try congruence.
  destruct Hp as [->|[H|H]]; [reflexivity|congruence|congruence].
Qed.

Lemma set_child_same n b : n <> nilNode -> set_child n b (child n b) = n.
Proof.
  destruct n as [|k c0 c1 v im]; [congruence|]. intros _.
  cbn. destruct (b =? 0); reflexivity.
Qed.

Lemma set_child_twice n b x y :
  set_child (set_child n b x) b y = set_child n b y.
Proof.
  destruct n as [|k c0 c1 v im]; [reflexivity|].
  cbn. destruct (b =? 0) eqn:E; cbn; rewrite E; reflexivity.
Qed.

Lemma child_set_child n b x : n <> nilNode -> child (set_child n b x) b = x.
Proof.
  destruct n as [|k c0 c1 v im]; [congruence|]. intros _.
  cbn. destruct (b =? 0) eqn:E; cbn; rewrite E; reflexivity.
Qed.

Lemma Update_then_Delete n n1 u r :
  Update_rel mpl key val n n1 u r ->
  all_keys (key_ok ks mpl) n -> branching n -> im_two n ->
  (forall e, In e (entries n) ->
             ~ key_equiv (fst e) key /\ ~ proper_prefix key (fst e)) ->
  u = false /\ r = false
  /\ forall pim o, Delete_rel key pim n1 o ->
       o = match n with
           | nilNode => if pim then DCollapse V else DReplaced nilNode
           | _ => DReplaced n
           end.
Proof.
  intros Hrel. induction Hrel as [|nk c0 c1 v im Em Ep|nk c0 c1 v im Hne
                                  |nk c0 c1 v im c' u r Em Np Nx Hrel IH];
    intros Hsh Hbr Him Hnew.
  - split; [reflexivity|]. split; [reflexivity|]. apply Delete_rel_newnode.
  - exfalso. pose proof Hsh as (Hnk & _).
    assert (Hq : key_equiv nk key).
    { split; [exact Ep|]. intros i Hi. apply lpm_bitwise_agree. lia. }
    destruct im.
    + destruct Him as (I & I0 & _). destruct (I eq_refl) as (N0 & _).
      destruct (entries_nonempty I0 N0) as (e & He).
      destruct Hbr as (E0 & _).
      destruct (@all_keys_entries V _ _ E0 e He) as (L & A & _).
      apply (proj2 (Hnew e ltac:(cbn [entries]; rewrite in_app_iff; auto))).
      split; [lia|]. rewrite <- Ep.
      eapply prefix_agree_trans;
        [apply prefix_agree_sym, (lpm_bitwise_agree nk key)|exact A| |]; lia.
    + apply (proj1 (Hnew (nk, v)
                      ltac:(cbn [entries]; rewrite !in_app_iff; cbn; auto))).
      exact Hq.
  - split; [reflexivity|]. split; [reflexivity|].
    pose proof Hsh as (Hnk & _).
    pose proof (lpm_bitwise_range Hnk Hkey) as (R0 & R1 & R2).
    assert (Hin : lpm_bitwise nk key < PrefixLen key).
    { apply (fork_inside Hmpl Hkey Hsh Hbr Him); [|exact Hne].
      right. intros e He. apply Hnew, He. }
    pose proof (kbit_01 (Data key) (lpm_bitwise nk key)) as Hb01.
    pose proof (@lpm_bitwise_imkey (lpm_bitwise nk key) ltac:(lia)) as Hik.
    intros pim o Hd. cbn zeta in Hd.
    set (m := lpm_bitwise nk key) in *.
    destruct Hb01 as [Hb | Hb]; rewrite Hb in Hd; cbn [Z.eqb negb] in Hd;
      apply Delete_rel_Node_inv in Hd; cbn [PrefixLen Data] in Hd;
      fold m in Hd; rewrite Hik, Hb in Hd; cbn [child Z.eqb] in Hd;
      (destruct Hd as [(H & _)|[(_ & H & _)|(_ & _ & o' & Ho & ->)]];
       [congruence|lia|]);
      apply Delete_rel_newnode in Ho; subst o'; reflexivity.
  - pose proof Hsh as (Hnk & Hs0 & Hs1).
    pose proof Hbr as (E0 & E1 & B0 & B1).
    pose proof Him as (I & I0 & I1).
    set (b := kbit (Data key) (PrefixLen nk)) in *.
    set (n := Node nk c0 c1 v im) in *.
    assert (Hn : n <> nilNode) by discriminate.
    destruct IH as (Hu & Hr & IH).
    { apply all_keys_child, Hsh. }
    { apply branching_child, Hbr. }
    { apply im_two_child, Him. }
    { intros e He. apply Hnew.
      apply (entries_Node_iff nk c0 c1 v im e (kbit_01 (Data key) (PrefixLen nk))).
      left. exact He. }
    split; [exact Hu|]. split; [exact Hr|].
    intros pim o Hd.
    assert (Hshape : set_child n b c' = Node nk (if b =? 0 then c' else c0)
                                             (if b =? 0 then c1 else c') v im).
    { subst n. cbn. destruct (b =? 0); reflexivity. }
    rewrite Hshape in Hd. apply Delete_rel_Node_inv in Hd.
    rewrite <- Hshape in Hd. fold b in Hd.
    destruct Hd as [(H & _)|[(_ & H & _)|(_ & _ & o' & Ho & ->)]];
      [congruence|congruence|].
    rewrite child_set_child in Ho by exact Hn.
    apply IH in Ho.
    destruct (child n b) eqn:Ec.
    + destruct im.
      * exfalso. destruct (I eq_refl) as (N0 & N1).
        subst n. cbn [child] in Ec. destruct (b =? 0); congruence.
      * subst o'. cbn [lift_outcome]. rewrite set_child_twice, <- Ec.
        rewrite set_child_same by exact Hn. reflexivity.
    + subst o'. cbn [lift_outcome]. rewrite set_child_twice, <- Ec.
      rewrite set_child_same by exact Hn. reflexivity.
Qed.
End InverseFacts.

Section InverseTrie.
Variable V : Type.

(** For a key that is not stored and that no stored key extends, [Update]
    inserts and [Delete] of the same key then returns the trie [Update]
    started from: same nodes, same counter, hence the same [Size()] and the
    same [Lookup] results. *)
Lemma Update_Delete_inverse (t : lpmTrie V) k v :
  Inv t -> branching (root t) -> isValidKey t k = true ->
  (forall e, In e (entries (root t)) ->
             ~ key_equiv (fst e) k /\ ~ proper_prefix k (fst e)) ->
  exists t1, Update t k v = Ok (t1, false) /\ Delete t1 k = Ok (t, true).
Proof.
  intros Hinv Hbr Hv Hnew. pose proof Hinv as (Hcfg & Hsh & Him & Hsz).
  destruct (Update_spec k v Hcfg Hv Hsh) as (n1 & u & r & Hrel & Heq).
  destruct (Update_inv k v Hinv Hv) as (t1 & u' & Heq' & Hinv1 & Hm & Hk).
  rewrite Heq in Heq'. injection Heq' as <- <-.
  pose proof Hcfg as (_ & Hmpl).
  destruct (Update_then_Delete Hmpl (proj1 (isValidKey_ok t k) Hv)
              Hrel Hsh Hbr Him Hnew) as (-> & -> & Hdel).
  eexists. split; [exact Heq|].
  pose proof Hinv1 as (Hcfg1 & Hsh1 & _).
  assert (Hv1 : isValidKey
                  (mkTrie n1 (AddInt64 (size t) 1) (maxPrefixLen t) (keySize t))
                  k = true) by exact Hv.
  destruct (@Delete_spec V _ k Hcfg1 Hv1 Hsh1) as (o & Hrel' & Heqd).
  rewrite Heqd. cbn [root] in Hrel'. apply Hdel in Hrel'.
  assert (Hs2 : AddInt64 (AddInt64 (size t) 1) (-1) = size t).
  { rewrite Hsz, !AddInt64_wrap. f_equal. lia. }
  rewrite Hrel'. cbn [size maxPrefixLen keySize]. rewrite Hs2.
  destruct t as [rt sz mp ksz]. cbn [root size maxPrefixLen keySize].
  destruct rt; reflexivity.
Qed.
End InverseTrie.

(* ================================================================= *)
(** * Further properties of the operations *)

(** ** The bit reader at and beyond the ends of the buffer *)

(** X1: [extractBit data i] returns bit [i] of the buffer, counted from the
    most significant bit of byte 0, when [0 <= i < 8 * len(data)], and this
    is 0 or 1; it panics when [i >= 8 * len(data)] and when [i <= -8]; for
    [-8 < i < 0], where Go's division and remainder truncate towards zero,
    it reads byte 0 shifted out entirely and returns 0 (and panics on the
    empty buffer). *)
Theorem extractBit_bounds data i :
  (0 <= i < 8 * Z.of_nat (length data) ->
   extractBit data i = Ok (kbit data i)
   /\ (kbit data i = 0 \/ kbit data i = 1))
  /\ (8 * Z.of_nat (length data) <= i -> extractBit data i = Panic)
  /\ (i <= -8 -> extractBit data i = Panic)
  /\ (-8 < i < 0 -> extractBit data i = match data with
                                         | [] => Panic
                                         | _ :: _ => Ok 0
                                         end).
Proof.
  split; [intros Hi; split; [apply extractBit_spec, Hi|apply kbit_01]|].
  split; [|split].
  - intros Hi. unfold extractBit, index.
    assert (Hq : Z.of_nat (length data) <= Z.quot i 8).
    { apply Z.quot_le_lower_bound; lia. }
    destruct (Z.leb_spec (Z.of_nat (length data)) (Z.quot i 8)); [|lia].
    rewrite orb_true_r. reflexivity.
  - intros Hi. unfold extractBit, index.
    assert (Hq : Z.quot i 8 < 0).
    { assert (H1 : 1 <= Z.quot (- i) 8) by (apply Z.quot_le_lower_bound; lia).
      rewrite Z.quot_opp_l in H1 by lia. lia. }
    destruct (Z.ltb_spec (Z.quot i 8) 0); [|lia]. reflexivity.
  - intros Hi. unfold extractBit.
    assert (Hq : Z.quot i 8 = 0) by (apply Z.quot_small_iff; lia).
    assert (Hr : Z.rem i 8 = i).
    { pose proof (Z.quot_rem' i 8) as E. rewrite Hq in E. lia. }
    rewrite Hq, Hr. destruct data as [|x data]; [reflexivity|].
    change (index (x :: data) 0) with (Ok (byte_val x)). cbn [bind].
    f_equal. rewrite land_shiftr_1.
    + rewrite (testbit_small (x := byte_val x) (m := 8)); [reflexivity| |lia].
      apply byte_val_range.
    + lia.
Qed.

Lemma extractBit_bounds_witness :
  extractBit (b4 x0a x00 x00 x01) 31 = Ok 1
  /\ extractBit (b4 x0a x00 x00 x01) 32 = Panic
  /\ extractBit (b4 x0a x00 x00 x01) (-8) = Panic
  /\ extractBit (b4 x0a x00 x00 x01) (-1) = Ok 0.
Proof.
  pose proof (extractBit_bounds (b4 x0a x00 x00 x01)) as H.
  split; [|split; [|split]].
  - apply (proj1 (proj1 (H 31) ltac:(cbn; lia))).
  - apply (proj1 (proj2 (H 32))). cbn. lia.
  - apply (proj1 (proj2 (proj2 (H (-8))))). lia.
  - apply (proj2 (proj2 (proj2 (H (-1))))). lia.
Defined.

(** ** Invariants along runs *)

Section RunFacts.
Variable V : Type.
Implicit Types (t : lpmTrie V) (n : lpmTrieNode V).

(** A property that [Update] and [Delete] keep holds after every run. *)
Lemma run_ops_preserves (P : lpmTrie V -> Prop) :
  (forall t k v t' u, Inv t -> P t -> isValidKey t k = true ->
                      Update t k v = Ok (t', u) -> P t') ->
  (forall t k t' d, Inv t -> P t -> isValidKey t k = true ->
                    Delete t k = Ok (t', d) -> P t') ->
  forall ops t, Inv t -> P t -> valid_ops t ops ->
  exists t', run_ops t ops = Ok t' /\ Inv t' /\ P t'
             /\ maxPrefixLen t' = maxPrefixLen t /\ keySize t' = keySize t.
Proof.
  intros HU HD. induction ops as [|o ops IH]; intros t Hinv HP Hv.
  - exists t. cbn. auto.
  - inversion Hv as [|? ? Ho Hrest]; subst.
    assert (Hstep : exists t1, apply_op t o = Ok t1 /\ Inv t1 /\ P t1
                     /\ maxPrefixLen t1 = maxPrefixLen t /\ keySize t1 = keySize t).
    { destruct o as [k v|k]; cbn [apply_op op_key] in *.
      - destruct (@Update_inv V t k v Hinv Ho) as (t1 & u & E & H1 & H2).
        exists t1. rewrite E. cbn. split; [reflexivity|]. split; [exact H1|].
        split; [exact (HU _ _ _ _ _ Hinv HP Ho E)|exact H2].
      - destruct (@Delete_inv V t k Hinv Ho) as (t1 & d & E & H1 & H2).
        exists t1. rewrite E. cbn. split; [reflexivity|]. split; [exact H1|].
        split; [exact (HD _ _ _ _ Hinv HP Ho E)|exact H2]. }
    destruct Hstep as (t1 & E1 & Hinv1 & HP1 & Em & Ek).
    destruct (IH t1 Hinv1 HP1) as (t' & E' & Hinv' & HP' & Em' & Ek').
    { unfold valid_ops in *. eapply Forall_impl; [|exact Hrest].
      intros a Ha. unfold isValidKey in *. rewrite Em, Ek. exact Ha. }
    exists t'. cbn [run_ops]. rewrite E1. cbn [bind].
    split; [exact E'|]. split; [exact Hinv'|]. split; [exact HP'|].
    split; congruence.
Qed.

Lemma full_leaf_child mpl n b : full_leaf mpl n -> full_leaf mpl (child n b).
Proof.
  destruct n as [|k c0 c1 v im]; [intros; exact I|].
  intros (_ & H0 & H1). cbn. destruct (b =? 0); assumption.
Qed.

Lemma Update_rel_full_leaf ks mpl key val n n' u r :
  Update_rel mpl key val n n' u r ->
  key_ok ks mpl key -> all_keys (key_ok ks mpl) n ->
  full_leaf mpl n -> full_leaf mpl n'.
Proof.
  intros Hrel Hkey. induction Hrel as
    [|nk c0 c1 v im Hm Hp|nk c0 c1 v im Hm|nk c0 c1 v im c' u r Hm Hp Hx Hrel IH];
    intros Hsh Hf.
  - cbn. auto.
  - cbn in Hf |- *. destruct Hf as (Hl & H0 & H1).
    split; [|auto]. intros E. apply Hl. congruence.
  - destruct Hsh as (Hnk & _).
    pose proof (lpm_bitwise_range Hnk Hkey) as (R0 & R1 & R2).
    destruct Hnk as ((_ & Hle) & _).
    cbv zeta. destruct (negb _); cbn [full_leaf PrefixLen];
      (split; [intros E; lia|]); (split; [|cbn; auto]); try exact Hf; cbn; auto.
  - pose proof (@full_leaf_child mpl _ (kbit (Data key) (PrefixLen nk)) Hf) as Hfc.
    pose proof (@all_keys_child V _ _ (kbit (Data key) (PrefixLen nk)) Hsh) as Hsc.
    specialize (IH Hsc Hfc).
    cbn [child] in IH. cbn [set_child]. cbn in Hf. destruct Hf as (_ & H0 & H1).
    destruct (kbit (Data key) (PrefixLen nk) =? 0); cbn;
      (split; [intros E; contradiction|]); auto.
Qed.

Lemma Delete_rel_full_leaf mpl key pim n o :
  Delete_rel key pim n o -> full_leaf mpl n ->
  match o with DReplaced n' => full_leaf mpl n' | _ => True end.
Proof.
  intros Hrel. induction Hrel as
    [pim|pim nk c0 c1 v im Hr|pim nk c0 c1 v Hm Hp H0 H1|nk v Hm Hp
    |pim nk c0 c1 v Hm Hp Hn Hq|pim nk c0 c1 v im o Hm Hp Hrel IH]; intros Hf;
    try exact I.
  - cbn in Hf |- *. exact Hf.
  - cbn in Hf. destruct Hf as (_ & F0 & F1). destruct (is_nil c0); assumption.
  - pose proof (@full_leaf_child mpl _ (kbit (Data key) (PrefixLen nk)) Hf) as Hfc.
    specialize (IH Hfc).
    destruct o as [|c'|]; cbn [lift_outcome]; [exact I| |].
    + cbn in Hf. destruct Hf as (Hl & F0 & F1).
      cbn [child] in IH, Hrel. cbn [set_child].
      assert (Hne : PrefixLen nk <> mpl).
      { intros E. destruct (Hl E) as (-> & ->).
        destruct (kbit (Data key) (PrefixLen nk) =? 0); inversion Hrel. }
      destruct (kbit (Data key) (PrefixLen nk) =? 0); cbn;
        (split; [intros E; contradiction|]); auto.
    + unfold sibling. destruct (_ =? 0); apply full_leaf_child, Hf.
Qed.

(** Nodes of maximal prefix length stay leaves along every run. *)
Lemma run_ops_full_leaf ops t :
  Inv t -> full_leaf (maxPrefixLen t) (root t) -> valid_ops t ops ->
  exists t', run_ops t ops = Ok t' /\ Inv t'
             /\ full_leaf (maxPrefixLen t') (root t')
             /\ maxPrefixLen t' = maxPrefixLen t /\ keySize t' = keySize t.
Proof.
  apply (run_ops_preserves (fun t => full_leaf (maxPrefixLen t) (root t))).
  - clear. intros t k v t' u (Hcfg & Hsh & _) Hf Hv E.
    destruct (@Update_spec V t k v Hcfg Hv Hsh) as (n' & u' & r & Hrel & Heq).
    rewrite Heq in E. injection E as <- _. cbn [root maxPrefixLen].
    apply isValidKey_ok in Hv.
    exact (Update_rel_full_leaf Hrel Hv Hsh Hf).
  - clear. intros t k t' d (Hcfg & Hsh & _) Hf Hv E.
    destruct (@Delete_spec V t k Hcfg Hv Hsh) as (o & Hrel & Heq).
    rewrite Heq in E.
    pose proof (@Delete_rel_full_leaf (maxPrefixLen t) _ _ _ _ Hrel Hf) as H.
    destruct o as [|x|]; injection E as <- _; cbn [root maxPrefixLen]; auto.
Qed.
End RunFacts.

(** ** What Lookup returns on every reachable trie *)

Section LookupSound.
Variable V : Type.
Variable t : lpmTrie V.
Hypothesis Hcfg : cfg_ok t.
Variable q : Key.
Hypothesis Hq : key_ok (keySize t) (maxPrefixLen t) q.

(** The loop returns, and its answer is the remembered node or an entry of
    the subtree whose prefix covers the query. *)
Lemma Lookup_loop_sound (n : lpmTrieNode V) :
  shape t n -> im_two n -> full_leaf (maxPrefixLen t) n ->
  forall found,
  exists res, Lookup_loop t q n found = Ok res /\
    (res = Lookup_found found
     \/ exists k v, In (k, v) (entries n) /\ matches k q /\ res = (v, true)).
Proof.
  destruct Hcfg as [Hpos Hmpl].
  induction n as [|nk c0 IH0 c1 IH1 v im]; intros Hsh Him Hfl found.
  - eexists. split; [reflexivity|]. left. reflexivity.
  - pose proof Hsh as (Hnk & Hs0 & Hs1).
    pose proof Him as (I & I0 & I1).
    pose proof Hfl as (L & L0 & L1).
    pose proof (lpm_bitwise_range Hnk Hq) as (R0 & R1 & R2).
    pose proof (matches_lpm Hmpl Hnk Hq) as Hml.
    assert (Hn0 : 0 <= PrefixLen nk <= maxPrefixLen t) by apply Hnk.
    cbn [Lookup_loop]. rewrite (lpm_node t Hq Hnk). cbn [bind].
    set (m := lpm_bitwise nk q) in *.
    destruct (Z.eqb_spec m (maxPrefixLen t)) as [Emax|Nmax].
    { assert (Ei : im = false).
      { destruct im; [|reflexivity]. exfalso.
        destruct (I eq_refl) as (N0 & _).
        destruct (L ltac:(lia)) as (E0 & _). contradiction. }
      subst im. eexists. split; [reflexivity|]. right. exists nk, v.
      split; [cbn [entries]; rewrite !in_app_iff; cbn; auto|].
      split; [apply Hml; lia|reflexivity]. }
    destruct (Z.ltb_spec m (PrefixLen nk)) as [Hlt|Hge].
    { eexists. split; [reflexivity|]. left. reflexivity. }
    assert (Em : m = PrefixLen nk) by lia.
    assert (Hmn : matches nk q) by (apply Hml; exact Em).
    rewrite (extractBit_key Hcfg Hq) by lia. cbn [bind].
    set (b := kbit (Data q) (PrefixLen nk)).
    pose proof (kbit_01 (Data q) (PrefixLen nk)) as Hb01. fold b in Hb01.
    assert (IH : forall fd, exists res,
      Lookup_loop t q (if b =? 0 then c0 else c1) fd = Ok res /\
      (res = Lookup_found fd
       \/ exists k v0, In (k, v0) (entries (if b =? 0 then c0 else c1))
                       /\ matches k q /\ res = (v0, true))).
    { destruct (b =? 0); [apply IH0|apply IH1]; assumption. }
    destruct (IH (if negb im then Node nk c0 c1 v im else found))
      as (res & Eres & Hres).
    exists res. split; [exact Eres|].
    destruct Hres as [->|(k & v0 & Hin & Hmk & ->)].
    + destruct im; cbn [negb]; [left; reflexivity|].
      right. exists nk, v.
      split; [apply (entries_Node_iff nk c0 c1 v false (nk, v) Hb01); auto|].
      split; [exact Hmn|reflexivity].
    + right. exists k, v0.
      split; [apply (entries_Node_iff nk c0 c1 v im (k, v0) Hb01); left; exact Hin|].
      split; [exact Hmk|reflexivity].
Qed.
End LookupSound.

Section Reachable.
Variable V : Type.
Implicit Types (t : lpmTrie V).

(** What holds of the trie after any run on a fresh trie. *)
Lemma reachable_facts mpl (t0 : lpmTrie V) ops :
  New V mpl = inl t0 -> valid_ops t0 ops ->
  exists t, run_ops t0 ops = Ok t /\ Inv t
            /\ full_leaf (maxPrefixLen t) (root t)
            /\ maxPrefixLen t = mpl /\ keySize t = Z.quot mpl 8.
Proof.
  intros Hnew Hv. destruct (@New_ok V mpl t0 Hnew) as (Hinv & Hm & Hr).
  destruct (@run_ops_full_leaf V ops t0 Hinv) as (t & E & Hi & Hf & Em & Ek);
    [rewrite Hr; exact I|exact Hv|].
  exists t. split; [exact E|]. split; [exact Hi|]. split; [exact Hf|].
  split; [congruence|]. rewrite Ek. unfold New in Hnew.
  destruct (_ || _); [discriminate|]. injection Hnew as <-. reflexivity.
Qed.

Lemma isValidKey_false t k :
  isValidKey t k = false <-> ~ key_ok (keySize t) (maxPrefixLen t) k.
Proof.
  rewrite <- isValidKey_ok. destruct (isValidKey t k); split;
    congruence.
Qed.

(** X2: after any run of [Update] and [Delete] calls with valid keys on a
    fresh trie, [Lookup], [Update] and [Delete] panic exactly on the keys
    that [checkKey] refuses: a prefix length outside [0, maxPrefixLen] or a
    buffer whose length is not [maxPrefixLen / 8].  On every other key they
    return; no index or slice goes out of range. *)
Theorem panics_only_on_invalid_keys mpl (t0 : lpmTrie V) ops :
  New V mpl = inl t0 -> valid_ops t0 ops ->
  exists t, run_ops t0 ops = Ok t /\
    forall k,
      (Lookup t k = Panic <-> ~ key_ok (Z.quot mpl 8) mpl k)
      /\ (forall v, Update t k v = Panic <-> ~ key_ok (Z.quot mpl 8) mpl k)
      /\ (Delete t k = Panic <-> ~ key_ok (Z.quot mpl 8) mpl k).
Proof.
  intros Hnew Hv.
  destruct (@reachable_facts mpl t0 ops Hnew Hv) as (t & E & Hinv & Hf & Em & Ek).
  exists t. split; [exact E|]. intros k.
  pose proof (isValidKey_false t k) as Hiff. rewrite Em, Ek in Hiff.
  pose proof Hinv as (Hcfg & Hsh & Him & _).
  destruct (isValidKey t k) eqn:Hk.
  - assert (Hno : ~ ~ key_ok (Z.quot mpl 8) mpl k).
    { intros H. apply Hiff in H. discriminate. }
    split; [|split; [intros v|]].
    + pose proof (proj1 (isValidKey_ok t k) Hk) as Hkk.
      destruct (Lookup_loop_sound Hcfg Hkk (root t) Hsh Him Hf nilNode)
        as (res & Eres & _).
      unfold Lookup, checkKey. rewrite Hk. cbn [negb bind]. rewrite Eres.
      split; [discriminate|contradiction].
    + destruct (@Update_inv V t k v Hinv Hk) as (t1 & u & -> & _).
      split; [discriminate|contradiction].
    + destruct (@Delete_inv V t k Hinv Hk) as (t1 & d & -> & _).
      split; [discriminate|contradiction].
  - pose proof (proj1 Hiff eq_refl) as Hbad.
    unfold Lookup, Update, Delete, checkKey. rewrite Hk. cbn [negb bind].
    repeat split; auto.
Qed.

(** X3: after any run of [Update] and [Delete] calls with valid keys on a
    fresh trie, including the runs that insert a prefix of a stored longer
    key, [Lookup] of a valid key returns: either [(nil, false)], or
    [(v, true)] for an entry [(k, v)] that [Range] would yield and whose
    prefix covers the query.  It never answers with an intermediate node
    nor with a key that is not a prefix of the query. *)
Theorem Lookup_returns_stored_prefix mpl (t0 : lpmTrie V) ops q :
  New V mpl = inl t0 -> valid_ops t0 ops -> isValidKey t0 q = true ->
  exists t res, run_ops t0 ops = Ok t /\ Lookup t q = Ok res /\
    (res = (None, false)
     \/ exists k v, In (k, v) (entries (root t)) /\ matches k q
                    /\ res = (v, true)).
Proof.
  intros Hnew Hv Hq.
  destruct (@New_ok V mpl t0 Hnew) as (Hinv0 & Hm0 & _).
  destruct (@reachable_facts mpl t0 ops Hnew Hv) as (t & E & Hinv & Hf & Em & Ek).
  pose proof Hinv as (Hcfg & Hsh & Him & _).
  assert (Hq' : isValidKey t q = true).
  { unfold isValidKey in *. rewrite Em, Ek.
    unfold New in Hnew. destruct (_ || _); [discriminate|].
    injection Hnew as <-. exact Hq. }
  pose proof (proj1 (isValidKey_ok t q) Hq') as Hqk.
  destruct (Lookup_loop_sound Hcfg Hqk (root t) Hsh Him Hf nilNode)
    as (res & Eres & Hres).
  exists t, res. split; [exact E|].
  split; [unfold Lookup, checkKey; rewrite Hq'; exact Eres|exact Hres].
Qed.
End Reachable.

Lemma panics_only_on_invalid_keys_witness :
  exists t, run_ops (empty32 Z) ops_ABA = Ok t /\
    forall k,
      (Lookup t k = Panic <-> ~ key_ok (Z.quot 32 8) 32 k)
      /\ (forall v, Update t k v = Panic <-> ~ key_ok (Z.quot 32 8) 32 k)
      /\ (Delete t k = Panic <-> ~ key_ok (Z.quot 32 8) 32 k).
Proof.
  apply (@panics_only_on_invalid_keys Z 32 (empty32 Z) ops_ABA).
  - reflexivity.
  - repeat constructor.
Defined.

Lemma Lookup_returns_stored_prefix_witness :
  exists t res, run_ops (empty32 Z) ops_slip = Ok t /\ Lookup t k32 = Ok res /\
    (res = (None, false)
     \/ exists k v, In (k, v) (entries (root t)) /\ matches k k32
                    /\ res = (v, true)).
Proof.
  apply (@Lookup_returns_stored_prefix Z 32 (empty32 Z) ops_slip k32).
  - reflexivity.
  - repeat constructor.
  - reflexivity.
Defined.

(** ** The writes and the sequence of entries *)

Section EntryFacts.
Variable V : Type.
Variable mpl : Z.
Variable key : Key.
Implicit Types (n : lpmTrieNode V).

Lemma stop_equiv nk :
  PrefixLen nk = lpm_bitwise nk key -> PrefixLen nk = PrefixLen key ->
  key_equiv nk key.
Proof.
  intros Hm Hp. split; [exact Hp|]. rewrite Hm.
  exact (lpm_bitwise_agree nk key).
Qed.

(** [Update] puts [(key, val)] at one place of the sequence of entries:
    in place of an entry with the same prefix, or between two entries. *)
Lemma Update_rel_split val n n' u r :
  Update_rel mpl key val n n' u r ->
  exists l1 l2, entries n' = l1 ++ (key, val) :: l2 /\
    if r then exists k0 v0, entries n = l1 ++ (k0, v0) :: l2
                            /\ key_equiv k0 key /\ u = true
    else entries n = l1 ++ l2.
Proof.
  intros Hrel. induction Hrel as
    [|nk c0 c1 v im Hm Hp|nk c0 c1 v im Hm|nk c0 c1 v im c' u r Hm Hp Hx Hrel IH].
  - exists [], []. split; reflexivity.
  - exists (entries c0), (entries c1). split; [reflexivity|].
    destruct im; cbn [negb entries app].
    + reflexivity.
    + exists nk, v. split; [reflexivity|]. split; [|reflexivity].
      exact (@stop_equiv nk Hm Hp).
  - cbv zeta. destruct (negb _).
    + exists (entries (Node nk c0 c1 v im)), [].
      split; [|rewrite app_nil_r; reflexivity].
      cbn [entries newLpmTrieNode app]. reflexivity.
    + exists [], (entries (Node nk c0 c1 v im)). split; reflexivity.
  - destruct IH as (l1 & l2 & E' & Hr). cbn [child] in Hr. cbn [set_child].
    set (mid := if im then [] else [(nk, v)]).
    destruct (kbit (Data key) (PrefixLen nk) =? 0).
    + exists l1, (l2 ++ mid ++ entries c1). cbn [entries]. fold mid.
      rewrite E'. split; [rewrite <- app_assoc; reflexivity|].
      destruct r.
      * destruct Hr as (k0 & v0 & -> & Hr). exists k0, v0.
        split; [rewrite <- app_assoc; reflexivity|exact Hr].
      * rewrite Hr, <- app_assoc. reflexivity.
    + exists (entries c0 ++ mid ++ l1), l2. cbn [entries]. fold mid.
      rewrite E'. split; [rewrite <- !app_assoc; reflexivity|].
      destruct r.
      * destruct Hr as (k0 & v0 & -> & Hr). exists k0, v0.
        split; [rewrite <- !app_assoc; reflexivity|exact Hr].
      * rewrite Hr, <- !app_assoc. reflexivity.
Qed.

(** [Delete] takes one entry out of the sequence, an entry with the
    prefix of the key. *)
Lemma Delete_rel_split pim n o :
  Delete_rel key pim n o ->
  match o with
  | DUnchanged _ => True
  | DReplaced n' =>
      exists l1 k0 v0 l2, entries n = l1 ++ (k0, v0) :: l2
                          /\ entries n' = l1 ++ l2 /\ key_equiv k0 key
  | DCollapse _ =>
      exists k0 v0, n = Node k0 nilNode nilNode v0 false /\ key_equiv k0 key
  end.
Proof.
  intros Hrel. induction Hrel as
    [pim|pim nk c0 c1 v im Hr|pim nk c0 c1 v Hm Hp H0 H1|nk v Hm Hp
    |pim nk c0 c1 v Hm Hp Hn Hq|pim nk c0 c1 v im o Hm Hp Hrel IH];
    try exact I.
  - exists (entries c0), nk, v, (entries c1).
    split; [reflexivity|]. split; [reflexivity|exact (@stop_equiv nk Hm Hp)].
  - exists nk, v.
    split; [reflexivity|exact (@stop_equiv nk Hm Hp)].
  - pose proof (@stop_equiv nk Hm Hp) as He.
    destruct Hn as [-> | ->].
    + exists [], nk, v, (entries c1). cbn. auto.
    + exists (entries c0), nk, v, []. cbn [entries app].
      split; [reflexivity|]. split; [|exact He].
      destruct c0; cbn; rewrite ?app_nil_r; reflexivity.
  - set (mid := if im then [] else [(nk, v)]).
    destruct o as [|c'|]; cbn [lift_outcome]; [exact I| |].
    + destruct IH as (l1 & k0 & v0 & l2 & E & E' & He). cbn [child] in E.
      cbn [set_child].
      destruct (kbit (Data key) (PrefixLen nk) =? 0).
      * exists l1, k0, v0, (l2 ++ mid ++ entries c1). cbn [entries]. fold mid.
        rewrite E, E', <- !app_assoc. auto.
      * exists (entries c0 ++ mid ++ l1), k0, v0, l2. cbn [entries]. fold mid.
        rewrite E, E', <- !app_assoc. auto.
    + destruct IH as (k0 & v0 & E & He).
      destruct (Delete_rel_collapse Hrel) as (-> & _).
      unfold sibling. cbn [child] in E |- *.
      destruct (kbit (Data key) (PrefixLen nk) =? 0); cbn [Z.eqb].
      * exists [], k0, v0, (entries c1). subst c0. cbn. auto.
      * exists (entries c0), k0, v0, []. subst c1. cbn.
        rewrite app_nil_r. auto.
Qed.
End EntryFacts.

Section EntryClaims.
Variable V : Type.
Implicit Types (t : lpmTrie V).

Lemma isValidKey_reachable mpl (t0 t : lpmTrie V) k :
  New V mpl = inl t0 -> maxPrefixLen t = mpl -> keySize t = Z.quot mpl 8 ->
  isValidKey t k = isValidKey t0 k.
Proof.
  intros Hnew Em Ek. unfold New in Hnew. destruct (_ || _); [discriminate|].
  injection Hnew as <-. unfold isValidKey. rewrite Em, Ek. reflexivity.
Qed.

Lemma size_put_back t :
  Inv t -> AddInt64 (AddInt64 (size t) 1) (-1) = size t.
Proof.
  intros (_ & _ & _ & Hsz). rewrite Hsz, !AddInt64_wrap. f_equal. lia.
Qed.

(** X4: after any run with valid keys on a fresh trie, [Update(k, v)]
    changes the sequence of entries that [Range] yields at one place only:
    either it inserts [(k, v)] between two entries and [Size()] grows by
    one, or it overwrites one entry whose key has the prefix of [k],
    returns [true] and leaves [Size()] as it was.  All other entries keep
    their keys, values and order. *)
Theorem Update_changes_one_entry mpl (t0 : lpmTrie V) ops k v :
  New V mpl = inl t0 -> valid_ops t0 ops -> isValidKey t0 k = true ->
  exists t t' u l1 l2,
    run_ops t0 ops = Ok t /\ Update t k v = Ok (t', u)
    /\ entries (root t') = l1 ++ (k, v) :: l2
    /\ ((entries (root t) = l1 ++ l2 /\ Size t' = AddInt64 (Size t) 1)
        \/ (exists k0 v0, entries (root t) = l1 ++ (k0, v0) :: l2
                          /\ key_equiv k0 k /\ u = true /\ Size t' = Size t)).
Proof.
  intros Hnew Hv Hk.
  destruct (@reachable_facts V mpl t0 ops Hnew Hv) as (t & E & Hinv & _ & Em & Ek).
  rewrite <- (@isValidKey_reachable mpl t0 t k Hnew Em Ek) in Hk.
  pose proof Hinv as (Hcfg & Hsh & _).
  destruct (Update_spec k v Hcfg Hk Hsh) as (n' & u & r & Hrel & Heq).
  destruct (Update_rel_split Hrel) as (l1 & l2 & E' & Hr).
  eexists t, _, u, l1, l2. split; [exact E|]. split; [exact Heq|].
  cbn [root]. split; [exact E'|]. unfold Size. cbn [size].
  destruct r.
  - right. destruct Hr as (k0 & v0 & E0 & He & Hu). exists k0, v0.
    split; [exact E0|]. split; [exact He|]. split; [exact Hu|].
    apply size_put_back, Hinv.
  - left. split; [exact Hr|reflexivity].
Qed.

(** X5: after any run with valid keys on a fresh trie, [Delete(k)] either
    returns [false] and leaves the trie as it is, or returns [true],
    takes exactly one entry out of the sequence that [Range] yields, an
    entry whose key has the prefix of [k], and lowers [Size()] by one.
    All other entries keep their keys, values and order. *)
Theorem Delete_removes_one_entry mpl (t0 : lpmTrie V) ops k :
  New V mpl = inl t0 -> valid_ops t0 ops -> isValidKey t0 k = true ->
  exists t t' d,
    run_ops t0 ops = Ok t /\ Delete t k = Ok (t', d)
    /\ ((d = false /\ t' = t)
        \/ (d = true /\
            exists l1 k0 v0 l2, entries (root t) = l1 ++ (k0, v0) :: l2
                                /\ entries (root t') = l1 ++ l2
                                /\ key_equiv k0 k
                                /\ Size t' = AddInt64 (Size t) (-1))).
Proof.
  intros Hnew Hv Hk.
  destruct (@reachable_facts V mpl t0 ops Hnew Hv) as (t & E & Hinv & _ & Em & Ek).
  rewrite <- (@isValidKey_reachable mpl t0 t k Hnew Em Ek) in Hk.
  pose proof Hinv as (Hcfg & Hsh & _).
  destruct (Delete_spec k Hcfg Hk Hsh) as (o & Hrel & Heq).
  pose proof (Delete_rel_split Hrel) as Hs.
  pose proof (Delete_rel_top Hrel) as Htop.
  destruct o as [|x|]; [| |contradiction].
  - exists t, t, false. auto.
  - eexists t, _, true. split; [exact E|]. split; [exact Heq|]. right.
    split; [reflexivity|]. destruct Hs as (l1 & k0 & v0 & l2 & E0 & E1 & He).
    exists l1, k0, v0, l2. cbn [root]. auto.
Qed.
End EntryClaims.

Lemma Update_changes_one_entry_witness :
  exists t t' u l1 l2,
    run_ops (empty32 Z) ops_AB = Ok t /\ Update t kA (Some 9) = Ok (t', u)
    /\ entries (root t') = l1 ++ (kA, Some 9) :: l2
    /\ ((entries (root t) = l1 ++ l2 /\ Size t' = AddInt64 (Size t) 1)
        \/ (exists k0 v0, entries (root t) = l1 ++ (k0, v0) :: l2
                          /\ key_equiv k0 kA /\ u = true /\ Size t' = Size t)).
Proof.
  apply (@Update_changes_one_entry Z 32 (empty32 Z) ops_AB kA (Some 9)).
  - reflexivity.
  - repeat constructor.
  - reflexivity.
Defined.

Lemma Delete_removes_one_entry_witness :
  exists t t' d,
    run_ops (empty32 Z) ops_AB = Ok t /\ Delete t kA = Ok (t', d)
    /\ ((d = false /\ t' = t)
        \/ (d = true /\
            exists l1 k0 v0 l2, entries (root t) = l1 ++ (k0, v0) :: l2
                                /\ entries (root t') = l1 ++ l2
                                /\ key_equiv k0 kA
                                /\ Size t' = AddInt64 (Size t) (-1))).
Proof.
  apply (@Delete_removes_one_entry Z 32 (empty32 Z) ops_AB kA).
  - reflexivity.
  - repeat constructor.
  - reflexivity.
Defined.

(** ** Update, then Lookup of the same key *)

Section RoundTrip.
Variable V : Type.
Variable t : lpmTrie V.
Hypothesis Hcfg : cfg_ok t.
Variable key : Key.
Variable val : option V.
Hypothesis Hkey : key_ok (keySize t) (maxPrefixLen t) key.
Hypothesis Hfull : PrefixLen key = maxPrefixLen t.

(** [Lookup] follows the path [Update] took and stops at the new node. *)
Lemma Update_rel_Lookup_full (n n' : lpmTrieNode V) u r :
  Update_rel (maxPrefixLen t) key val n n' u r -> shape t n ->
  forall found, Lookup_loop t key n' found = Ok (val, true).
Proof.
  destruct Hcfg as [Hpos Hmpl].
  pose proof (lpm_bitwise_self Hmpl Hkey) as Hself.
  intros Hrel. induction Hrel as
    [|nk c0 c1 v im Hm Hp|nk c0 c1 v im Hm|nk c0 c1 v im c' u r Hm Hp Hx Hrel IH];
    intros Hsh found.
  - cbn [newLpmTrieNode Lookup_loop]. rewrite (lpm_node t Hkey Hkey).
    cbn [bind]. rewrite Hself, Hfull, Z.eqb_refl. reflexivity.
  - cbn [Lookup_loop]. rewrite (lpm_node t Hkey Hkey).
    cbn [bind]. rewrite Hself, Hfull, Z.eqb_refl. reflexivity.
  - destruct Hsh as (Hnk & _).
    pose proof (lpm_bitwise_range Hnk Hkey) as (R0 & R1 & R2).
    pose proof (imkey_ok Hkey Hnk) as Hik.
    assert (Hlt : lpm_bitwise nk key < maxPrefixLen t)
      by (destruct Hnk as ((_ & Hle) & _); lia).
    assert (Him : lpm_bitwise (mkKey (lpm_bitwise nk key) (Data key)) key
                  = lpm_bitwise nk key)
      by (apply (lpm_bitwise_imkey Hmpl Hkey); lia).
    cbv zeta.
    destruct (Z.eqb_spec (kbit (Data key) (lpm_bitwise nk key)) 0) as [Eb|Nb];
      cbn [negb Lookup_loop]; rewrite (lpm_node t Hkey Hik); cbn [bind];
      rewrite Him; cbn [PrefixLen];
      (destruct (Z.eqb_spec (lpm_bitwise nk key) (maxPrefixLen t)); [lia|]);
      rewrite Z.ltb_irrefl, (extractBit_key Hcfg Hkey) by lia; cbn [bind].
    + rewrite Eb. cbn [Z.eqb newLpmTrieNode Lookup_loop].
      rewrite (lpm_node t Hkey Hkey). cbn [bind].
      rewrite Hself, Hfull, Z.eqb_refl. reflexivity.
    + destruct (Z.eqb_spec (kbit (Data key) (lpm_bitwise nk key)) 0);
        [contradiction|].
      cbn [newLpmTrieNode Lookup_loop].
      rewrite (lpm_node t Hkey Hkey). cbn [bind].
      rewrite Hself, Hfull, Z.eqb_refl. reflexivity.
  - pose proof Hsh as (Hnk & _).
    specialize (IH (@all_keys_child V _ _ (kbit (Data key) (PrefixLen nk)) Hsh)).
    assert (Hlt : 0 <= PrefixLen nk < maxPrefixLen t)
      by (destruct Hnk as ((? & ?) & _); lia).
    assert (Hloop : forall x0 x1 fd,
              (if kbit (Data key) (PrefixLen nk) =? 0 then x0 else x1) = c' ->
              Lookup_loop t key (Node nk x0 x1 v im) fd = Ok (val, true)).
    { intros x0 x1 fd Ex. cbn [Lookup_loop]. rewrite (lpm_node t Hkey Hnk).
      cbn [bind]. rewrite <- Hm.
      destruct (Z.eqb_spec (PrefixLen nk) (maxPrefixLen t)); [lia|].
      rewrite Z.ltb_irrefl, (extractBit_key Hcfg Hkey) by lia. cbn [bind].
      rewrite Ex. apply IH. }
    cbn [set_child].
    destruct (Z.eqb_spec (kbit (Data key) (PrefixLen nk)) 0) as [Eb|Nb];
      apply Hloop; reflexivity.
Qed.
End RoundTrip.

Section RoundTripClaims.
Variable V : Type.

(** X6: after any run with valid keys on a fresh trie, including the runs
    that insert a prefix of a stored longer key, [Update(k, v)] of a key of
    maximal prefix length followed by [Lookup(k)] returns [(v, true)]. *)
Theorem Update_then_Lookup_full mpl (t0 : lpmTrie V) ops k v :
  New V mpl = inl t0 -> valid_ops t0 ops ->
  isValidKey t0 k = true -> PrefixLen k = mpl ->
  exists t t' u, run_ops t0 ops = Ok t /\ Update t k v = Ok (t', u)
                 /\ Lookup t' k = Ok (v, true).
Proof.
  intros Hnew Hv Hk Hfull.
  destruct (@reachable_facts V mpl t0 ops Hnew Hv) as (t & E & Hinv & _ & Em & Ek).
  rewrite <- (@isValidKey_reachable V mpl t0 t k Hnew Em Ek) in Hk.
  pose proof Hinv as (Hcfg & Hsh & _).
  destruct (Update_spec k v Hcfg Hk Hsh) as (n' & u & r & Hrel & Heq).
  eexists t, _, u. split; [exact E|]. split; [exact Heq|].
  set (t' := mkTrie n' _ (maxPrefixLen t) (keySize t)).
  assert (Hk' : isValidKey t' k = true) by exact Hk.
  unfold Lookup, checkKey. rewrite Hk'. cbn [negb bind].
  apply (@Update_rel_Lookup_full V t' Hcfg k v
           (proj1 (isValidKey_ok t' k) Hk') (eq_trans Hfull (eq_sym Em))
           (root t) n' u r Hrel Hsh).
Qed.
End RoundTripClaims.

Lemma Update_then_Lookup_full_witness :
  exists t t' u, run_ops (empty32 Z) ops_slip = Ok t
                 /\ Update t kA (Some 5) = Ok (t', u)
                 /\ Lookup t' kA = Ok (Some 5, true).
Proof.
  apply (@Update_then_Lookup_full Z 32 (empty32 Z) ops_slip kA (Some 5)).
  - reflexivity.
  - repeat constructor.
  - reflexivity.
  - reflexivity.
Defined.

(** ** Runs that keep the prefix invariant *)

Section SafeFacts.
Variable V : Type.
Implicit Types (t : lpmTrie V) (n : lpmTrieNode V).

Lemma Update_branching t k v t' u :
  Inv t -> branching (root t) -> isValidKey t k = true ->
  stored_or_new k (root t) -> Update t k v = Ok (t', u) ->
  branching (root t').
Proof.
  intros (Hcfg & Hsh & Him & _) Hbr Hk Hs E.
  destruct (Update_spec k v Hcfg Hk Hsh) as (n' & u' & r & Hrel & Heq).
  rewrite Heq in E. injection E as <- _. cbn [root].
  pose proof Hcfg as (_ & Hmpl). apply isValidKey_ok in Hk.
  exact (Update_rel_branching Hmpl Hk Hrel Hsh Hbr Him Hs).
Qed.

Lemma Delete_branching t k t' d :
  Inv t -> branching (root t) -> isValidKey t k = true ->
  Delete t k = Ok (t', d) -> branching (root t').
Proof.
  intros (Hcfg & Hsh & Him & _) Hbr Hk E.
  destruct (Delete_spec k Hcfg Hk Hsh) as (o & Hrel & Heq).
  rewrite Heq in E. pose proof (Delete_rel_branching Hrel Hbr) as H.
  destruct o as [|x|]; injection E as <- _; cbn [root]; auto.
Qed.

(** A key of maximal prefix length is a proper prefix of no stored key. *)
Lemma full_key_new t k :
  shape t (root t) -> PrefixLen k = maxPrefixLen t ->
  stored_or_new k (root t).
Proof.
  intros Hsh Hfull. right. intros e He (Hlt & _).
  destruct (@all_keys_entries V _ _ Hsh e He) as ((_ & Hle) & _). lia.
Qed.

Lemma full_ops_safe ops : forall t,
  Inv t -> valid_ops t ops -> full_ops t ops -> safe_ops t ops.
Proof.
  induction ops as [|o ops IH]; intros t Hinv Hv Hf; [exact I|].
  inversion Hv as [|? ? Ho Hrest]; subst.
  inversion Hf as [|? ? Hfo Hfrest]; subst.
  cbn [safe_ops]. split.
  - destruct o as [k v|k]; [|exact I]. apply full_key_new; [apply Hinv|exact Hfo].
  - assert (Hstep : exists t1, apply_op t o = Ok t1 /\ Inv t1
                     /\ maxPrefixLen t1 = maxPrefixLen t /\ keySize t1 = keySize t).
    { destruct o as [k v|k]; cbn [apply_op op_key] in *.
      - destruct (@Update_inv V t k v Hinv Ho) as (t1 & u & -> & H1 & H2).
        exists t1. cbn. auto.
      - destruct (@Delete_inv V t k Hinv Ho) as (t1 & d & -> & H1 & H2).
        exists t1. cbn. auto. }
    destruct Hstep as (t1 & -> & Hinv1 & Em & Ek).
    apply IH; [exact Hinv1| |].
    + unfold valid_ops in *. eapply Forall_impl; [|exact Hrest].
      intros a Ha. unfold isValidKey in *. rewrite Em, Ek. exact Ha.
    + unfold full_ops in *. eapply Forall_impl; [|exact Hfrest].
      intros a Ha. cbn beta in *. rewrite Em. exact Ha.
Qed.

(** What holds of the trie after a safe run on a fresh trie. *)
Lemma safe_facts mpl (t0 : lpmTrie V) ops :
  New V mpl = inl t0 -> valid_ops t0 ops -> safe_ops t0 ops ->
  exists t, run_ops t0 ops = Ok t /\ Inv t /\ branching (root t)
            /\ maxPrefixLen t = mpl /\ keySize t = Z.quot mpl 8.
Proof.
  intros Hnew Hv Hs. destruct (@New_ok V mpl t0 Hnew) as (Hinv & Hm & Hr).
  destruct (@safe_ops_branching V ops t0 Hinv) as (t & E & Hi & Hb);
    [rewrite Hr; exact I|exact Hv|exact Hs|].
  destruct (@reachable_facts V mpl t0 ops Hnew Hv) as (t' & E' & _ & _ & Em & Ek).
  rewrite E in E'. injection E' as <-.
  exists t. auto.
Qed.

(** In a trie with the prefix invariant no two entries have the same
    prefix. *)
Lemma branching_unique n :
  all_keys (fun k => 0 <= PrefixLen k) n -> branching n ->
  forall e1 e2, In e1 (entries n) -> In e2 (entries n) ->
                key_equiv (fst e1) (fst e2) -> e1 = e2.
Proof.
  induction n as [|k c0 IH0 c1 IH1 v im]; intros Hp Hb e1 e2 H1 H2 He;
    [destruct H1|].
  destruct Hp as (Hk & P0 & P1). pose proof Hb as (E0 & E1 & B0 & B1).
  pose proof (@all_keys_entries V _ _ E0) as F0.
  pose proof (@all_keys_entries V _ _ E1) as F1.
  apply (entries_Node_iff k c0 c1 v im e1 (or_introl eq_refl)) in H1.
  apply (entries_Node_iff k c0 c1 v im e2 (or_introl eq_refl)) in H2.
  cbn [Z.eqb] in H1, H2. destruct He as (Hl & Ha).
  destruct H1 as [H1|[(_ & ->)|H1]]; destruct H2 as [H2|[(_ & ->)|H2]];
    cbn [fst] in *.
  - apply IH0; try assumption. split; assumption.
  - destruct (F0 _ H1) as (L & _). lia.
  - exfalso. destruct (F0 _ H1) as (L1 & _ & K1).
    destruct (F1 _ H2) as (L2 & _ & K2).
    specialize (Ha (PrefixLen k) ltac:(lia)). lia.
  - destruct (F0 _ H2) as (L & _). lia.
  - reflexivity.
  - destruct (F1 _ H2) as (L & _). lia.
  - exfalso. destruct (F1 _ H1) as (L1 & _ & K1).
    destruct (F0 _ H2) as (L2 & _ & K2).
    specialize (Ha (PrefixLen k) ltac:(lia)). lia.
  - destruct (F1 _ H1) as (L & _). lia.
  - apply IH1; try assumption. split; assumption.
Qed.

Lemma shape_nonneg t n :
  shape t n -> all_keys (fun k => 0 <= PrefixLen k) n.
Proof.
  apply all_keys_impl. intros k (Hk & _). lia.
Qed.
End SafeFacts.

Lemma ops_ABA_safe : safe_ops (empty32 Z) ops_ABA.
Proof.
  apply full_ops_safe.
  - apply (@New_ok Z 32). reflexivity.
  - repeat constructor.
  - repeat constructor.
Qed.

Lemma ops_nested_safe : safe_ops (empty32 Z) ops_nested.
Proof.
  unfold ops_nested. cbn [safe_ops]. split; [right; intros e []|].
  replace (apply_op (empty32 Z) (OpUpdate k8 (Some 1)))
    with (Ok (mkTrie (Node k8 nilNode nilNode (Some 1) false) 1 32 4))
    by (vm_compute; reflexivity).
  cbn [safe_ops]. split.
  - right. intros e [<-|[]] (H & _). cbn in H. lia.
  - replace (apply_op _ (OpUpdate k32 (Some 2))) with (Ok trie_nested)
      by (vm_compute; reflexivity).
    exact I.
Qed.

Section SafeClaims.
Variable V : Type.
Implicit Types (t : lpmTrie V).

(** X7: on every run from a fresh trie in which each [Update] finds its
    key stored or extended by no stored key, every node's key, cut at its
    prefix length, is a prefix of the key of every node below it; the
    keys below are strictly longer, and bit [PrefixLen] of a key below
    child 0 is 0, of a key below child 1 is 1.  In particular the prefix
    length grows strictly from every node to its children. *)
Theorem safe_runs_keep_prefixes mpl (t0 : lpmTrie V) ops :
  New V mpl = inl t0 -> valid_ops t0 ops -> safe_ops t0 ops ->
  exists t, run_ops t0 ops = Ok t /\ branching (root t)
            /\ increasing (root t) = true.
Proof.
  intros Hnew Hv Hs.
  destruct (@safe_facts V mpl t0 ops Hnew Hv Hs) as (t & E & _ & Hb & _).
  exists t. split; [exact E|]. split; [exact Hb|].
  apply branching_increasing, Hb.
Qed.

(** X8: on every such run, with [Delete] calls among the [Update] calls,
    [Lookup] of a valid key returns the value of the entry with the
    longest prefix among the entries that [Range] yields and whose prefix
    covers the query (it is no longer than the query and its bits are the
    first bits of the query), and [(nil, false)] when no entry covers the
    query. *)
Theorem Lookup_longest_match mpl (t0 : lpmTrie V) ops q :
  New V mpl = inl t0 -> valid_ops t0 ops -> safe_ops t0 ops ->
  isValidKey t0 q = true ->
  exists t res, run_ops t0 ops = Ok t /\ Lookup t q = Ok res
                /\ lpm_among (entries (root t)) q res.
Proof.
  intros Hnew Hv Hs Hq.
  destruct (@safe_facts V mpl t0 ops Hnew Hv Hs) as (t & E & Hinv & Hb & Em & Ek).
  rewrite <- (@isValidKey_reachable V mpl t0 t q Hnew Em Ek) in Hq.
  pose proof Hinv as (Hcfg & Hsh & Him & _).
  pose proof (proj1 (isValidKey_ok t q) Hq) as Hqk.
  destruct (Lookup_loop_spec Hcfg Hqk (root t) Hsh Hb Him nilNode)
    as (res & Eres & Hres).
  exists t, res. split; [exact E|].
  split; [unfold Lookup, checkKey; rewrite Hq; exact Eres|exact Hres].
Qed.
End SafeClaims.

Lemma safe_runs_keep_prefixes_witness :
  exists t, run_ops (empty32 Z) ops_nested = Ok t /\ branching (root t)
            /\ increasing (root t) = true.
Proof.
  apply (@safe_runs_keep_prefixes Z 32 (empty32 Z) ops_nested).
  - reflexivity.
  - repeat constructor.
  - exact ops_nested_safe.
Defined.

Lemma Lookup_longest_match_witness :
  exists t res, run_ops (empty32 Z) ops_ABA = Ok t /\ Lookup t kA = Ok res
                /\ lpm_among (entries (root t)) kA res.
Proof.
  apply (@Lookup_longest_match Z 32 (empty32 Z) ops_ABA kA).
  - reflexivity.
  - repeat constructor.
  - exact ops_ABA_safe.
  - reflexivity.
Defined.

(** ** Delete and the stored keys *)

Section DeleteFacts.
Variable V : Type.
Variables (ks mpl : Z).
Hypothesis Hmpl : mpl = 8 * ks.
Variable key : Key.
Hypothesis Hkey : key_ok ks mpl key.
Implicit Types (n : lpmTrieNode V).

(** With the prefix invariant, the descent of [Delete] finds the key when
    it is stored. *)
Lemma Delete_rel_stored pim n o :
  Delete_rel key pim n o ->
  all_keys (key_ok ks mpl) n -> branching n ->
  stored key (entries n) -> o <> DUnchanged V.
Proof.
  intros Hrel. induction Hrel as
    [pim|pim nk c0 c1 v im Hr|pim nk c0 c1 v Hm Hp H0 H1|nk v Hm Hp
    |pim nk c0 c1 v Hm Hp Hn Hq|pim nk c0 c1 v im o Hm Hp Hrel IH];
    intros Hsh Hbr (e & He & Heq); try discriminate.
  - destruct He.
  - exfalso. destruct Hr as [Hr|(Hr & ->)].
    + exact (equiv_no_fork Hmpl Hkey e Hsh Hbr He Heq Hr).
    + destruct Hbr as (E0 & E1 & _).
      cbn [entries app] in He. apply in_app_or in He.
      destruct Heq as (Hl & _).
      destruct He as [He|He];
        [destruct (@all_keys_entries V _ _ E0 e He) as (L & _)
        |destruct (@all_keys_entries V _ _ E1 e He) as (L & _)]; lia.
  - pose proof Hsh as ((Hnk0 & _) & _). pose proof Hbr as (E0 & E1 & _).
    pose proof (kbit_01 (Data key) (PrefixLen nk)) as Hb01.
    assert (Hin : In e (entries (child (Node nk c0 c1 v im)
                                       (kbit (Data key) (PrefixLen nk))))).
    { apply (entries_Node_iff nk c0 c1 v im e Hb01) in He. cbn [child].
      destruct He as [He|[(_ & ->)|He]]; [exact He| |].
      - destruct Heq as (Hl & _). cbn [fst] in Hl. contradiction.
      - exfalso. destruct Hb01 as [Hb|Hb]; rewrite Hb in He; cbn [Z.eqb] in He.
        + destruct (extends_not_equiv (proj1 Hnk0)
                      (@all_keys_entries V _ _ E1 e He) Heq) as (_ & _ & Hx).
          lia.
        + destruct (extends_not_equiv (proj1 Hnk0)
                      (@all_keys_entries V _ _ E0 e He) Heq) as (_ & _ & Hx).
          lia. }
    assert (Ho : o <> DUnchanged V).
    { apply IH.
      - apply all_keys_child, Hsh.
      - apply branching_child, Hbr.
      - exists e. auto. }
    destruct o; cbn [lift_outcome]; [contradiction|discriminate|discriminate].
Qed.
End DeleteFacts.

Section SortedFacts.

Lemma key_before_not_equiv a b : key_before a b -> ~ key_equiv a b.
Proof.
  intros (m & H0 & Ha & Hb & Hag & Hza & Hzb & Hlt) (Hl & He).
  assert (Hm : m < PrefixLen a) by lia.
  specialize (He m ltac:(lia)). specialize (Hza Hm).
  specialize (Hzb ltac:(lia)). lia.
Qed.

Lemma StronglySorted_mid (T : Type) (R : T -> T -> Prop) l1 : forall x l2,
  StronglySorted R (l1 ++ x :: l2) ->
  (forall y, In y l1 -> R y x) /\ (forall y, In y l2 -> R x y).
Proof.
  induction l1 as [|a l1 IH]; intros x l2 H; cbn [app] in H;
    inversion H as [|? ? Hs Hf]; subst.
  - split; [intros y []|]. intros y Hy.
    exact (proj1 (Forall_forall _ _) Hf y Hy).
  - destruct (IH _ _ Hs) as (H1 & H2). split; [|exact H2].
    intros y [<-|Hy]; [|auto].
    apply (proj1 (Forall_forall _ _) Hf). apply in_or_app. right. left.
    reflexivity.
Qed.

(** In a sequence of entries in the order of the walk, the entry in the
    middle shares its prefix with no other. *)
Lemma sorted_mid_unique (V : Type) (l1 l2 : list (Key * option V)) k0 v0 :
  StronglySorted key_before (map fst (l1 ++ (k0, v0) :: l2)) ->
  forall e, In e (l1 ++ l2) -> ~ key_equiv (fst e) k0.
Proof.
  rewrite map_app. cbn [map fst]. intros Hs e He Heq.
  destruct (StronglySorted_mid _ _ _ Hs) as (H1 & H2).
  apply in_app_or in He. destruct He as [He|He].
  - exact (key_before_not_equiv (H1 _ (in_map fst _ _ He)) Heq).
  - apply (key_before_not_equiv (H2 _ (in_map fst _ _ He))).
    apply key_equiv_sym. exact Heq.
Qed.
End SortedFacts.

Section DeleteClaims.
Variable V : Type.
Implicit Types (t : lpmTrie V).

(** On a trie with the prefix invariant, [Delete] returns whether the key
    is stored and leaves the entries with another prefix. *)
Lemma Delete_entries t k t' d :
  Inv t -> branching (root t) -> isValidKey t k = true ->
  Delete t k = Ok (t', d) ->
  (d = true <-> stored k (entries (root t)))
  /\ (d = false -> t' = t)
  /\ forall e, In e (entries (root t')) <->
               In e (entries (root t)) /\ ~ key_equiv (fst e) k.
Proof.
  intros Hinv Hbr Hk E. pose proof Hinv as (Hcfg & Hsh & Him & _).
  destruct (Delete_spec k Hcfg Hk Hsh) as (o & Hrel & Heq).
  rewrite Heq in E.
  pose proof (Delete_rel_split Hrel) as Hs.
  pose proof (Delete_rel_top Hrel) as Htop.
  pose proof Hcfg as (_ & Hmpl).
  pose proof (proj1 (isValidKey_ok t k) Hk) as Hkk.
  pose proof (Delete_rel_stored Hmpl Hkk Hrel Hsh Hbr) as Hst.
  destruct o as [|x|]; [| |contradiction]; injection E as <- <-.
  - split; [split; [discriminate|intros H; exfalso; exact (Hst H eq_refl)]|].
    split; [reflexivity|]. intros e. split; [|tauto].
    intros He. split; [exact He|]. intros Heq'.
    apply (Hst (ex_intro _ e (conj He Heq')) eq_refl).
  - destruct Hs as (l1 & k0 & v0 & l2 & E0 & E1 & He0). cbn [root].
    split; [split; [intros _|reflexivity]|].
    { exists (k0, v0). split; [|exact He0]. rewrite E0.
      apply in_or_app. right. left. reflexivity. }
    split; [discriminate|].
    pose proof (@branching_sorted V _ (@shape_nonneg V t _ Hsh) Hbr) as Hsorted.
    rewrite E0 in Hsorted. intros e. rewrite E0, E1. split.
    + intros He. split.
      * apply in_app_or in He. apply in_or_app.
        destruct He; [left|right; right]; assumption.
      * intros Heq'. apply (@sorted_mid_unique V l1 l2 k0 v0 Hsorted e He).
        exact (key_equiv_trans Heq' (key_equiv_sym He0)).
    + intros (He & Hne). apply in_app_or in He. apply in_or_app.
      destruct He as [He|[<-|He]]; [left; exact He| |right; exact He].
      contradiction.
Qed.

(** X9: on every run from a fresh trie in which each [Update] finds its
    key stored or extended by no stored key, [Delete(k)] returns [true]
    exactly when an entry with the prefix of [k] is stored; the entries
    afterwards are the entries before whose prefix is not that of [k];
    and a second [Delete(k)] returns [false] and changes nothing. *)
Theorem Delete_removes_the_key mpl (t0 : lpmTrie V) ops k :
  New V mpl = inl t0 -> valid_ops t0 ops -> safe_ops t0 ops ->
  isValidKey t0 k = true ->
  exists t t' d,
    run_ops t0 ops = Ok t /\ Delete t k = Ok (t', d)
    /\ (d = true <-> stored k (entries (root t)))
    /\ (forall e, In e (entries (root t')) <->
                  In e (entries (root t)) /\ ~ key_equiv (fst e) k)
    /\ Delete t' k = Ok (t', false).
Proof.
  intros Hnew Hv Hs Hk.
  destruct (@safe_facts V mpl t0 ops Hnew Hv Hs) as (t & E & Hinv & Hb & Em & Ek).
  rewrite <- (@isValidKey_reachable V mpl t0 t k Hnew Em Ek) in Hk.
  destruct (@Delete_inv V t k Hinv Hk) as (t' & d & Ed & Hinv' & Em' & Ek').
  pose proof (@Delete_branching V t k t' d Hinv Hb Hk Ed) as Hb'.
  destruct (@Delete_entries t k t' d Hinv Hb Hk Ed) as (Hd & _ & Hent).
  exists t, t', d. split; [exact E|]. split; [exact Ed|].
  split; [exact Hd|]. split; [exact Hent|].
  assert (Hk' : isValidKey t' k = true)
    by (unfold isValidKey in *; rewrite Em', Ek'; exact Hk).
  destruct (@Delete_inv V t' k Hinv' Hk') as (t2 & d2 & Ed2 & _).
  destruct (@Delete_entries t' k t2 d2 Hinv' Hb' Hk' Ed2) as (Hd2 & Hsame & _).
  destruct d2.
  - exfalso. destruct (proj1 Hd2 eq_refl) as (e & He & Heq).
    apply Hent in He. destruct He as (_ & Hne). contradiction.
  - rewrite (Hsame eq_refl) in Ed2. exact Ed2.
Qed.
End DeleteClaims.

Lemma Delete_removes_the_key_witness :
  exists t t' d,
    run_ops (empty32 Z) ops_nested = Ok t /\ Delete t k8 = Ok (t', d)
    /\ (d = true <-> stored k8 (entries (root t)))
    /\ (forall e, In e (entries (root t')) <->
                  In e (entries (root t)) /\ ~ key_equiv (fst e) k8)
    /\ Delete t' k8 = Ok (t', false).
Proof.
  apply (@Delete_removes_the_key Z 32 (empty32 Z) ops_nested k8).
  - reflexivity.
  - repeat constructor.
  - exact ops_nested_safe.
  - reflexivity.
Defined.

(** ** Update and the stored keys *)

Section UpdateStored.
Variable V : Type.
Variables (ks mpl : Z).
Hypothesis Hmpl : mpl = 8 * ks.
Variable key : Key.
Variable val : option V.
Hypothesis Hkey : key_ok ks mpl key.
Implicit Types (n : lpmTrieNode V).

(** With the prefix invariant, [Update] puts the counter back exactly when
    the key is stored. *)
Lemma Update_rel_stored n n' u r :
  Update_rel mpl key val n n' u r ->
  all_keys (key_ok ks mpl) n -> branching n ->
  (r = true <-> stored key (entries n)).
Proof.
  intros Hrel. induction Hrel as
    [|nk c0 c1 v im Hm Hp|nk c0 c1 v im Hm|nk c0 c1 v im c' u r Hm Hp Hx Hrel IH];
    intros Hsh Hbr.
  - split; [discriminate|intros (e & [] & _)].
  - destruct im; cbn [negb].
    + split; [discriminate|]. intros (e & He & Heq). exfalso.
      destruct Hbr as (E0 & E1 & _).
      cbn [entries app] in He. apply in_app_or in He.
      destruct Heq as (Hl & _).
      destruct He as [He|He];
        [destruct (@all_keys_entries V _ _ E0 e He) as (L & _)
        |destruct (@all_keys_entries V _ _ E1 e He) as (L & _)]; lia.
    + split; [intros _|reflexivity]. exists (nk, v).
      split; [cbn [entries]; apply in_or_app; right; left; reflexivity|].
      exact (@stop_equiv key nk Hm Hp).
  - split; [discriminate|]. intros (e & He & Heq). exfalso.
    exact (equiv_no_fork Hmpl Hkey e Hsh Hbr He Heq Hm).
  - pose proof Hsh as ((Hnk0 & _) & _). pose proof Hbr as (E0 & E1 & _).
    pose proof (kbit_01 (Data key) (PrefixLen nk)) as Hb01.
    rewrite IH; [|apply all_keys_child, Hsh|apply branching_child, Hbr].
    cbn [child]. split; intros (e & He & Heq); exists e; (split; [|exact Heq]).
    + apply (entries_Node_iff nk c0 c1 v im e Hb01). left. exact He.
    + apply (entries_Node_iff nk c0 c1 v im e Hb01) in He.
      destruct He as [He|[(_ & ->)|He]]; [exact He| |].
      * destruct Heq as (Hl & _). cbn [fst] in Hl. contradiction.
      * exfalso. destruct Hb01 as [Hb|Hb]; rewrite Hb in He; cbn [Z.eqb] in He.
        -- destruct (extends_not_equiv (proj1 Hnk0)
                       (@all_keys_entries V _ _ E1 e He) Heq) as (_ & _ & Hy).
           lia.
        -- destruct (extends_not_equiv (proj1 Hnk0)
                       (@all_keys_entries V _ _ E0 e He) Heq) as (_ & _ & Hy).
           lia.
Qed.
End UpdateStored.

Section UpdateClaims.
Variable V : Type.
Implicit Types (t : lpmTrie V).

(** On a trie with the prefix invariant, [Update] binds the key, leaves
    the entries with another prefix, and counts the key once. *)
Lemma Update_entries t k v t' u :
  Inv t -> branching (root t) -> isValidKey t k = true ->
  Update t k v = Ok (t', u) ->
  (forall e, In e (entries (root t')) <->
             e = (k, v) \/ (In e (entries (root t)) /\ ~ key_equiv (fst e) k))
  /\ (stored k (entries (root t)) -> u = true /\ Size t' = Size t)
  /\ (~ stored k (entries (root t)) -> Size t' = AddInt64 (Size t) 1).
Proof.
  intros Hinv Hbr Hk E. pose proof Hinv as (Hcfg & Hsh & Him & _).
  destruct (Update_spec k v Hcfg Hk Hsh) as (n' & u' & r & Hrel & Heq).
  rewrite Heq in E. injection E as <- <-.
  pose proof Hcfg as (_ & Hmpl).
  pose proof (proj1 (isValidKey_ok t k) Hk) as Hkk.
  pose proof (Update_rel_stored Hmpl Hkk Hrel Hsh Hbr) as Hst.
  cbn [root]. unfold Size. cbn [size].
  split; [exact (Update_rel_entries Hmpl Hkk Hrel Hsh Hbr)|]. split.
  - intros Hs. apply Hst in Hs. subst r.
    destruct (Update_rel_split Hrel) as (l1 & l2 & _ & k0 & v0 & _ & _ & Hu).
    split; [exact Hu|apply size_put_back, Hinv].
  - intros Hs. destruct r; [|reflexivity].
    exfalso. apply Hs, Hst. reflexivity.
Qed.

(** X10: on every run from a fresh trie in which each [Update] finds its
    key stored or extended by no stored key, a further [Update(k, v)] with
    any valid key makes [(k, v)] an entry, drops the entry that had the
    prefix of [k] and keeps all others.  If the prefix was stored it
    returns [true] and [Size()] is unchanged; if not, [Size()] grows by
    one. *)
Theorem Update_binds_the_key mpl (t0 : lpmTrie V) ops k v :
  New V mpl = inl t0 -> valid_ops t0 ops -> safe_ops t0 ops ->
  isValidKey t0 k = true ->
  exists t t' u,
    run_ops t0 ops = Ok t /\ Update t k v = Ok (t', u)
    /\ (forall e, In e (entries (root t')) <->
                  e = (k, v)
                  \/ (In e (entries (root t)) /\ ~ key_equiv (fst e) k))
    /\ (stored k (entries (root t)) -> u = true /\ Size t' = Size t)
    /\ (~ stored k (entries (root t)) -> Size t' = AddInt64 (Size t) 1).
Proof.
  intros Hnew Hv Hs Hk.
  destruct (@safe_facts V mpl t0 ops Hnew Hv Hs) as (t & E & Hinv & Hb & Em & Ek).
  rewrite <- (@isValidKey_reachable V mpl t0 t k Hnew Em Ek) in Hk.
  destruct (@Update_inv V t k v Hinv Hk) as (t' & u & Eu & _).
  exists t, t', u. split; [exact E|]. split; [exact Eu|].
  exact (@Update_entries t k v t' u Hinv Hb Hk Eu).
Qed.
End UpdateClaims.

Lemma Update_binds_the_key_witness :
  exists t t' u,
    run_ops (empty32 Z) ops_nested = Ok t /\ Update t k8 (Some 7) = Ok (t', u)
    /\ (forall e, In e (entries (root t')) <->
                  e = (k8, Some 7)
                  \/ (In e (entries (root t)) /\ ~ key_equiv (fst e) k8))
    /\ (stored k8 (entries (root t)) -> u = true /\ Size t' = Size t)
    /\ (~ stored k8 (entries (root t)) -> Size t' = AddInt64 (Size t) 1).
Proof.
  apply (@Update_binds_the_key Z 32 (empty32 Z) ops_nested k8 (Some 7)).
  - reflexivity.
  - repeat constructor.
  - exact ops_nested_safe.
  - reflexivity.
Defined.

(** ** Lookup as a function of the entries *)

Section LpmFacts.
Variable V : Type.
Implicit Types (t : lpmTrie V) (es : list (Key * option V)).

Lemma Lookup_lpm t q :
  Inv t -> branching (root t) -> isValidKey t q = true ->
  exists res, Lookup t q = Ok res /\ lpm_among (entries (root t)) q res.
Proof.
  intros (Hcfg & Hsh & Him & _) Hb Hq.
  pose proof (proj1 (isValidKey_ok t q) Hq) as Hqk.
  destruct (Lookup_loop_spec Hcfg Hqk (root t) Hsh Hb Him nilNode)
    as (res & Eres & Hres).
  exists res. split; [unfold Lookup, checkKey; rewrite Hq; exact Eres|exact Hres].
Qed.

Lemma matches_same_len a b q :
  matches a q -> matches b q -> PrefixLen a = PrefixLen b -> key_equiv a b.
Proof.
  intros (La & Ha) (Lb & Hb) Hl. split; [exact Hl|].
  intros i Hi. rewrite (Ha i Hi), (Hb i ltac:(lia)). reflexivity.
Qed.

Lemma lpm_among_unique es q r1 r2 :
  (forall e1 e2, In e1 es -> In e2 es ->
                 key_equiv (fst e1) (fst e2) -> e1 = e2) ->
  lpm_among es q r1 -> lpm_among es q r2 -> r1 = r2.
Proof.
  intros Hu [(k1 & v1 & I1 & M1 & -> & X1)|(-> & N1)]
            [(k2 & v2 & I2 & M2 & -> & X2)|(-> & N2)].
  - pose proof (X1 _ I2 M2) as L1. pose proof (X2 _ I1 M1) as L2.
    cbn [fst] in L1, L2.
    assert (E : (k1, v1) = (k2, v2)).
    { apply Hu; [exact I1|exact I2|].
      apply (matches_same_len M1 M2). lia. }
    injection E as _ <-. reflexivity.
  - exfalso. exact (N2 _ I1 M1).
  - exfalso. exact (N1 _ I2 M2).
  - reflexivity.
Qed.

Lemma lpm_among_ext es es' q r :
  (forall e, matches (fst e) q -> (In e es <-> In e es')) ->
  lpm_among es q r -> lpm_among es' q r.
Proof.
  intros Hx [(k & v & I & M & -> & X)|(-> & N)].
  - left. exists k, v. split; [apply (Hx (k, v) M), I|].
    split; [exact M|]. split; [reflexivity|].
    intros e He Hm. apply X; [apply (Hx e Hm), He|exact Hm].
  - right. split; [reflexivity|]. intros e He Hm.
    apply (N e); [apply (Hx e Hm), He|exact Hm].
Qed.

(** Two tries with the prefix invariant whose entries covering [q] are the
    same answer [Lookup(q)] alike. *)
Lemma Lookup_ext t t' q :
  Inv t -> branching (root t) -> Inv t' -> branching (root t') ->
  isValidKey t q = true -> isValidKey t' q = true ->
  (forall e, matches (fst e) q ->
             (In e (entries (root t)) <-> In e (entries (root t')))) ->
  Lookup t' q = Lookup t q.
Proof.
  intros Hinv Hb Hinv' Hb' Hq Hq' Hx.
  destruct (Lookup_lpm q Hinv Hb Hq) as (r & E & Hr).
  destruct (Lookup_lpm q Hinv' Hb' Hq') as (r' & E' & Hr').
  rewrite E, E'. f_equal.
  apply (@lpm_among_unique (entries (root t')) q r' r); [|exact Hr'|].
  - apply branching_unique; [|exact Hb'].
    destruct Hinv' as (_ & Hsh' & _). exact (@shape_nonneg V t' _ Hsh').
  - exact (@lpm_among_ext _ _ q r Hx Hr).
Qed.
End LpmFacts.

(** ** Runs and their last write *)

Section SnocFacts.
Variable V : Type.
Implicit Types (t : lpmTrie V).

Lemma safe_ops_app l1 : forall t t1 l2,
  safe_ops t (l1 ++ l2) -> run_ops t l1 = Ok t1 ->
  safe_ops t l1 /\ safe_ops t1 l2.
Proof.
  induction l1 as [|o l1 IH]; intros t t1 l2 Hs Hrun.
  - injection Hrun as <-. split; [exact I|exact Hs].
  - cbn [app safe_ops run_ops] in *. destruct Hs as (Hs1 & Hs2).
    destruct (apply_op t o) as [t'|]; [|discriminate].
    cbn [bind] in Hrun. destruct (IH _ _ _ Hs2 Hrun) as (H1 & H2).
    auto.
Qed.

(** The states before and after the last write of a safe run. *)
Lemma snoc_facts mpl (t0 : lpmTrie V) ops o :
  New V mpl = inl t0 ->
  valid_ops t0 (ops ++ [o]) -> safe_ops t0 (ops ++ [o]) ->
  exists t t', run_ops t0 ops = Ok t /\ apply_op t o = Ok t'
               /\ run_ops t0 (ops ++ [o]) = Ok t'
               /\ Inv t /\ branching (root t)
               /\ Inv t' /\ branching (root t')
               /\ (forall k, isValidKey t k = isValidKey t0 k)
               /\ (forall k, isValidKey t' k = isValidKey t0 k)
               /\ safe_ops t [o].
Proof.
  intros Hnew Hv Hs.
  destruct (@safe_facts V mpl t0 _ Hnew Hv Hs) as (t' & E' & Hi' & Hb' & Em' & Ek').
  pose proof (proj1 (Forall_app _ _ _) Hv) as (Hv1 & Hv2).
  destruct (@reachable_facts V mpl t0 ops Hnew Hv1) as (t & E & Hi & _ & Em & Ek).
  destruct (safe_ops_app _ _ _ Hs E) as (Hs1 & Hs2).
  destruct (@safe_facts V mpl t0 _ Hnew Hv1 Hs1) as (tx & Ex & _ & Hb & _).
  rewrite E in Ex. injection Ex as <-.
  exists t, t'. rewrite run_ops_app, E in E'. cbn [bind run_ops] in E'.
  split; [exact E|]. split.
  { destruct (apply_op t o); [cbn in E'; exact E'|discriminate]. }
  split; [rewrite run_ops_app, E; exact E'|].
  repeat (split; [assumption|]).
  split; [intros k; exact (@isValidKey_reachable V mpl t0 t k Hnew Em Ek)|].
  split; [intros k; exact (@isValidKey_reachable V mpl t0 t' k Hnew Em' Ek')|].
  exact Hs2.
Qed.
End SnocFacts.

Section LastWriteClaims.
Variable V : Type.
Implicit Types (t : lpmTrie V).

Lemma apply_op_Update t k v t' :
  apply_op t (OpUpdate k v) = Ok t' -> exists u, Update t k v = Ok (t', u).
Proof.
  cbn [apply_op]. destruct (Update t k v) as [[t1 u]|]; [|discriminate].
  cbn. intros [= <-]. exists u. reflexivity.
Qed.

Lemma apply_op_Delete t k t' :
  apply_op t (OpDelete k) = Ok t' -> exists d, Delete t k = Ok (t', d).
Proof.
  cbn [apply_op]. destruct (Delete t k) as [[t1 d]|]; [|discriminate].
  cbn. intros [= <-]. exists d. reflexivity.
Qed.

(** The entries after a write, on a trie with the prefix invariant. *)
Lemma apply_op_entries t o t' :
  Inv t -> branching (root t) -> isValidKey t (op_key o) = true ->
  apply_op t o = Ok t' ->
  forall e, In e (entries (root t')) <->
            match o with
            | OpUpdate k v => e = (k, v)
            | OpDelete _ => False
            end
            \/ (In e (entries (root t)) /\ ~ key_equiv (fst e) (op_key o)).
Proof.
  intros Hinv Hb Hk E e. destruct o as [k v|k]; cbn [op_key] in *.
  - destruct (@apply_op_Update t k v t' E) as (u & Eu).
    exact (proj1 (@Update_entries V t k v t' u Hinv Hb Hk Eu) e).
  - destruct (@apply_op_Delete t k t' E) as (d & Ed).
    rewrite (proj2 (proj2 (@Delete_entries V t k t' d Hinv Hb Hk Ed)) e).
    tauto.
Qed.

(** X11: on a run from a fresh trie in which each [Update], the last one
    included, finds its key stored or extended by no stored key,
    [Lookup(k)] after a last [Update(k, v)] returns [(v, true)], whatever
    the prefix length of [k]. *)
Theorem Update_then_Lookup mpl (t0 : lpmTrie V) ops k v :
  New V mpl = inl t0 ->
  valid_ops t0 (ops ++ [OpUpdate k v]) ->
  safe_ops t0 (ops ++ [OpUpdate k v]) ->
  exists t', run_ops t0 (ops ++ [OpUpdate k v]) = Ok t'
             /\ Lookup t' k = Ok (v, true).
Proof.
  intros Hnew Hv Hs.
  destruct (@snoc_facts V mpl t0 ops _ Hnew Hv Hs)
    as (t & t' & E & Eo & E' & Hi & Hb & Hi' & Hb' & Hvt & Hvt' & _).
  exists t'. split; [exact E'|].
  assert (Hk0 : isValidKey t0 k = true).
  { pose proof (proj1 (Forall_app _ _ _) Hv) as (_ & Hv2).
    inversion Hv2; assumption. }
  assert (Hk : isValidKey t k = true) by (rewrite Hvt; exact Hk0).
  assert (Hk' : isValidKey t' k = true) by (rewrite Hvt'; exact Hk0).
  pose proof (@apply_op_entries t (OpUpdate k v) t' Hi Hb Hk Eo) as Hent.
  cbn [op_key] in Hent.
  destruct (Lookup_lpm k Hi' Hb' Hk') as (res & Eres & Hres).
  rewrite Eres. f_equal.
  assert (Hkk : matches k k) by (split; [lia|intros i Hi0; reflexivity]).
  assert (Hin : In (k, v) (entries (root t'))) by (apply Hent; left; reflexivity).
  destruct Hres as [(k1 & v1 & I1 & M1 & -> & X1)|(-> & N1)].
  - pose proof (X1 _ Hin Hkk) as L. cbn [fst] in L.
    apply Hent in I1. destruct I1 as [[= -> ->]|(_ & Hne)]; [reflexivity|].
    exfalso. apply Hne. cbn [fst]. destruct M1 as (L1 & A1).
    split; [lia|exact A1].
  - exfalso. exact (N1 _ Hin Hkk).
Qed.

(** X12: on such a run, a last [Update] or [Delete] of a key [k] leaves
    [Lookup(q)] as it was for every valid query [q] that the prefix of
    [k] does not cover. *)
Theorem write_leaves_other_lookups mpl (t0 : lpmTrie V) ops o q :
  New V mpl = inl t0 ->
  valid_ops t0 (ops ++ [o]) -> safe_ops t0 (ops ++ [o]) ->
  isValidKey t0 q = true -> ~ matches (op_key o) q ->
  exists t t', run_ops t0 ops = Ok t /\ apply_op t o = Ok t'
               /\ Lookup t' q = Lookup t q.
Proof.
  intros Hnew Hv Hs Hq Hnm.
  destruct (@snoc_facts V mpl t0 ops _ Hnew Hv Hs)
    as (t & t' & E & Eo & E' & Hi & Hb & Hi' & Hb' & Hvt & Hvt' & _).
  exists t, t'. split; [exact E|]. split; [exact Eo|].
  assert (Hk0 : isValidKey t0 (op_key o) = true).
  { pose proof (proj1 (Forall_app _ _ _) Hv) as (_ & Hv2).
    inversion Hv2; assumption. }
  assert (Hk : isValidKey t (op_key o) = true) by (rewrite Hvt; exact Hk0).
  pose proof (@apply_op_entries t o t' Hi Hb Hk Eo) as Hent.
  apply Lookup_ext; try assumption; [rewrite Hvt|rewrite Hvt'|]; try exact Hq.
  intros e Hm. rewrite Hent. split.
  - intros He. right. split; [exact He|]. intros Heq.
    exact (Hnm (matches_equiv Heq Hm)).
  - intros [He|(He & _)]; [|exact He]. exfalso.
    destruct o as [k v|k]; [|exact He]. subst e. exact (Hnm Hm).
Qed.
End LastWriteClaims.

Lemma Update_then_Lookup_witness :
  exists t', run_ops (empty32 Z) ([OpUpdate k8 (Some 1)] ++ [OpUpdate k32 (Some 2)])
             = Ok t'
             /\ Lookup t' k32 = Ok (Some 2, true).
Proof.
  apply (@Update_then_Lookup Z 32 (empty32 Z) [OpUpdate k8 (Some 1)] k32 (Some 2)).
  - reflexivity.
  - repeat constructor.
  - exact ops_nested_safe.
Defined.

Lemma write_leaves_other_lookups_witness :
  exists t t', run_ops (empty32 Z) [OpUpdate k8 (Some 1)] = Ok t
               /\ apply_op t (OpUpdate k32 (Some 2)) = Ok t'
               /\ Lookup t' k8 = Lookup t k8.
Proof.
  apply (@write_leaves_other_lookups Z 32 (empty32 Z)
           [OpUpdate k8 (Some 1)] (OpUpdate k32 (Some 2)) k8).
  - reflexivity.
  - repeat constructor.
  - exact ops_nested_safe.
  - reflexivity.
  - intros (H & _). cbn in H. lia.
Defined.

(** ** The trie as a finite map *)

Section LiveFacts.
Variable V : Type.
Implicit Types (t : lpmTrie V).

Lemma safe_step t o :
  Inv t -> branching (root t) -> isValidKey t (op_key o) = true ->
  match o with
  | OpUpdate k _ => stored_or_new k (root t)
  | OpDelete _ => True
  end ->
  exists t1, apply_op t o = Ok t1 /\ Inv t1 /\ branching (root t1)
             /\ maxPrefixLen t1 = maxPrefixLen t /\ keySize t1 = keySize t.
Proof.
  intros Hinv Hb Hk Hs. destruct o as [k v|k]; cbn [apply_op op_key] in *.
  - destruct (@Update_inv V t k v Hinv Hk) as (t1 & u & E & H1 & H2).
    exists t1. rewrite E. cbn. split; [reflexivity|]. split; [exact H1|].
    split; [exact (@Update_branching V t k v t1 u Hinv Hb Hk Hs E)|exact H2].
  - destruct (@Delete_inv V t k Hinv Hk) as (t1 & d & E & H1 & H2).
    exists t1. rewrite E. cbn. split; [reflexivity|]. split; [exact H1|].
    split; [exact (@Delete_branching V t k t1 d Hinv Hb Hk E)|exact H2].
Qed.

Lemma run_ops_live ops : forall t,
  Inv t -> branching (root t) -> valid_ops t ops -> safe_ops t ops ->
  exists t', run_ops t ops = Ok t' /\
    forall e, In e (entries (root t')) <->
              live ops e \/ (In e (entries (root t)) /\ untouched ops e).
Proof.
  induction ops as [|o ops IH]; intros t Hinv Hb Hv Hs.
  - exists t. split; [reflexivity|]. intros e. cbn [live]. split.
    + intros He. right. split; [exact He|constructor].
    + intros [[]|(He & _)]. exact He.
  - inversion Hv as [|? ? Ho Hrest]; subst.
    cbn [safe_ops] in Hs. destruct Hs as (Hs1 & Hs2).
    destruct (safe_step o Hinv Hb Ho Hs1) as (t1 & E1 & Hinv1 & Hb1 & Em & Ek).
    rewrite E1 in Hs2.
    pose proof (@apply_op_entries V t o t1 Hinv Hb Ho E1) as Hent.
    destruct (IH t1 Hinv1 Hb1) as (t' & E' & Hl); [|exact Hs2|].
    { unfold valid_ops in *. eapply Forall_impl; [|exact Hrest].
      intros a Ha. unfold isValidKey in *. rewrite Em, Ek. exact Ha. }
    exists t'. cbn [run_ops]. rewrite E1. cbn [bind]. split; [exact E'|].
    intros e. rewrite Hl, Hent. cbn [live]. unfold untouched.
    rewrite Forall_cons_iff.
    assert (Hsym : key_equiv (fst e) (op_key o) <-> key_equiv (op_key o) (fst e))
      by (split; apply key_equiv_sym).
    assert (Hup : match o with
                  | OpUpdate k v => e = (k, v)
                  | OpDelete _ => False
                  end <-> o = OpUpdate (fst e) (snd e)).
    { destruct o as [k v|k]; [|split; [intros []|discriminate]].
      split; [intros ->; reflexivity|]. intros [= -> ->]. destruct e; reflexivity. }
    rewrite Hup, Hsym. tauto.
Qed.
End LiveFacts.

Section LiveClaims.
Variable V : Type.

(** X13: on every run from a fresh trie in which each [Update] finds its
    key stored or extended by no stored key, the entries of the trie, which
    are what [Range] yields, are exactly the bindings the run leaves: the
    pairs [(k, v)] written by an [Update(k, v)] after which no [Update] and
    no [Delete] names the prefix of [k]. *)
Theorem entries_are_live_bindings mpl (t0 : lpmTrie V) ops :
  New V mpl = inl t0 -> valid_ops t0 ops -> safe_ops t0 ops ->
  exists t, run_ops t0 ops = Ok t
            /\ forall e, In e (entries (root t)) <-> live ops e.
Proof.
  intros Hnew Hv Hs. destruct (@New_ok V mpl t0 Hnew) as (Hinv & _ & Hr).
  destruct (@run_ops_live V ops t0 Hinv) as (t & E & Hl);
    [rewrite Hr; exact I|exact Hv|exact Hs|].
  exists t. split; [exact E|]. intros e. rewrite Hl, Hr. cbn [entries In].
  tauto.
Qed.
End LiveClaims.

Lemma entries_are_live_bindings_witness :
  exists t, run_ops (empty32 Z) ops_ABA = Ok t
            /\ forall e, In e (entries (root t)) <-> live ops_ABA e.
Proof.
  apply (@entries_are_live_bindings Z 32 (empty32 Z) ops_ABA).
  - reflexivity.
  - repeat constructor.
  - exact ops_ABA_safe.
Defined.

(** ** Runs on keys of maximal prefix length *)

Section FullClaims.
Variable V : Type.

Lemma live_In (ops : list (op V)) e :
  live ops e -> In (OpUpdate (fst e) (snd e)) ops.
Proof.
  induction ops as [|o ops IH]; cbn [live]; [intros []|].
  intros [(-> & _)|H]; [left; reflexivity|right; exact (IH H)].
Qed.

(** X14: when every key written has the maximal prefix length, every run
    from a fresh trie makes the trie an exact-match map: [Lookup] of a key
    of maximal prefix length returns [(v, true)] when [(k, v)] is the
    binding the run leaves for a key [k] with the same bits, and
    [(nil, false)] when the run leaves no such binding.  No condition on
    the order of the writes is needed. *)
Theorem full_length_exact_match mpl (t0 : lpmTrie V) ops q :
  New V mpl = inl t0 -> valid_ops t0 ops -> full_ops t0 ops ->
  isValidKey t0 q = true -> PrefixLen q = mpl ->
  exists t res, run_ops t0 ops = Ok t /\ Lookup t q = Ok res /\
    ((exists k v, live ops (k, v) /\ key_equiv k q /\ res = (v, true))
     \/ (res = (None, false)
         /\ forall e, live ops e -> ~ key_equiv (fst e) q)).
Proof.
  intros Hnew Hv Hf Hq Hfull.
  destruct (@New_ok V mpl t0 Hnew) as (Hinv0 & Hm0 & Hr0).
  pose proof (full_ops_safe Hinv0 Hv Hf) as Hs.
  destruct (@safe_facts V mpl t0 ops Hnew Hv Hs) as (t & E & Hinv & Hb & Em & Ek).
  destruct (@run_ops_live V ops t0 Hinv0) as (t' & E' & Hl);
    [rewrite Hr0; exact I|exact Hv|exact Hs|].
  rewrite E in E'. injection E' as <-.
  assert (Hlive : forall e, In e (entries (root t)) <-> live ops e).
  { intros e. rewrite Hl, Hr0. cbn [entries In]. tauto. }
  assert (Hlen : forall e, live ops e -> PrefixLen (fst e) = mpl).
  { intros e He. apply live_In in He.
    pose proof (proj1 (Forall_forall _ _) Hf _ He) as H. cbn [op_key] in H.
    congruence. }
  rewrite <- (@isValidKey_reachable V mpl t0 t q Hnew Em Ek) in Hq.
  destruct (Lookup_lpm q Hinv Hb Hq) as (res & Eres & Hres).
  exists t, res. split; [exact E|]. split; [exact Eres|].
  destruct Hres as [(k & v & I1 & M1 & -> & _)|(-> & N1)].
  - left. exists k, v. apply Hlive in I1. split; [exact I1|].
    split; [|reflexivity]. destruct M1 as (_ & A1).
    split; [|exact A1]. pose proof (Hlen _ I1) as Hx. cbn [fst] in Hx. lia.
  - right. split; [reflexivity|]. intros e He (Hl1 & Ha).
    apply (N1 e); [apply Hlive, He|]. split; [lia|exact Ha].
Qed.
End FullClaims.

Lemma full_length_exact_match_witness :
  exists t res, run_ops (empty32 Z) ops_ABA = Ok t /\ Lookup t kA = Ok res /\
    ((exists k v, live ops_ABA (k, v) /\ key_equiv k kA /\ res = (v, true))
     \/ (res = (None, false)
         /\ forall e, live ops_ABA e -> ~ key_equiv (fst e) kA)).
Proof.
  apply (@full_length_exact_match Z 32 (empty32 Z) ops_ABA kA).
  - reflexivity.
  - repeat constructor.
  - repeat constructor.
  - reflexivity.
  - reflexivity.
Defined.

(** ** Range and Size *)

Section RangeSize.
Variables (V A : Type).
Variable fn : Key -> option V -> A -> A * bool.
Hypothesis Hgo : forall k v a, snd (fn k v a) = true.

Lemma visited_all es : forall a, visited fn es a = es.
Proof.
  induction es as [|[k v] es IH]; intros a; [reflexivity|].
  cbn [visited]. pose proof (Hgo k v a) as H.
  destruct (fn k v a) as [a' c]. cbn in H. subst c. cbn [negb].
  rewrite IH. reflexivity.
Qed.

Lemma Range_calls_all (t : lpmTrie V) a : Range_calls fn t a = entries (root t).
Proof.
  unfold Range_calls, Range. rewrite traverse_visit, visit_logged.
  cbn [fst snd app]. apply visited_all.
Qed.
End RangeSize.

Section RangeSizeClaims.
Variable V : Type.

(** X15: after any run with valid keys on a fresh trie, a [Range] whose
    visitor never returns [false] calls it once for each entry, and the
    number of its calls is [Size()] (as an [int64]; the number itself when
    it is below [2^63]). *)
Theorem Range_calls_Size_times mpl (t0 : lpmTrie V) ops :
  New V mpl = inl t0 -> valid_ops t0 ops ->
  exists t, run_ops t0 ops = Ok t /\
    forall A (fn : Key -> option V -> A -> A * bool) a,
      (forall k v a', snd (fn k v a') = true) ->
      Range_calls fn t a = entries (root t)
      /\ Size t = wrap64 (Z.of_nat (length (Range_calls fn t a)))
      /\ (Z.of_nat (length (Range_calls fn t a)) < 2 ^ 63 ->
          Size t = Z.of_nat (length (Range_calls fn t a))).
Proof.
  intros Hnew Hv.
  destruct (@reachable_facts V mpl t0 ops Hnew Hv) as (t & E & Hinv & _).
  exists t. split; [exact E|]. intros A fn a Hgo.
  rewrite (Range_calls_all fn Hgo t a).
  destruct Hinv as (_ & _ & _ & Hsz). unfold Size, count_entries in *.
  split; [reflexivity|]. split; [exact Hsz|].
  intros Hlt. rewrite Hsz. apply wrap64_small. lia.
Qed.
End RangeSizeClaims.

Lemma Range_calls_Size_times_witness :
  exists t, run_ops (empty32 Z) ops_ABA = Ok t /\
    forall A (fn : Key -> option Z -> A -> A * bool) a,
      (forall k v a', snd (fn k v a') = true) ->
      Range_calls fn t a = entries (root t)
      /\ Size t = wrap64 (Z.of_nat (length (Range_calls fn t a)))
      /\ (Z.of_nat (length (Range_calls fn t a)) < 2 ^ 63 ->
          Size t = Z.of_nat (length (Range_calls fn t a))).
Proof.
  apply (@Range_calls_Size_times Z 32 (empty32 Z) ops_ABA).
  - reflexivity.
  - repeat constructor.
Defined.

(** ** Insert, then delete *)

Section InverseClaims.
Variable V : Type.

(** X16: on every run from a fresh trie in which each [Update] finds its
    key stored or extended by no stored key, for a valid key [k] that the
    run leaves unbound and that is a proper prefix of no key it leaves
    bound, [Update(k, v)] returns [false] and [Delete(k)] then returns
    [true] and gives back the very trie [Update] started from: the same
    nodes and the same counter, hence the same [Size()] and the same
    [Lookup] and [Range] results. *)
Theorem Update_then_Delete_restores mpl (t0 : lpmTrie V) ops k v :
  New V mpl = inl t0 -> valid_ops t0 ops -> safe_ops t0 ops ->
  isValidKey t0 k = true ->
  (forall e, live ops e -> ~ key_equiv (fst e) k /\ ~ proper_prefix k (fst e)) ->
  exists t t1, run_ops t0 ops = Ok t /\ Update t k v = Ok (t1, false)
               /\ Delete t1 k = Ok (t, true).
Proof.
  intros Hnew Hv Hs Hk Hfree.
  destruct (@New_ok V mpl t0 Hnew) as (Hinv0 & _ & Hr0).
  destruct (@safe_facts V mpl t0 ops Hnew Hv Hs) as (t & E & Hinv & Hb & Em & Ek).
  destruct (@run_ops_live V ops t0 Hinv0) as (t' & E' & Hl);
    [rewrite Hr0; exact I|exact Hv|exact Hs|].
  rewrite E in E'. injection E' as <-.
  rewrite <- (@isValidKey_reachable V mpl t0 t k Hnew Em Ek) in Hk.
  destruct (@Update_Delete_inverse V t k v Hinv Hb Hk) as (t1 & E1 & E2).
  { intros e He. apply Hfree. apply Hl in He. rewrite Hr0 in He.
    destruct He as [He|([] & _)]. exact He. }
  exists t, t1. auto.
Qed.
End InverseClaims.

Lemma Update_then_Delete_restores_witness :
  exists t t1, run_ops (empty32 Z) ops_nested = Ok t
               /\ Update t kA (Some 3) = Ok (t1, false)
               /\ Delete t1 kA = Ok (t, true).
Proof.
  apply (@Update_then_Delete_restores Z 32 (empty32 Z) ops_nested kA (Some 3)).
  - reflexivity.
  - repeat constructor.
  - exact ops_nested_safe.
  - reflexivity.
  - intros [k v] He. cbn [live ops_nested fst snd] in He.
    destruct He as [(He & _)|[(He & _)|[]]]; injection He as <- _; cbn [fst].
    + split; [intros (H & _); cbn in H; lia|intros (H & _); cbn in H; lia].
    + split; [|intros (H & _); cbn in H; lia].
      intros (_ & H). specialize (H 0 ltac:(cbn; lia)). vm_compute in H.
      discriminate.
Defined.

(** ** The bits beyond the prefix length *)

Section DontCare.
Variable V : Type.
Variable t : lpmTrie V.
Hypothesis Hcfg : cfg_ok t.
Variables (k k' : Key).
Hypothesis Hk : key_ok (keySize t) (maxPrefixLen t) k.
Hypothesis Hk' : key_ok (keySize t) (maxPrefixLen t) k'.
Hypothesis Heq : key_equiv k k'.

Lemma lpm_bitwise_equiv nk :
  key_ok (keySize t) (maxPrefixLen t) nk ->
  lpm_bitwise nk k = lpm_bitwise nk k'.
Proof.
  intros Hnk. destruct Hcfg as (_ & Hmpl). destruct Heq as (Hl & Ha).
  pose proof (lpm_bitwise_range Hnk Hk) as (R0 & R1 & R2).
  pose proof (lpm_bitwise_range Hnk Hk') as (R0' & R1' & R2').
  assert (H1 : lpm_bitwise nk k <= lpm_bitwise nk k').
  { apply (lpm_bitwise_max Hmpl Hnk Hk'); try lia.
    intros i Hi. rewrite (lpm_bitwise_agree nk k) by lia. apply Ha. lia. }
  assert (H2 : lpm_bitwise nk k' <= lpm_bitwise nk k).
  { apply (lpm_bitwise_max Hmpl Hnk Hk); try lia.
    intros i Hi. rewrite (lpm_bitwise_agree nk k') by lia.
    symmetry. apply Ha. lia. }
  lia.
Qed.

Lemma Delete_loop_equiv (n : lpmTrieNode V) :
  shape t n -> forall parent trim2 trim m0,
  Delete_loop t k parent trim2 trim n m0
  = Delete_loop t k' parent trim2 trim n m0.
Proof.
  induction n as [|nk c0 IH0 c1 IH1 v im]; intros Hsh parent trim2 trim m0;
    [reflexivity|].
  destruct Hsh as (Hnk & Hs0 & Hs1). pose proof Heq as (Hl & Ha).
  pose proof (lpm_bitwise_range Hnk Hk) as (R0 & R1 & R2).
  cbn [Delete_loop].
  rewrite (lpm_node t Hk Hnk), (lpm_node t Hk' Hnk). cbn [bind].
  rewrite <- (lpm_bitwise_equiv Hnk), <- Hl.
  destruct (Z.eqb_spec (PrefixLen nk) (lpm_bitwise nk k)) as [Em|Nm];
    cbn [negb orb]; [|reflexivity].
  destruct (Z.eqb_spec (PrefixLen nk) (PrefixLen k)) as [Ep|Np]; [reflexivity|].
  destruct Hk as ((_ & Hle) & _).
  rewrite (extractBit_key Hcfg Hk), (extractBit_key Hcfg Hk') by lia.
  cbn [bind]. rewrite <- (Ha (PrefixLen nk)) by lia.
  destruct (_ =? 0); [apply IH0|apply IH1]; assumption.
Qed.

Lemma Delete_finish_equiv r : Delete_finish t k r = Delete_finish t k' r.
Proof.
  destruct Heq as (Hl & _).
  destruct r as [[[[parent trim2] trim] [|nk c0 c1 v im]] m]; [reflexivity|].
  cbn [Delete_finish]. rewrite Hl. reflexivity.
Qed.

Lemma matches_equiv_query e : matches e k -> matches e k'.
Proof.
  destruct Heq as (Hl & Ha). intros (L & A). split; [lia|].
  intros i Hi. rewrite (A i Hi). apply Ha. lia.
Qed.
End DontCare.

Section DontCareClaims.
Variable V : Type.

(** X17: after any run with valid keys on a fresh trie, [Delete] reads
    only the first [PrefixLen] bits of its key: for two valid keys of the
    same prefix length that agree on these bits, [Delete] returns the
    same flag and the same trie. *)
Theorem Delete_reads_prefix_only mpl (t0 : lpmTrie V) ops k k' :
  New V mpl = inl t0 -> valid_ops t0 ops ->
  isValidKey t0 k = true -> isValidKey t0 k' = true -> key_equiv k k' ->
  exists t, run_ops t0 ops = Ok t /\ Delete t k = Delete t k'.
Proof.
  intros Hnew Hv Hk Hk' Heq.
  destruct (@reachable_facts V mpl t0 ops Hnew Hv) as (t & E & Hinv & _ & Em & Ek).
  rewrite <- (@isValidKey_reachable V mpl t0 t k Hnew Em Ek) in Hk.
  rewrite <- (@isValidKey_reachable V mpl t0 t k' Hnew Em Ek) in Hk'.
  exists t. split; [exact E|].
  destruct Hinv as (Hcfg & Hsh & _).
  pose proof (proj1 (isValidKey_ok t k) Hk) as Hkk.
  pose proof (proj1 (isValidKey_ok t k') Hk') as Hkk'.
  unfold Delete, checkKey. rewrite Hk, Hk'. cbn [negb bind].
  rewrite (Delete_loop_equiv Hcfg Hkk Hkk' Heq (root t) Hsh).
  destruct (Delete_loop t k' nilNode [] [] (root t) 0) as [r|]; [|reflexivity].
  cbn [bind]. rewrite (Delete_finish_equiv t Heq r). reflexivity.
Qed.

(** X18: on every run from a fresh trie in which each [Update] finds its
    key stored or extended by no stored key, [Lookup] reads only the
    first [PrefixLen] bits of the query: two valid queries of the same
    prefix length that agree on these bits get the same answer. *)
Theorem Lookup_reads_prefix_only mpl (t0 : lpmTrie V) ops q q' :
  New V mpl = inl t0 -> valid_ops t0 ops -> safe_ops t0 ops ->
  isValidKey t0 q = true -> isValidKey t0 q' = true -> key_equiv q q' ->
  exists t, run_ops t0 ops = Ok t /\ Lookup t q = Lookup t q'.
Proof.
  intros Hnew Hv Hs Hq Hq' Heq.
  destruct (@safe_facts V mpl t0 ops Hnew Hv Hs) as (t & E & Hinv & Hb & Em & Ek).
  rewrite <- (@isValidKey_reachable V mpl t0 t q Hnew Em Ek) in Hq.
  rewrite <- (@isValidKey_reachable V mpl t0 t q' Hnew Em Ek) in Hq'.
  exists t. split; [exact E|].
  destruct (Lookup_lpm q Hinv Hb Hq) as (r & Er & Hr).
  destruct (Lookup_lpm q' Hinv Hb Hq') as (r' & Er' & Hr').
  rewrite Er, Er'. f_equal.
  apply (@lpm_among_unique V (entries (root t)) q' r r'); [| |exact Hr'].
  - apply branching_unique; [|exact Hb].
    destruct Hinv as (_ & Hsh & _). exact (@shape_nonneg V t _ Hsh).
  - destruct Hr as [(k1 & v1 & I1 & M1 & -> & X1)|(-> & N1)].
    + left. exists k1, v1. split; [exact I1|].
      split; [exact (matches_equiv_query Heq M1)|]. split; [reflexivity|].
      intros e He Hm. apply X1; [exact He|].
      exact (matches_equiv_query (key_equiv_sym Heq) Hm).
    + right. split; [reflexivity|]. intros e He Hm.
      apply (N1 e He). exact (matches_equiv_query (key_equiv_sym Heq) Hm).
Qed.
End DontCareClaims.

Lemma Delete_reads_prefix_only_witness :
  exists t, run_ops (empty32 Z) ops_nested = Ok t
            /\ Delete t k8 = Delete t (key4 8 x0a xff x00 x01).
Proof.
  apply (@Delete_reads_prefix_only Z 32 (empty32 Z) ops_nested
           k8 (key4 8 x0a xff x00 x01)).
  - reflexivity.
  - repeat constructor.
  - reflexivity.
  - reflexivity.
  - split; [reflexivity|]. intros i Hi.
    assert (Hc : i = 0 \/ i = 1 \/ i = 2 \/ i = 3 \/ i = 4 \/ i = 5 \/ i = 6 \/ i = 7)
      by (cbn in Hi; lia).
    destruct Hc as [->|[->|[->|[->|[->|[->|[->| ->]]]]]]]; reflexivity.
Defined.

Lemma Lookup_reads_prefix_only_witness :
  exists t, run_ops (empty32 Z) ops_nested = Ok t
            /\ Lookup t k8 = Lookup t (key4 8 x0a xff x00 x01).
Proof.
  apply (@Lookup_reads_prefix_only Z 32 (empty32 Z) ops_nested
           k8 (key4 8 x0a xff x00 x01)).
  - reflexivity.
  - repeat constructor.
  - exact ops_nested_safe.
  - reflexivity.
  - reflexivity.
  - split; [reflexivity|]. intros i Hi.
    assert (Hc : i = 0 \/ i = 1 \/ i = 2 \/ i = 3 \/ i = 4 \/ i = 5 \/ i = 6 \/ i = 7)
      by (cbn in Hi; lia).
    destruct Hc as [->|[->|[->|[->|[->|[->|[->| ->]]]]]]]; reflexivity.
Defined.

(** ** The comparison as a prefix test *)

Section PrefixTest.
Variables (ks mpl : Z).
Hypothesis Hmpl : mpl = 8 * ks.
Variables (a b : Key).
Hypothesis Ha : key_ok ks mpl a.
Hypothesis Hb : key_ok ks mpl b.

Lemma lpm_bitwise_sym : lpm_bitwise a b = lpm_bitwise b a.
Proof.
  pose proof (lpm_bitwise_range Ha Hb) as (R0 & R1 & R2).
  pose proof (lpm_bitwise_range Hb Ha) as (R0' & R1' & R2').
  assert (H1 : lpm_bitwise a b <= lpm_bitwise b a).
  { apply (lpm_bitwise_max Hmpl Hb Ha); try lia.
    apply prefix_agree_sym, lpm_bitwise_agree. }
  assert (H2 : lpm_bitwise b a <= lpm_bitwise a b).
  { apply (lpm_bitwise_max Hmpl Ha Hb); try lia.
    apply prefix_agree_sym, lpm_bitwise_agree. }
  lia.
Qed.

(** X19: for two keys that [checkKey] accepts, [longestPrefixMatch]
    returns the same number whichever of the two is the node, a number
    between 0 and both prefix lengths; and it returns the node's prefix
    length exactly when the node's prefix covers the key, which is the
    test the three descents make. *)
Theorem longestPrefixMatch_prefix_test :
  exists r, longestPrefixMatch ks a b = Ok r
            /\ longestPrefixMatch ks b a = Ok r
            /\ 0 <= r /\ r <= PrefixLen a /\ r <= PrefixLen b
            /\ (r = PrefixLen a <-> matches a b).
Proof.
  exists (lpm_bitwise a b). split; [exact (lpm_ok Ha Hb)|].
  split; [rewrite lpm_bitwise_sym; exact (lpm_ok Hb Ha)|].
  pose proof (lpm_bitwise_range Ha Hb) as (R0 & R1 & R2).
  repeat (split; [assumption|]).
  pose proof (matches_lpm Hmpl Ha Hb) as H. tauto.
Qed.
End PrefixTest.

Lemma longestPrefixMatch_prefix_test_witness :
  exists r, longestPrefixMatch 4 k8 k32 = Ok r
            /\ longestPrefixMatch 4 k32 k8 = Ok r
            /\ 0 <= r /\ r <= PrefixLen k8 /\ r <= PrefixLen k32
            /\ (r = PrefixLen k8 <-> matches k8 k32).
Proof.
  apply (@longestPrefixMatch_prefix_test 4 32 eq_refl k8 k32).
  - split; [cbn; lia|reflexivity].
  - split; [cbn; lia|reflexivity].
Defined.

(** ** A new prefix of a stored key *)

Section NewPrefix.
Variable V : Type.
Variables (ks mpl : Z).
Hypothesis Hmpl : mpl = 8 * ks.
Variable key : Key.
Variable val : option V.
Hypothesis Hkey : key_ok ks mpl key.
Implicit Types (n : lpmTrieNode V).

(** Where the descent leaves the path of a key that is a prefix of a key
    below, the match length is the prefix length of the key. *)
Lemma fork_at_key nk (c0 c1 : lpmTrieNode V) v im e :
  all_keys (key_ok ks mpl) (Node nk c0 c1 v im) ->
  branching (Node nk c0 c1 v im) ->
  In e (entries (Node nk c0 c1 v im)) -> proper_prefix key (fst e) ->
  PrefixLen nk <> lpm_bitwise nk key ->
  lpm_bitwise nk key = PrefixLen key.
Proof.
  intros Hsh Hbr He (Hlt & Hag) Hne. pose proof Hsh as (Hnk & _).
  pose proof (lpm_bitwise_range Hnk Hkey) as (R0 & R1 & R2).
  destruct (@all_keys_entries V _ _ (branching_root_prefix Hbr) e He)
    as (Le & Ae).
  destruct Hkey as ((K0 & _) & _).
  assert (Hmin : PrefixLen key <= lpm_bitwise nk key).
  { destruct (Z_lt_ge_dec (PrefixLen nk) (PrefixLen key)) as [Hn|Hn].
    - assert (PrefixLen nk <= lpm_bitwise nk key); [|lia].
      apply (lpm_bitwise_max Hmpl Hnk Hkey); try lia.
      intros i Hi. rewrite (Ae i Hi). symmetry. apply Hag. lia.
    - apply (lpm_bitwise_max Hmpl Hnk Hkey); try lia.
      intros i Hi. rewrite (Ae i ltac:(lia)). symmetry. apply Hag. lia. }
  lia.
Qed.

(** [Update] of a key that is a proper prefix of a stored key, and whose
    prefix no node has, forks at the key's own prefix length; [Delete] of
    the key then stops at the intermediate node and gives up. *)
Lemma Update_rel_new_prefix n n' u r :
  Update_rel mpl key val n n' u r ->
  all_keys (key_ok ks mpl) n -> branching n ->
  (exists e, In e (entries n) /\ proper_prefix key (fst e)) ->
  all_keys (fun nk => ~ key_equiv nk key) n ->
  u = false /\ r = false /\ increasing n' = false
  /\ forall pim o, Delete_rel key pim n' o -> o = DUnchanged V.
Proof.
  intros Hrel. induction Hrel as
    [|nk c0 c1 v im Hm Hp|nk c0 c1 v im Hm|nk c0 c1 v im c' u r Hm Hp Hx Hrel IH];
    intros Hsh Hbr (e & He & Hpp) Hno.
  - destruct He.
  - exfalso. destruct Hno as (Hno & _). exact (Hno (@stop_equiv key nk Hm Hp)).
  - pose proof (fork_at_key e Hsh Hbr He Hpp Hm) as Em.
    pose proof (@lpm_bitwise_imkey ks mpl Hmpl key Hkey (PrefixLen key)
                  ltac:(destruct Hkey as ((? & _) & _); lia)) as Eim.
    split; [reflexivity|]. split; [reflexivity|].
    cbv zeta. rewrite Em.
    assert (Hd : forall x0 x1 pim o,
              Delete_rel key pim
                (Node (mkKey (PrefixLen key) (Data key)) x0 x1 None true) o ->
              o = DUnchanged V).
    { intros x0 x1 pim o Hd. apply Delete_rel_Node_inv in Hd.
      cbn [PrefixLen] in Hd.
      destruct Hd as [(_ & ->)|[(_ & _ & Hd)|(_ & Hd & _)]];
        [reflexivity| |contradiction].
      destruct Hd as [(_ & ->)|[(Hd & _)|[(Hd & _)|(Hd & _)]]];
        [reflexivity|discriminate|discriminate|discriminate]. }
    destruct (negb _); (split; [|apply Hd]);
      cbn [increasing longer_than prefixLen_of newLpmTrieNode PrefixLen];
      rewrite Z.ltb_irrefl; rewrite ?andb_false_r; reflexivity.
  - pose proof Hsh as ((Hnk0 & _) & _). pose proof Hbr as (E0 & E1 & _).
    pose proof (lpm_bitwise_range (proj1 Hsh) Hkey) as (R0 & R1 & R2).
    pose proof (kbit_01 (Data key) (PrefixLen nk)) as Hb01.
    destruct Hpp as (Hlt & Hag).
    assert (Hin : In e (entries (child (Node nk c0 c1 v im)
                                       (kbit (Data key) (PrefixLen nk))))).
    { apply (entries_Node_iff nk c0 c1 v im e Hb01) in He. cbn [child].
      destruct He as [He|[(_ & ->)|He]]; [exact He| |].
      - cbn [fst] in Hlt. lia.
      - exfalso. rewrite (Hag (PrefixLen nk) ltac:(lia)) in Hb01, He.
        destruct Hb01 as [Hb|Hb]; rewrite Hb in He; cbn [Z.eqb] in He.
        + destruct (@all_keys_entries V _ _ E1 e He) as (_ & _ & Hy). lia.
        + destruct (@all_keys_entries V _ _ E0 e He) as (_ & _ & Hy). lia. }
    destruct IH as (Hu & Hr & Hi & Hd).
    + apply all_keys_child, Hsh.
    + apply branching_child, Hbr.
    + exists e. split; [exact Hin|split; assumption].
    + apply all_keys_child, Hno.
    + split; [exact Hu|]. split; [exact Hr|]. split.
      * cbn [set_child child] in *.
        destruct (kbit (Data key) (PrefixLen nk) =? 0); cbn [increasing];
          rewrite Hi, ?andb_false_r; reflexivity.
      * intros pim o Ho.
        assert (Hn' : exists x0 x1,
                  set_child (Node nk c0 c1 v im)
                            (kbit (Data key) (PrefixLen nk)) c'
                  = Node nk x0 x1 v im
                  /\ child (Node nk x0 x1 v im)
                           (kbit (Data key) (PrefixLen nk)) = c').
        { cbn [set_child child].
          destruct (kbit (Data key) (PrefixLen nk) =? 0); eauto. }
        destruct Hn' as (x0 & x1 & En & Ec). rewrite En in Ho.
        apply Delete_rel_Node_inv in Ho.
        destruct Ho as [(_ & ->)|[(_ & Ho & _)|(_ & _ & o' & Ho & ->)]];
          [reflexivity|contradiction|].
        rewrite Ec in Ho. rewrite (Hd _ _ Ho). reflexivity.
Qed.
End NewPrefix.

Section NewPrefixClaims.
Variable V : Type.

(** X20: on every run from a fresh trie in which each [Update] finds its
    key stored or extended by no stored key, take a valid key [k] that is a
    proper prefix of a stored key and whose prefix no node of the trie has.
    [Update(k, v)] then returns [false] and forks at the prefix length of
    [k] itself: the new intermediate node and the new entry below it have
    the same prefix length, so the prefix length no longer grows along
    every path; and [Delete(k)] right after stops at that intermediate
    node, returns [false] and leaves the trie as it is. *)
Theorem new_prefix_forks_at_itself mpl (t0 : lpmTrie V) ops k v :
  New V mpl = inl t0 -> valid_ops t0 ops -> safe_ops t0 ops ->
  isValidKey t0 k = true ->
  exists t, run_ops t0 ops = Ok t /\
    ((exists e, In e (entries (root t)) /\ proper_prefix k (fst e)) ->
     all_keys (fun nk => ~ key_equiv nk k) (root t) ->
     exists t', Update t k v = Ok (t', false)
                /\ increasing (root t') = false
                /\ Delete t' k = Ok (t', false)).
Proof.
  intros Hnew Hv Hs Hk.
  destruct (@safe_facts V mpl t0 ops Hnew Hv Hs) as (t & E & Hinv & Hb & Em & Ek).
  rewrite <- (@isValidKey_reachable V mpl t0 t k Hnew Em Ek) in Hk.
  exists t. split; [exact E|]. intros Hpp Hno.
  pose proof Hinv as (Hcfg & Hsh & _). pose proof Hcfg as (_ & Hmpl).
  pose proof (proj1 (isValidKey_ok t k) Hk) as Hkk.
  destruct (Update_spec k v Hcfg Hk Hsh) as (n' & u & r & Hrel & Heq).
  destruct (Update_rel_new_prefix Hmpl Hkk Hrel Hsh Hb Hpp Hno)
    as (-> & -> & Hi & Hd).
  destruct (@Update_inv V t k v Hinv Hk) as (t' & u' & Eu & Hinv' & Em' & Ek').
  rewrite Heq in Eu. injection Eu as <- <-.
  eexists. split; [exact Heq|]. split; [exact Hi|].
  destruct Hinv' as (Hcfg' & Hsh' & _).
  destruct (@Delete_spec V _ k Hcfg' Hk Hsh') as (o & Hdel & Hdeq).
  rewrite Hdeq, (Hd _ _ Hdel). reflexivity.
Qed.
End NewPrefixClaims.

Lemma new_prefix_forks_at_itself_witness :
  exists t t', run_ops (empty32 Z) [OpUpdate k32 (Some 1)] = Ok t
               /\ Update t k8 (Some 2) = Ok (t', false)
               /\ increasing (root t') = false
               /\ Delete t' k8 = Ok (t', false).
Proof.
  assert (E0 : run_ops (empty32 Z) [OpUpdate k32 (Some 1)] = Ok trie_k32)
    by (vm_compute; reflexivity).
  destruct (@new_prefix_forks_at_itself Z 32 (empty32 Z)
              [OpUpdate k32 (Some 1)] k8 (Some 2)) as (t & E & H).
  - reflexivity.
  - repeat constructor.
  - cbn [safe_ops]. split; [right; intros e []|].
    replace (apply_op (empty32 Z) (OpUpdate k32 (Some 1))) with (Ok trie_k32)
      by (vm_compute; reflexivity).
    exact I.
  - reflexivity.
  - rewrite E0 in E. injection E as <-.
    destruct H as (t' & H).
    + exists (k32, Some 1). split; [left; reflexivity|].
      split; [cbn; lia|]. intros i Hi.
      assert (Hc : i = 0 \/ i = 1 \/ i = 2 \/ i = 3 \/ i = 4 \/ i = 5 \/ i = 6 \/ i = 7)
        by (cbn in Hi; lia).
      destruct Hc as [->|[->|[->|[->|[->|[->|[->| ->]]]]]]]; reflexivity.
    + cbn. split; [|auto]. intros (Hl & _). cbn in Hl. lia.
    + exists trie_k32, t'. split; [exact E0|exact H].
Defined.
